(** * Middleware chain executor: [processMiddleware] of src/middleware/process.ts

    The executor walks an array of middleware functions.  Each function
    receives an argument object holding a [next] closure; calling [next]
    runs the following function, or [last] once the array is exhausted.  A
    counter, [lastCalledMiddlewareIndex], local to one execution, rejects a
    second call of a [next] closure.

    Embedding.  A promise that is awaited as soon as it is created is a
    computation [State -> Outcome * State]: the outcome is the settlement of
    the promise, the state carries the counter and a log of calls.  The
    middleware functions and [last] are parameters of the executor; their
    bodies are given as scripts ([Body]) made of observable effects, awaited
    calls of properties of the argument object, [return] and [throw].  A
    script awaits every call it makes and calls only what its own argument
    object holds.

    Handlers that call [next] without awaiting it, or that pass their
    [next] to other handlers through [context], need more: the second
    embedding ([Async]) is a machine in which every call of an async
    function is an activation that suspends at its awaits and resumes
    later, in an order the schedule chooses.  The orderings, and what a
    second entry of a step meets, are stated there.

    The log is ghost state: the source keeps no log.  It records what the
    spies of the test-suite observe (which function was applied, in which
    order), so that orderings can be stated. *)

From Stdlib Require Import ZArith Lia.
From stdpp Require Import gmap strings list fin_maps.

Local Open Scope Z_scope.

(** ** Values thrown and promise outcomes *)

(** A thrown value, as far as callers inspect it: the optional [code]
    property (the test-suite reads [(err as CodedError).code]) and the
    message. *)
Record Error := mkError {
  code : option string;
  message : string
}.

#[global] Instance Error_eq_dec : EqDecision Error.
Proof. solve_decision. Defined.

(** Modelled from the spec: the class [MiddlewareNextError] lives in
    src/errors.ts, which is not part of the sources at hand.  The spec asks
    for "a stable machine-readable identifier (e.g. a fixed error code
    string)"; the string is the one the test-suite of process.ts compares
    against.  The message is the argument of the constructor at line 41. *)
Definition MiddlewareNextErrorCode : string := "slack_bolt_middleware_next_error".

Definition MiddlewareNextError (msg : string) : Error :=
  {| code := Some MiddlewareNextErrorCode; message := msg |}.

(** What the engine throws when a script calls a property that is missing or
    is not a function. *)
Definition notCallable : Error :=
  {| code := None; message := "is not a function" |}.

(** Settlement of a [Promise<void>]. *)
Inductive Outcome :=
| Fulfilled
| Rejected (e : Error).

#[global] Instance Outcome_eq_dec : EqDecision Outcome.
Proof. solve_decision. Defined.

(** ** Call log and executor state *)

Definition Tag := string.

Inductive Event :=
| Called (i : Z)     (* [fn(...)] at line 48, with [fn = middleware[i]] *)
| CalledLast         (* [last()] at line 28 or line 45 *)
| Next (i : Z)       (* the closure of line 49 built for index [i] was called *)
| Effect (t : Tag).  (* a side effect of user code, such as a spy call *)

#[global] Instance Event_eq_dec : EqDecision Event.
Proof. solve_decision. Defined.

Record State := mkState {
  lastCalledMiddlewareIndex : Z;
  observed : list Event
}.

Definition setLastCalled (i : Z) (st : State) : State :=
  {| lastCalledMiddlewareIndex := i; observed := observed st |}.

Definition record (e : Event) (st : State) : State :=
  {| lastCalledMiddlewareIndex := lastCalledMiddlewareIndex st;
     observed := observed st ++ [e] |}.

(** A call that is awaited. *)
Definition Exec := State -> Outcome * State.

(** ** Argument objects *)

(** Values supplied by the caller: opaque data, or a function that performs
    an effect and settles. *)
Inductive Foreign :=
| Opaque (name : string)
| Fn (t : Tag) (r : Outcome).

#[global] Instance Foreign_eq_dec : EqDecision Foreign.
Proof. solve_decision. Defined.

(** Values found in the object handed to a middleware function: those of the
    caller, and the closure [() => invokeMiddleware(toCallMiddlewareIndex + 1)]. *)
Inductive Value :=
| VForeign (v : Foreign)
| VNext (c : Exec).

Abbreviation Bundle := (gmap string Value).
Abbreviation Args := (gmap string Foreign).

(** ** Scripts of user code *)

Inductive Body :=
| Return                                       (* the async body ends *)
| Throw (e : Error)                            (* [throw e] *)
| Emit (t : Tag) (k : Body)                    (* [callback(); k] *)
| AwaitCall (key : string) (k : Outcome -> Body).
    (* [await args[key]()], the continuation sees how the promise settled:
       [fun r => match r with Fulfilled => k | Rejected e => Throw e end] is
       a plain [await], any other shape a try/catch around it *)

Abbreviation Middleware := (Bundle -> Body).

(** [await args.next(); k]: a rejection is thrown again. *)
Definition awaitNext (k : Body) : Body :=
  AwaitCall "next" (fun r => match r with Fulfilled => k | Rejected e => Throw e end).

Fixpoint run (args : Bundle) (body : Body) (st : State) : Outcome * State :=
  match body with
  | Return => (Fulfilled, st)
  | Throw e => (Rejected e, st)
  | Emit t k => run args k (record (Effect t) st)
  | AwaitCall key k =>
      match args !! key with
      | Some (VNext c) => let '(r, st') := c st in run args (k r) st'
      | Some (VForeign (Fn t r)) => run args (k r) (record (Effect t) st)
      | _ => run args (k (Rejected notCallable)) st
      end
  end.

(** ** The executor *)

Section Executor.

Variable initialArgs : Args.
Variables context client logger : Foreign.
Variable last : Body.

(** [last()]: it receives no argument object. *)
Definition callLast : Exec := fun st => run ∅ last (record CalledLast st).

(** The object literal of lines 48-54:
    [{ next: ..., ...initialArgs, context, client, logger }].  Properties
    written later replace earlier ones of the same name; [∪] on maps keeps
    the left operand's binding. *)
Definition mkArgs (next : Exec) : Bundle :=
  <["logger" := VForeign logger]>
    (<["client" := VForeign client]>
       (<["context" := VForeign context]>
          ((VForeign <$> initialArgs) ∪ {["next" := VNext next]}))).

(** [invokeMiddleware], lines 39-55, by recursion on the part of the array
    from [toCallMiddlewareIndex] on: [rest = []] is the case
    [toCallMiddlewareIndex >= middleware.length], and the head of [rest] is
    [middleware[toCallMiddlewareIndex]].  [invokeMiddleware_handler] and
    [invokeMiddleware_last] below give the equations in terms of the index. *)
Fixpoint invokeFrom (rest : list Middleware) (toCallMiddlewareIndex : Z) : Exec :=
  fun st =>
    if lastCalledMiddlewareIndex st >=? toCallMiddlewareIndex then
      (Rejected (MiddlewareNextError "next() called multiple times"), st)
    else
      let st1 := setLastCalled toCallMiddlewareIndex st in
      match rest with
      | [] => callLast st1
      | fn :: rest' =>
          let next : Exec := fun s =>
            invokeFrom rest' (toCallMiddlewareIndex + 1)
                       (record (Next toCallMiddlewareIndex) s) in
          run (mkArgs next) (fn (mkArgs next))
              (record (Called toCallMiddlewareIndex) st1)
      end.

Variable middleware : list Middleware.

Definition invokeMiddleware (toCallMiddlewareIndex : Z) : Exec :=
  invokeFrom (drop (Z.to_nat toCallMiddlewareIndex) middleware)
             toCallMiddlewareIndex.

(** [() => invokeMiddleware(i + 1)], and the object handler [i] receives. *)
Definition nextFor (i : Z) : Exec :=
  fun st => invokeMiddleware (i + 1) (record (Next i) st).

Definition argsFor (i : Z) : Bundle := mkArgs (nextFor i).

End Executor.

(** What one call of [processMiddleware] leaves behind: how the returned
    promise settled, the calls made, and the final value of the local
    counter ([None] when line 30 was never reached). *)
Record Execution := mkExecution {
  completion : Outcome;
  events : list Event;
  counter : option Z
}.

(** Line 30: [let lastCalledMiddlewareIndex = -1], with nothing logged yet. *)
Definition initialState : State :=
  {| lastCalledMiddlewareIndex := -1; observed := [] |}.

(** The default value of the parameter [last]: [async () => { }]. *)
Definition defaultLast : Body := Return.

Definition processMiddleware (middleware : list Middleware) (initialArgs : Args)
    (context client logger : Foreign) (last : option Body) : Execution :=
  let last := default defaultLast last in
  if (Z.of_nat (length middleware) <=? 0) then
    (* line 28: the counter is not declared on this path; the field of the
       state is a placeholder, which [last] cannot read *)
    let '(r, st) := callLast last {| lastCalledMiddlewareIndex := 0; observed := [] |} in
    {| completion := r; events := observed st; counter := None |}
  else
    let '(r, st) :=
      invokeMiddleware initialArgs context client logger last middleware 0
                       initialState in
    {| completion := r; events := observed st;
       counter := Some (lastCalledMiddlewareIndex st) |}.

(** ** Vocabulary of the properties *)

(** The events with which the executor marks its own calls. *)
Definition isStep (e : Event) : bool :=
  match e with
  | Called _ | CalledLast => true
  | _ => false
  end.

(** The events that user code adds. *)
Definition isEffect (e : Event) : bool :=
  match e with
  | Effect _ => true
  | _ => false
  end.

(** The calls of middleware functions and of [last], in order. *)
Definition steps (l : list Event) : list Event := List.filter isStep l.

(** The calls of a chain of length [n] that runs to its end: the middleware
    functions by increasing index, then [last]. *)
Definition expectedCalls (n : Z) : list Event :=
  (Called <$> seqZ 0 n) ++ [CalledLast].

(** The event with which the executor marks step [i] of a chain of length [n]. *)
Definition stepEvent (n i : Z) : Event :=
  if i <? n then Called i else CalledLast.

(** The calls so far are the first [lastCalledMiddlewareIndex + 1] expected
    ones. *)
Definition Reached (n : Z) (st : State) : Prop :=
  -1 ≤ lastCalledMiddlewareIndex st ≤ n ∧
  steps (observed st) =
    take (Z.to_nat (lastCalledMiddlewareIndex st + 1)) (expectedCalls n).

(** Each call of a middleware function other than the first comes right
    after a call of the closure handed to the function before it, and so
    does the call of [last] at the end of a chain. *)
Definition Preceded (n : Z) (log : list Event) : Prop :=
  ∀ p e, log !! p = Some e →
    match e with
    | Called j => (p = 0%nat ∧ j = 0) ∨ (∃ q, p = S q ∧ log !! q = Some (Next (j - 1)))
    | CalledLast => (p = 0%nat ∧ n = 0) ∨ (∃ q, p = S q ∧ log !! q = Some (Next (n - 1)))
    | _ => True
    end.

(** The log at the moment step [i] is entered. *)
Definition Entered (i : Z) (log : list Event) : Prop :=
  (i = 0 ∧ log = []) ∨ List.last log CalledLast = Next (i - 1).

(** The counter never decreases and the log only grows. *)
Definition Extends (st st' : State) : Prop :=
  lastCalledMiddlewareIndex st ≤ lastCalledMiddlewareIndex st' ∧
  ∃ l, observed st' = observed st ++ l.

(** The calls made are always an initial part of [expectedCalls], and each
    one follows the call of the closure that leads to it. *)
Definition Good (n : Z) (st : State) : Prop :=
  Reached n st ∧ Preceded n (observed st).

(** *** Shapes of scripts *)

(** The script never calls a closure of the executor: it may perform effects
    and call what the caller supplied. *)
Inductive NoAdvance (args : Bundle) : Body → Prop :=
| na_return : NoAdvance args Return
| na_throw e : NoAdvance args (Throw e)
| na_emit t k : NoAdvance args k → NoAdvance args (Emit t k)
| na_call key k :
    (∀ c, args !! key ≠ Some (VNext c)) →
    (∀ r, NoAdvance args (k r)) →
    NoAdvance args (AwaitCall key k).

(** The script calls a closure of the executor exactly once, however its
    calls settle. *)
Inductive AdvancesOnce (args : Bundle) : Body → Prop :=
| ao_emit t k : AdvancesOnce args k → AdvancesOnce args (Emit t k)
| ao_call key k :
    (∀ c, args !! key ≠ Some (VNext c)) →
    (∀ r, AdvancesOnce args (k r)) →
    AdvancesOnce args (AwaitCall key k)
| ao_next key c k :
    args !! key = Some (VNext c) →
    (∀ r, NoAdvance args (k r)) →
    AdvancesOnce args (AwaitCall key k).

(** The script performs effects and then settles as [r]. *)
Inductive Settles (r : Outcome) : Body → Prop :=
| settles_return : r = Fulfilled → Settles r Return
| settles_throw e : r = Rejected e → Settles r (Throw e)
| settles_emit t k : Settles r k → Settles r (Emit t k).

(** The script performs effects, awaits a closure of the executor once, and
    settles the way that call settled, possibly after more effects: the
    [await args.next()] idiom without a try/catch and without a later
    [throw]. *)
Inductive Forwards (args : Bundle) : Body → Prop :=
| fw_emit t k : Forwards args k → Forwards args (Emit t k)
| fw_next key c k :
    args !! key = Some (VNext c) →
    (∀ r, Settles r (k r)) →
    Forwards args (AwaitCall key k).

(** The script performs effects, awaits a closure of the executor once,
    and, if that call is fulfilled, performs effects and throws [e]. *)
Inductive FailsAfter (e : Error) (args : Bundle) : Body → Prop :=
| fa_emit t k : FailsAfter e args k → FailsAfter e args (Emit t k)
| fa_next key c k :
    args !! key = Some (VNext c) →
    Settles (Rejected e) (k Fulfilled) →
    FailsAfter e args (AwaitCall key k).

(** *** Logs *)

(** The effects of user code in a log, by tag. *)
Definition effects (l : list Event) : list Tag :=
  flat_map (λ e, match e with Effect t => [t] | _ => [] end) l.

(** [t1(); t2(); ...; k] *)
Fixpoint emits (ts : list Tag) (k : Body) : Body :=
  match ts with
  | [] => k
  | t :: ts' => Emit t (emits ts' k)
  end.

(** The state after the effects [ts], in order. *)
Definition logAll (ts : list Tag) (st : State) : State :=
  foldl (λ s t, record (Effect t) s) st ts.

(** How the awaited call of a property that is not a closure of the executor
    settles: a function of the caller settles as it was made to, anything
    else cannot be called. *)
Definition foreignOutcome (args : Bundle) (key : string) : Outcome :=
  match args !! key with
  | Some (VForeign (Fn _ r)) => r
  | _ => Rejected notCallable
  end.

(** The script performs effects and awaits functions of the caller, and
    then settles as [r]. *)
Inductive Concludes (args : Bundle) (r : Outcome) : Body → Prop :=
| cc_return : r = Fulfilled → Concludes args r Return
| cc_throw e : r = Rejected e → Concludes args r (Throw e)
| cc_emit t k : Concludes args r k → Concludes args r (Emit t k)
| cc_call key k :
    (∀ c, args !! key ≠ Some (VNext c)) →
    Concludes args r (k (foreignOutcome args key)) →
    Concludes args r (AwaitCall key k).

(** The script awaits a closure of the executor once and settles the way
    that call settled; before and after, it may perform effects and await
    functions of the caller. *)
Inductive Relays (args : Bundle) : Body → Prop :=
| rl_emit t k : Relays args k → Relays args (Emit t k)
| rl_call key k :
    (∀ c, args !! key ≠ Some (VNext c)) →
    Relays args (k (foreignOutcome args key)) →
    Relays args (AwaitCall key k)
| rl_next key c k :
    args !! key = Some (VNext c) →
    (∀ r, Concludes args r (k r)) →
    Relays args (AwaitCall key k).

(** *** Handlers of the test-suite and of the spec's scenarios *)

Module Scenario.

Definition ctx : Foreign := Opaque "context".
Definition web : Foreign := Opaque "client".
Definition log : Foreign := Opaque "logger".

(** [async (args) => { callback(); await args.next(); }] *)
Definition advancing (t : Tag) : Middleware :=
  fun _ => Emit t (awaitNext Return).

(** [async (_args) => { callback(); }] *)
Definition halting (t : Tag) : Middleware :=
  fun _ => Emit t Return.

(** [async (args) => { before(); await args.next(); after(); }] *)
Definition wrapping (before after : Tag) : Middleware :=
  fun _ => Emit before (awaitNext (Emit after Return)).

(** [async (args) => { await args.next(); callback1(); await args.next(); callback2(); }] *)
Definition twice (t1 t2 : Tag) : Middleware :=
  fun _ => awaitNext (Emit t1 (awaitNext (Emit t2 Return))).

(** [async () => { throw e; }] *)
Definition failing (e : Error) : Middleware :=
  fun _ => Throw e.

(** [async (args) => { try { await args.next(); } catch (_) { } }] *)
Definition swallowing : Middleware :=
  fun _ => AwaitCall "next" (fun _ => Return).

(** [async (args) => { await args.next(); throw e; }] *)
Definition failingAfter (e : Error) : Middleware :=
  fun _ => awaitNext (Throw e).

Definition boom : Error := {| code := None; message := "boom" |}.

(** [last] as a spy. *)
Definition spy (t : Tag) : Body := Emit t Return.

End Scenario.


(** * The executor among handlers that share closures and drop promises

    The scripts above await every call and can call only what their own
    argument object holds.  Real handlers can do two more things: call
    [next] without awaiting the promise (the test-suite does), and put their
    [next] into the shared [context] object, where any other handler finds
    it.  Both need the activations of async functions to be explicit.

    An async function, when called, runs at once up to its first [await];
    there it hands a pending promise to its caller and later resumes, once
    the awaited promise has settled and nothing else is running.  The
    machine keeps one record per activation, the synchronous call stack, the
    counter and the call log.  When nothing runs, the next activation to
    resume is a choice of the schedule: the order of the engine's job queue
    is one of the schedules.  [invokeMiddleware] and [processMiddleware] are
    themselves async functions that return the promise of the function they
    call (lines 28, 45, 48 and 57): their own promise settles the way that
    promise does, and the machine does not tell the two apart; the throw of
    line 41 is a promise that is rejected when created. *)

Module Async.

Inductive Script :=
| Ret                                             (* the async body ends *)
| Raise (e : Error)                               (* [throw e] *)
| Do (t : Tag) (k : Script)                       (* [callback(); k] *)
| AwaitArg (key : string) (k : Outcome → Script)  (* [await args[key]()] *)
| DropArg (key : string) (k : Script)             (* [args[key](); k] *)
| Share (ckey akey : string) (k : Script)         (* [args.context[ckey] = args[akey]; k] *)
| AwaitShared (ckey : string) (k : Outcome → Script) (* [await args.context[ckey]()] *)
| DropShared (ckey : string) (k : Script)         (* [args.context[ckey](); k] *)
| AwaitEnv (x : nat) (k : Outcome → Script).
    (* [await p], where [p] is a promise that the environment settles: a
       timer, a request *)

(** What a property is, when it is called. *)
Inductive Callee :=
| ToClosure (i : Z)               (* [() => invokeMiddleware(i + 1)] *)
| ToForeign (t : Tag) (r : Outcome)
| NotCallable.

Inductive Promise :=
| OfActivation (a : nat)          (* the promise an async function returned *)
| OfEnvironment (x : nat)
| Already (r : Outcome).          (* a promise that was settled when created *)

Inductive Owner :=
| Handler (i : Z)                 (* [middleware[i]] *)
| Last.

Inductive Status :=
| Active                                         (* on the call stack *)
| Waiting (p : Promise) (k : Outcome → Script)   (* suspended at [await p] *)
| Settled (r : Outcome).

Record Activation := mkActivation {
  owner : Owner;
  status : Status
}.

(** What a caller does with the promise of the call it is making. *)
Inductive Pending :=
| ThenAwait (k : Outcome → Script)
| ThenDrop (k : Script).

Record Frame := mkFrame {
  caller : nat;
  callee : nat;
  pending : Pending
}.

Record Config := mkConfig {
  lastCalledMiddlewareIndex : Z;
  observed : list Event;
  shared : gmap string Callee;       (* closures and functions put in [context] *)
  activations : list Activation;
  environment : gmap nat Outcome;    (* the environment's promises settled so far *)
  current : option (nat * Script);   (* the activation that is running *)
  callers : list Frame               (* the calls it is nested in, innermost first *)
}.

Inductive Choice :=
| Go
| Resume (a : nat)
| Settle (x : nat) (r : Outcome).

Definition setLastCalled (i : Z) (c : Config) : Config :=
  mkConfig i (observed c) (shared c) (activations c) (environment c)
           (current c) (callers c).

Definition record (e : Event) (c : Config) : Config :=
  mkConfig (lastCalledMiddlewareIndex c) (observed c ++ [e]) (shared c)
           (activations c) (environment c) (current c) (callers c).

Definition setShared (m : gmap string Callee) (c : Config) : Config :=
  mkConfig (lastCalledMiddlewareIndex c) (observed c) m (activations c)
           (environment c) (current c) (callers c).

Definition setActivations (l : list Activation) (c : Config) : Config :=
  mkConfig (lastCalledMiddlewareIndex c) (observed c) (shared c) l
           (environment c) (current c) (callers c).

Definition setEnvironment (m : gmap nat Outcome) (c : Config) : Config :=
  mkConfig (lastCalledMiddlewareIndex c) (observed c) (shared c) (activations c)
           m (current c) (callers c).

Definition setCurrent (cur : option (nat * Script)) (c : Config) : Config :=
  mkConfig (lastCalledMiddlewareIndex c) (observed c) (shared c) (activations c)
           (environment c) cur (callers c).

Definition setCallers (l : list Frame) (c : Config) : Config :=
  mkConfig (lastCalledMiddlewareIndex c) (observed c) (shared c) (activations c)
           (environment c) (current c) l.

Definition setStatus (a : nat) (s : Status) (c : Config) : Config :=
  setActivations
    (alter (λ act, mkActivation (owner act) s) a (activations c)) c.

(** How a promise has settled, if it has. *)
Definition settled (p : Promise) (c : Config) : option Outcome :=
  match p with
  | Already r => Some r
  | OfEnvironment x => environment c !! x
  | OfActivation a =>
      match activations c !! a with
      | Some (mkActivation _ (Settled r)) => Some r
      | _ => None
      end
  end.

(** The running activation [a] reaches the end of its body, or throws. *)
Definition finish (a : nat) (r : Outcome) (c : Config) : Config :=
  setCurrent None (setStatus a (Settled r) c).

(** The running activation [a] awaits [p]. *)
Definition suspend (a : nat) (p : Promise) (k : Outcome → Script) (c : Config) : Config :=
  setCurrent None (setStatus a (Waiting p k) c).

(** Activation [a] has the promise [p] of the call it made. *)
Definition hand (a : nat) (p : Promise) (pend : Pending) (c : Config) : Config :=
  match pend with
  | ThenAwait k => suspend a p k c
  | ThenDrop k => setCurrent (Some (a, k)) c
  end.

(** A call of an async function: a new activation starts running. *)
Definition spawn (o : Owner) (body : Script) (c : Config) : Promise * Config :=
  (OfActivation (length (activations c)),
   setCurrent (Some (length (activations c), body))
     (setActivations (activations c ++ [mkActivation o Active]) c)).

Section Executor.

Variable middleware : list Script.
Variable initialArgs : Args.
Variables context client logger : Foreign.
Variable last : Script.

(** [args[key]] for the activation of a handler: the object is that of
    lines 48-54, whose [next], unless [initialArgs] replaces it, is the
    closure bound to the index of the handler.  [last] is called without
    arguments. *)
Definition argument (o : Owner) (key : string) : Callee :=
  match o with
  | Last => NotCallable
  | Handler i =>
      match mkArgs initialArgs context client logger (λ st, (Fulfilled, st)) !! key with
      | Some (VNext _) => ToClosure i
      | Some (VForeign (Fn t r)) => ToForeign t r
      | _ => NotCallable
      end
  end.

Definition ownerOf (a : nat) (c : Config) : Owner :=
  match activations c !! a with
  | Some act => owner act
  | None => Last
  end.

(** Lines 39-55.  The result is the promise returned and the configuration
    in which, if a handler or [last] was called, its activation is
    running. *)
Definition invokeMiddleware (toCallMiddlewareIndex : Z) (c : Config) : Promise * Config :=
  if lastCalledMiddlewareIndex c >=? toCallMiddlewareIndex then
    (Already (Rejected (MiddlewareNextError "next() called multiple times")), c)
  else
    let c1 := setLastCalled toCallMiddlewareIndex c in
    if toCallMiddlewareIndex >=? Z.of_nat (length middleware) then
      spawn Last last (record CalledLast c1)
    else
      match middleware !! Z.to_nat toCallMiddlewareIndex with
      | Some fn =>
          spawn (Handler toCallMiddlewareIndex) fn
                (record (Called toCallMiddlewareIndex) c1)
      | None => (Already (Rejected notCallable), c1)
      end.

(** The running activation [a] calls [f]. *)
Definition call (a : nat) (f : Callee) (pend : Pending) (c : Config) : Config :=
  match f with
  | NotCallable =>
      (* a TypeError, thrown where the call stands *)
      match pend with
      | ThenAwait k => setCurrent (Some (a, k (Rejected notCallable))) c
      | ThenDrop _ => finish a (Rejected notCallable) c
      end
  | ToForeign t r => hand a (Already r) pend (record (Effect t) c)
  | ToClosure i =>
      let '(p, c') := invokeMiddleware (i + 1) (record (Next i) c) in
      match p with
      | OfActivation b =>
          setCallers (mkFrame a b pend :: callers c') c'
      | _ => hand a p pend c'
      end
  end.

(** One instruction of the running activation. *)
Definition execute (a : nat) (s : Script) (c : Config) : Config :=
  match s with
  | Ret => finish a Fulfilled c
  | Raise e => finish a (Rejected e) c
  | Do t k => setCurrent (Some (a, k)) (record (Effect t) c)
  | AwaitArg key k => call a (argument (ownerOf a c) key) (ThenAwait k) c
  | DropArg key k => call a (argument (ownerOf a c) key) (ThenDrop k) c
  | Share ckey akey k =>
      setCurrent (Some (a, k))
        (setShared (<[ckey := argument (ownerOf a c) akey]> (shared c)) c)
  | AwaitShared ckey k =>
      call a (default NotCallable (shared c !! ckey)) (ThenAwait k) c
  | DropShared ckey k =>
      call a (default NotCallable (shared c !! ckey)) (ThenDrop k) c
  | AwaitEnv x k => suspend a (OfEnvironment x) k c
  end.

(** One step.  While an activation runs, or a call is returning, the step
    is determined; when nothing runs, the schedule picks an activation whose
    awaited promise has settled, or has the environment settle a promise. *)
Definition step (ch : Choice) (c : Config) : Config :=
  match current c with
  | Some (a, s) => execute a s c
  | None =>
      match callers c with
      | f :: rest =>
          hand (caller f) (OfActivation (callee f)) (pending f) (setCallers rest c)
      | [] =>
          match ch with
          | Go => c
          | Resume a =>
              match activations c !! a with
              | Some (mkActivation _ (Waiting p k)) =>
                  match settled p c with
                  | Some r => setCurrent (Some (a, k r)) (setStatus a Active c)
                  | None => c
                  end
              | _ => c
              end
          | Settle x r =>
              match environment c !! x with
              | Some _ => c
              | None => setEnvironment (<[x := r]> (environment c)) c
              end
          end
      end
  end.

Definition emptyConfig (counter : Z) : Config :=
  mkConfig counter [] ∅ [] ∅ None [].

(** [processMiddleware], lines 27-30 and 57, up to the first moment nothing
    runs any more is [start] followed by steps. *)
Definition start : Config :=
  if Z.of_nat (length middleware) <=? 0 then
    (spawn Last last (record CalledLast (emptyConfig 0))).2
  else
    (invokeMiddleware 0 (emptyConfig (-1))).2.

Definition exec (schedule : list Choice) : Config :=
  foldl (λ c ch, step ch c) start schedule.

End Executor.

(** The promise [processMiddleware] returns is that of activation 0. *)
Definition completion (c : Config) : option Outcome :=
  settled (OfActivation 0) c.

(** *** Vocabulary *)

(** The index at which an activation was called. *)
Definition indexOf (n : Z) (o : Owner) : Z :=
  match o with
  | Handler i => i
  | Last => n
  end.

(** A script that awaits every call it makes. *)
Inductive DropFree : Script → Prop :=
| df_ret : DropFree Ret
| df_raise e : DropFree (Raise e)
| df_do t k : DropFree k → DropFree (Do t k)
| df_awaitArg key k : (∀ r, DropFree (k r)) → DropFree (AwaitArg key k)
| df_share ckey akey k : DropFree k → DropFree (Share ckey akey k)
| df_awaitShared ckey k : (∀ r, DropFree (k r)) → DropFree (AwaitShared ckey k)
| df_awaitEnv x k : (∀ r, DropFree (k r)) → DropFree (AwaitEnv x k).

(** [await args.next(); k] *)
Definition awaitNext (k : Script) : Script :=
  AwaitArg "next" (λ r, match r with Fulfilled => k | Rejected e => Raise e end).

(** The outcome of the call of something that is not a closure of the
    executor. *)
Definition calleeOutcome (f : Callee) : Outcome :=
  match f with
  | ToForeign _ r => r
  | _ => Rejected notCallable
  end.

(** Handlers that pass on the settlement of [next].  [Relays resolve None s]:
    the script [s] awaits its [next] once and settles the way that call
    settled, as [return await args.next()] does; before and after the call
    it may perform effects, put properties into [context], call what the
    caller supplied and await promises of the environment.
    [Relays resolve (Some r) s]: the call has settled with [r], and [s]
    settles with [r] without calling a closure of the executor.  [resolve]
    says what the properties of the argument object are. *)
Inductive Relays (resolve : string → Callee) : option Outcome → Script → Prop :=
| ar_do m t k : Relays resolve m k → Relays resolve m (Do t k)
| ar_share m ckey akey k :
    Relays resolve m k → Relays resolve m (Share ckey akey k)
| ar_arg m key k :
    (∀ i, resolve key ≠ ToClosure i) →
    Relays resolve m (k (calleeOutcome (resolve key))) →
    Relays resolve m (AwaitArg key k)
| ar_env m x k : (∀ r, Relays resolve m (k r)) → Relays resolve m (AwaitEnv x k)
| ar_next key i k :
    resolve key = ToClosure i →
    (∀ r, Relays resolve (Some r) (k r)) →
    Relays resolve None (AwaitArg key k)
| ar_ret : Relays resolve (Some Fulfilled) Ret
| ar_raise e : Relays resolve (Some (Rejected e)) (Raise e).

End Async.

(** The counter and the log of a configuration, as a state of the executor. *)
Definition view (c : Async.Config) : State :=
  {| lastCalledMiddlewareIndex := Async.lastCalledMiddlewareIndex c;
     observed := Async.observed c |}.

Definition owners (c : Async.Config) : list Async.Owner :=
  Async.owner <$> Async.activations c.

(** What every configuration of an execution satisfies, whatever the scripts
    and the schedule: the calls logged are the first ones of the expected
    order, up to the counter; every activation was called at an index the
    counter has reached, later activations at higher indices; and a closure
    found in [context] belongs to a handler that was called. *)
Definition Sound (n : Z) (c : Async.Config) : Prop :=
  Good n (view c)
  ∧ (∀ a o, owners c !! a = Some o →
       match o with
       | Async.Handler i =>
           0 ≤ i ≤ Async.lastCalledMiddlewareIndex c ∧ i < n
       | Async.Last => Async.lastCalledMiddlewareIndex c = n
       end)
  ∧ (∀ ckey i, Async.shared c !! ckey = Some (Async.ToClosure i) →
       0 ≤ i ≤ Async.lastCalledMiddlewareIndex c ∧ i < n)
  ∧ (∀ a b oa ob, (a < b)%nat → owners c !! a = Some oa → owners c !! b = Some ob →
       Async.indexOf n oa < Async.indexOf n ob).

(** *** Executions in which every call is awaited *)

Definition statuses (c : Async.Config) : list Async.Status :=
  Async.status <$> Async.activations c.

(** The async function has been called and its promise is not settled. *)
Definition unsettled (c : Async.Config) (a : nat) : Prop :=
  ∃ s, statuses c !! a = Some s ∧ ∀ r, s ≠ Async.Settled r.

(** Activation [a] cannot go on before the promise of activation [b] is
    settled: it awaits it, or it is in the middle of the call. *)
Definition waitsOn (c : Async.Config) (a b : nat) : Prop :=
  (∃ k, statuses c !! a = Some (Async.Waiting (Async.OfActivation b) k))
  ∨ (∃ f, f ∈ Async.callers c ∧ Async.caller f = a ∧ Async.callee f = b).

(** The call stack: each frame is a call made by the caller of the frame
    above it (or an older one), and the callers are on the stack. *)
Fixpoint Stacked (c : Async.Config) (bound : nat) (fs : list Async.Frame) : Prop :=
  match fs with
  | [] => True
  | f :: rest =>
      (Async.caller f < Async.callee f)%nat
      ∧ (Async.callee f ≤ bound)%nat
      ∧ statuses c !! Async.caller f = Some Async.Active
      ∧ Stacked c (Async.caller f) rest
  end.

(** Every script still to be run awaits its calls. *)
Definition DropFreeConfig (c : Async.Config) : Prop :=
  (∀ a s, Async.current c = Some (a, s) → Async.DropFree s)
  ∧ (∀ a p k, statuses c !! a = Some (Async.Waiting p k) → ∀ r, Async.DropFree (k r))
  ∧ (∀ f, f ∈ Async.callers c →
       ∃ k, Async.pending f = Async.ThenAwait k ∧ ∀ r, Async.DropFree (k r)).

(** The unsettled activations form one chain: each of them, except the
    youngest, waits on the next younger one. *)
Definition Nested (c : Async.Config) : Prop :=
  (∀ a s, Async.current c = Some (a, s) → statuses c !! a = Some Async.Active)
  ∧ Stacked c (match Async.current c with
               | Some (a, _) => a
               | None => length (statuses c)
               end) (Async.callers c)
  ∧ (∀ a b, (a < b)%nat → unsettled c a → unsettled c b →
       ∃ b', (a < b' ≤ b)%nat ∧ unsettled c b' ∧ waitsOn c a b').

(** The moves of the machine when every call is awaited, by what they do to
    the activations, the call stack and the running activation. *)
Inductive Moves (c c' : Async.Config) : Prop :=
| mv_same :
    statuses c' = statuses c → Async.callers c' = Async.callers c →
    Async.current c' = Async.current c → Moves c c'
| mv_keep a s s' :
    Async.current c = Some (a, s) → Async.DropFree s' →
    statuses c' = statuses c → Async.callers c' = Async.callers c →
    Async.current c' = Some (a, s') → Moves c c'
| mv_leave a s st :
    Async.current c = Some (a, s) →
    (∀ b k, st ≠ Async.Waiting (Async.OfActivation b) k) →
    st ≠ Async.Active →
    (∀ p k, st = Async.Waiting p k → ∀ r, Async.DropFree (k r)) →
    statuses c' = alter (λ _, st) a (statuses c) →
    Async.callers c' = Async.callers c →
    Async.current c' = None → Moves c c'
| mv_enter a s k body :
    Async.current c = Some (a, s) →
    (∀ r, Async.DropFree (k r)) → Async.DropFree body →
    statuses c' = statuses c ++ [Async.Active] →
    Async.callers c' =
      Async.mkFrame a (length (statuses c)) (Async.ThenAwait k) :: Async.callers c →
    Async.current c' = Some (length (statuses c), body) → Moves c c'
| mv_pop f rest k :
    Async.current c = None → Async.callers c = f :: rest →
    Async.pending f = Async.ThenAwait k →
    statuses c' =
      alter (λ _, Async.Waiting (Async.OfActivation (Async.callee f)) k)
            (Async.caller f) (statuses c) →
    Async.callers c' = rest →
    Async.current c' = None → Moves c c'
| mv_resume a p k r :
    Async.current c = None → Async.callers c = [] →
    statuses c !! a = Some (Async.Waiting p k) →
    (∀ b, p = Async.OfActivation b → ¬ unsettled c b) →
    statuses c' = alter (λ _, Async.Active) a (statuses c) →
    Async.callers c' = [] →
    Async.current c' = Some (a, k r) → Moves c c'.

(** *** Executions in which the first handlers pass on the settlement of [next] *)

(** The activations on the call stack: the running one and the callers of
    the calls it is nested in. *)
Definition running (c : Async.Config) : list nat :=
  match Async.current c with
  | Some (a, _) => a :: (Async.caller <$> Async.callers c)
  | None => Async.caller <$> Async.callers c
  end.

(** The activations on the call stack are distinct and active. *)
Definition Live (c : Async.Config) : Prop :=
  NoDup (running c) ∧ ∀ a, a ∈ running c → statuses c !! a = Some Async.Active.

(** What activation [a] runs, or will run once it resumes, satisfies [P]. *)
Definition InHand (c : Async.Config) (a : nat) (P : Async.Script → Prop) : Prop :=
  (∃ s, Async.current c = Some (a, s) ∧ P s)
  ∨ (∃ r k, statuses c !! a = Some (Async.Waiting (Async.Already r) k) ∧ P (k r))
  ∨ (∃ x k, statuses c !! a = Some (Async.Waiting (Async.OfEnvironment x) k)
            ∧ ∀ r, P (k r)).

(** Activation [a] has called activation [b] and awaits it; what it does
    with the outcome [r] satisfies [P r]. *)
Definition Calling (c : Async.Config) (a b : nat)
    (P : Outcome → Async.Script → Prop) : Prop :=
  ∃ k, (∀ r, P r (k r))
       ∧ (Async.mkFrame a b (Async.ThenAwait k) ∈ Async.callers c
          ∨ statuses c !! a = Some (Async.Waiting (Async.OfActivation b) k)).

(** The function called by the step of index [i] of a chain of length [n]. *)
Definition ownerAt (n i : Z) : Async.Owner :=
  if i <? n then Async.Handler i else Async.Last.

(** What is settled while handler [j] holds a script marked [m]: before
    its call of [next] the handler is the last function called; after it,
    the function called by the step of index [j + 1] has settled. *)
Definition Stage (n : Z) (c : Async.Config) (j : nat) (m : option Outcome) : Prop :=
  match m with
  | None =>
      length (statuses c) = S j
      ∧ Async.lastCalledMiddlewareIndex c = Z.of_nat j
  | Some r =>
      owners c !! S j = Some (ownerAt n (Z.of_nat (S j)))
      ∧ statuses c !! S j = Some (Async.Settled r)
  end.

(** Where a handler that passes on the settlement of [next] stands: it
    holds a script that relays; or it awaits its call of [next]; or that
    call has settled with [r] and so has the handler. *)
Definition Phase (resolve : string → Async.Callee) (n : Z) (c : Async.Config)
    (j : nat) : Prop :=
  owners c !! j = Some (Async.Handler (Z.of_nat j))
  ∧ ((∃ m, InHand c j (Async.Relays resolve m) ∧ Stage n c j m)
     ∨ (owners c !! S j = Some (ownerAt n (Z.of_nat (S j)))
        ∧ Calling c j (S j) (λ r, Async.Relays resolve (Some r)))
     ∨ (∃ r, Stage n c j (Some r) ∧ statuses c !! j = Some (Async.Settled r))).

(** The handlers before index [i] are where relaying handlers stand. *)
Definition Relayed (resolve : nat → string → Async.Callee) (n : Z) (i : nat)
    (c : Async.Config) : Prop :=
  owners c !! 0%nat = Some (ownerAt n 0)
  ∧ ∀ j, (j < i)%nat → (j < length (statuses c))%nat → Phase (resolve j) n c j.

(** The moves of the machine, by what they do to the activations, the call
    stack, the running activation and the counter. *)
Inductive Acts (c c' : Async.Config) : Prop :=
| act_same :
    Async.current c = None →
    statuses c' = statuses c → owners c' = owners c →
    Async.callers c' = Async.callers c →
    Async.current c' = Async.current c →
    Async.lastCalledMiddlewareIndex c' = Async.lastCalledMiddlewareIndex c →
    Acts c c'
| act_keep a s s' :
    Async.current c = Some (a, s) →
    statuses c' = statuses c → owners c' = owners c →
    Async.callers c' = Async.callers c →
    Async.current c' = Some (a, s') →
    Async.lastCalledMiddlewareIndex c' = Async.lastCalledMiddlewareIndex c →
    Acts c c'
| act_leave a s st :
    Async.current c = Some (a, s) →
    statuses c' = alter (λ _, st) a (statuses c) → owners c' = owners c →
    Async.callers c' = Async.callers c →
    Async.current c' = None →
    Async.lastCalledMiddlewareIndex c' = Async.lastCalledMiddlewareIndex c →
    Acts c c'
| act_enter a s pend o body :
    Async.current c = Some (a, s) →
    statuses c' = statuses c ++ [Async.Active] → owners c' = owners c ++ [o] →
    Async.callers c' =
      Async.mkFrame a (length (statuses c)) pend :: Async.callers c →
    Async.current c' = Some (length (statuses c), body) →
    Acts c c'
| act_pop_await f rest k :
    Async.current c = None → Async.callers c = f :: rest →
    Async.pending f = Async.ThenAwait k →
    statuses c' =
      alter (λ _, Async.Waiting (Async.OfActivation (Async.callee f)) k)
            (Async.caller f) (statuses c) →
    owners c' = owners c →
    Async.callers c' = rest →
    Async.current c' = None →
    Async.lastCalledMiddlewareIndex c' = Async.lastCalledMiddlewareIndex c →
    Acts c c'
| act_pop_drop f rest k :
    Async.current c = None → Async.callers c = f :: rest →
    Async.pending f = Async.ThenDrop k →
    statuses c' = statuses c → owners c' = owners c →
    Async.callers c' = rest →
    Async.current c' = Some (Async.caller f, k) →
    Async.lastCalledMiddlewareIndex c' = Async.lastCalledMiddlewareIndex c →
    Acts c c'
| act_resume a p k r :
    Async.current c = None → Async.callers c = [] →
    statuses c !! a = Some (Async.Waiting p k) →
    Async.settled p c = Some r →
    statuses c' = alter (λ _, Async.Active) a (statuses c) →
    owners c' = owners c →
    Async.callers c' = [] →
    Async.current c' = Some (a, k r) →
    Async.lastCalledMiddlewareIndex c' = Async.lastCalledMiddlewareIndex c →
    Acts c c'.

(** *** Handlers that drop a promise or share a closure *)

Module AsyncScenario.

(** [async (args) => { before(); await args.next(); after(); }] *)
Definition wrapping (before after : Tag) : Async.Script :=
  Async.Do before (Async.awaitNext (Async.Do after Async.Ret)).

(** [async (args) => { callback(); await args.next(); }] *)
Definition advancing (t : Tag) : Async.Script :=
  Async.Do t (Async.awaitNext Async.Ret).

(** [async (args) => { callback(); args.next(); }]: the promise of [next]
    is dropped, as by [fn2] of the test that the next middleware is called
    as soon as [next] is (test-suite, line 141). *)
Definition dropping (t : Tag) : Async.Script :=
  Async.Do t (Async.DropArg "next" Async.Ret).

(** [async () => { started(); await timer; done(); }] *)
Definition slow (started done : Tag) : Async.Script :=
  Async.Do started (Async.AwaitEnv 0 (λ _, Async.Do done Async.Ret)).

(** [async (args) => { args.context.saved = args.next; await args.next(); }] *)
Definition sharing : Async.Script :=
  Async.Share "saved" "next" (Async.awaitNext Async.Ret).

(** [async (args) => { try { await args.context.saved(); passed(); }
                       catch (e) { rejected(); throw e; } }] *)
Definition reentering (passed rejected : Tag) : Async.Script :=
  Async.AwaitShared "saved"
    (λ r, match r with
          | Fulfilled => Async.Do passed Async.Ret
          | Rejected e => Async.Do rejected (Async.Raise e)
          end).

(** [async (args) => { args.context.saved = args.next; }]: the handler
    returns without calling [next], which it leaves in [context]. *)
Definition handing : Async.Script :=
  Async.Share "saved" "next" Async.Ret.

(** [async (args) => { await args.next(); await args.context.saved(); }] *)
Definition borrowing : Async.Script :=
  Async.awaitNext
    (Async.AwaitShared "saved"
       (λ r, match r with
             | Fulfilled => Async.Ret
             | Rejected e => Async.Raise e
             end)).

(** [async () => { throw e; }] *)
Definition failing (e : Error) : Async.Script := Async.Raise e.

(** A handler that calls nothing, and [last] as a spy:
    [async () => { callback(); }] *)
Definition spy (t : Tag) : Async.Script := Async.Do t Async.Ret.

(** The chain of the nested unwind, [[A, B]] with [A] wrapping its await
    of [next] and [B] advancing at once; a schedule that runs it to its
    end; and the configurations that schedule goes through. *)
Definition nested : list Async.Script :=
  [wrapping "A(before)" "A(after)"; advancing "B"].

Definition nestedSchedule : list Async.Choice :=
  replicate 8 Async.Go
    ++ [Async.Resume 1; Async.Go; Async.Resume 0; Async.Go; Async.Go].

Definition nestedAt (k : nat) : Async.Config :=
  Async.exec nested ∅ Scenario.ctx Scenario.web Scenario.log (spy "last")
             (take k nestedSchedule).

Definition nestedOrder : list Event :=
  [Called 0; Effect "A(before)"; Next 0; Called 1; Effect "B"; Next 1;
   CalledLast; Effect "last"; Effect "A(after)"].

End AsyncScenario.
(** ** Basic facts about states and argument objects *)

Lemma lastCalled_record e st :
  lastCalledMiddlewareIndex (record e st) = lastCalledMiddlewareIndex st.
Proof. reflexivity. Qed.

Lemma observed_record e st : observed (record e st) = observed st ++ [e].
Proof. reflexivity. Qed.

Lemma lastCalled_setLastCalled i st :
  lastCalledMiddlewareIndex (setLastCalled i st) = i.
Proof. reflexivity. Qed.

Lemma observed_setLastCalled i st : observed (setLastCalled i st) = observed st.
Proof. reflexivity. Qed.

Section ArgumentObject.

Variable initialArgs : Args.
Variables context client logger : Foreign.

Lemma mkArgs_logger c :
  mkArgs initialArgs context client logger c !! "logger" = Some (VForeign logger).
Proof. unfold mkArgs. by rewrite lookup_insert_eq. Qed.

Lemma mkArgs_client c :
  mkArgs initialArgs context client logger c !! "client" = Some (VForeign client).
Proof.
  unfold mkArgs. rewrite lookup_insert_ne by done. by rewrite lookup_insert_eq.
Qed.

Lemma mkArgs_context c :
  mkArgs initialArgs context client logger c !! "context" = Some (VForeign context).
Proof.
  unfold mkArgs. do 2 (rewrite lookup_insert_ne by done). by rewrite lookup_insert_eq.
Qed.

(** Any other property comes from [initialArgs] when it has one of that
    name, and is [next] otherwise. *)
Lemma mkArgs_other c key :
  key ≠ "logger" → key ≠ "client" → key ≠ "context" →
  mkArgs initialArgs context client logger c !! key =
    match initialArgs !! key with
    | Some v => Some (VForeign v)
    | None => if decide (key = "next") then Some (VNext c) else None
    end.
Proof.
  intros Hl Hc Hx. unfold mkArgs.
  do 3 (rewrite lookup_insert_ne by done).
  rewrite lookup_union, lookup_fmap.
  destruct (initialArgs !! key) as [v|] eqn:Hv; simpl.
  - by destruct ({[ "next" := VNext c ]} !! key).
  - case_decide as Hk.
    + subst key. by rewrite lookup_singleton_eq.
    + by rewrite lookup_singleton_ne.
Qed.

Lemma mkArgs_next c :
  initialArgs !! "next" = None →
  mkArgs initialArgs context client logger c !! "next" = Some (VNext c).
Proof. intros H. rewrite mkArgs_other by done. by rewrite H. Qed.

Lemma mkArgs_next_replaced c v :
  initialArgs !! "next" = Some v →
  mkArgs initialArgs context client logger c !! "next" = Some (VForeign v).
Proof. intros H. rewrite mkArgs_other by done. by rewrite H. Qed.

(** The only closure in the object is the one the executor put under
    [next], and it is there only if [initialArgs] has no [next]. *)
Lemma mkArgs_closure c key c' :
  mkArgs initialArgs context client logger c !! key = Some (VNext c') →
  key = "next" ∧ c' = c ∧ initialArgs !! "next" = None.
Proof.
  intros H.
  destruct (decide (key = "logger")) as [->|Hl];
    [by rewrite mkArgs_logger in H|].
  destruct (decide (key = "client")) as [->|Hc];
    [by rewrite mkArgs_client in H|].
  destruct (decide (key = "context")) as [->|Hx];
    [by rewrite mkArgs_context in H|].
  rewrite mkArgs_other in H by done.
  destruct (initialArgs !! key) as [v|] eqn:Hv; [done|].
  case_decide as Hk; [|done]. subst key. by inversion H.
Qed.

End ArgumentObject.

(** ** Scripts preserve what their callees preserve *)

Lemma run_inv (P : State → Prop) (args : Bundle) :
  (∀ t st, P st → P (record (Effect t) st)) →
  (∀ key c, args !! key = Some (VNext c) → ∀ st, P st → P (c st).2) →
  ∀ body st, P st → P (run args body st).2.
Proof.
  intros Heff Hcl body.
  induction body as [|e|t k IH|key k IH]; intros st HP; simpl; auto.
  destruct (args !! key) as [[[name|t r]|c]|] eqn:Hkey; auto.
  specialize (Hcl key c Hkey st HP).
  destruct (c st) as [r st']. auto.
Qed.

Lemma steps_app l1 l2 : steps (l1 ++ l2) = steps l1 ++ steps l2.
Proof. apply List.filter_app. Qed.

Lemma steps_record_other e st :
  isStep e = false → steps (observed (record e st)) = steps (observed st).
Proof.
  intros H. rewrite observed_record, steps_app. simpl. rewrite H.
  by rewrite app_nil_r.
Qed.

Lemma steps_record_step e st :
  isStep e = true → steps (observed (record e st)) = steps (observed st) ++ [e].
Proof. intros H. rewrite observed_record, steps_app. simpl. by rewrite H. Qed.

Lemma run_no_closure (args : Bundle) body st :
  (∀ key c, args !! key ≠ Some (VNext c)) →
  ∃ l, (run args body st).2 =
         {| lastCalledMiddlewareIndex := lastCalledMiddlewareIndex st;
            observed := observed st ++ l |}
       ∧ forallb isEffect l = true.
Proof.
  intros Hno.
  apply (run_inv (λ s, ∃ l, s = {| lastCalledMiddlewareIndex := lastCalledMiddlewareIndex st;
                                   observed := observed st ++ l |}
                            ∧ forallb isEffect l = true)).
  - intros t s (l & -> & Hl). exists (l ++ [Effect t]). split.
    + unfold record. simpl. by rewrite app_assoc.
    + rewrite forallb_app, Hl. reflexivity.
  - intros key c Hk. by destruct (Hno key c).
  - exists []. split; [|done]. rewrite app_nil_r. by destruct st.
Qed.

(** ** The equations of [invokeMiddleware], by index *)

Section Equations.

Variable initialArgs : Args.
Variables context client logger : Foreign.
Variable last : Body.
Variable middleware : list Middleware.

Local Abbreviation invoke := (invokeMiddleware initialArgs context client logger last middleware).
Local Abbreviation bundle := (argsFor initialArgs context client logger last middleware).
Local Abbreviation advance := (nextFor initialArgs context client logger last middleware).

(** Lines 40-42. *)
Lemma invokeMiddleware_duplicate toCall st :
  toCall ≤ lastCalledMiddlewareIndex st →
  invoke toCall st =
    (Rejected (MiddlewareNextError "next() called multiple times"), st).
Proof.
  intros H. unfold invokeMiddleware.
  destruct (drop (Z.to_nat toCall) middleware); simpl;
    destruct (Z.geb_spec (lastCalledMiddlewareIndex st) toCall); (done || lia).
Qed.

(** Lines 43-46. *)
Lemma invokeMiddleware_last toCall st :
  lastCalledMiddlewareIndex st < toCall →
  Z.of_nat (length middleware) ≤ toCall →
  invoke toCall st = callLast last (setLastCalled toCall st).
Proof.
  intros Hlt Hge. unfold invokeMiddleware.
  rewrite drop_ge by lia. simpl.
  destruct (Z.geb_spec (lastCalledMiddlewareIndex st) toCall); (done || lia).
Qed.

(** Lines 43-54. *)
Lemma invokeMiddleware_handler toCall fn st :
  lastCalledMiddlewareIndex st < toCall →
  0 ≤ toCall →
  middleware !! Z.to_nat toCall = Some fn →
  invoke toCall st =
    run (bundle toCall) (fn (bundle toCall))
        (record (Called toCall) (setLastCalled toCall st)).
Proof.
  intros Hlt Hpos Hfn. unfold argsFor, nextFor, invokeMiddleware.
  rewrite (drop_S _ _ _ Hfn). simpl.
  destruct (Z.geb_spec (lastCalledMiddlewareIndex st) toCall); [lia|].
  replace (Z.to_nat (toCall + 1)) with (S (Z.to_nat toCall)) by lia.
  reflexivity.
Qed.

(** The three cases together, in the shape of lines 39-55. *)
Lemma invokeMiddleware_unfold toCall st :
  0 ≤ toCall →
  invoke toCall st =
    if lastCalledMiddlewareIndex st >=? toCall then
      (Rejected (MiddlewareNextError "next() called multiple times"), st)
    else
      let st1 := setLastCalled toCall st in
      if toCall >=? Z.of_nat (length middleware) then callLast last st1
      else
        match middleware !! Z.to_nat toCall with
        | Some fn =>
            run (bundle toCall) (fn (bundle toCall)) (record (Called toCall) st1)
        | None => callLast last st1
        end.
Proof.
  intros Hpos.
  destruct (Z.geb_spec (lastCalledMiddlewareIndex st) toCall) as [Hdup|Hok].
  - by apply invokeMiddleware_duplicate.
  - cbv zeta.
    destruct (Z.geb_spec toCall (Z.of_nat (length middleware))) as [Hge|Hlt].
    + by apply invokeMiddleware_last.
    + destruct (middleware !! Z.to_nat toCall) as [fn|] eqn:Hfn.
      * by apply invokeMiddleware_handler.
      * apply lookup_ge_None in Hfn. lia.
Qed.

End Equations.

(** ** The order in which the executor may call: handler 0, 1, ..., then [last] *)

Lemma length_expectedCalls n : 0 ≤ n → length (expectedCalls n) = S (Z.to_nat n).
Proof.
  intros Hn. unfold expectedCalls.
  rewrite length_app, length_fmap, length_seqZ. simpl. lia.
Qed.

Lemma expectedCalls_handler n i :
  0 ≤ i < n → expectedCalls n !! Z.to_nat i = Some (Called i).
Proof.
  intros Hi. unfold expectedCalls.
  rewrite lookup_app_l by (rewrite length_fmap, length_seqZ; lia).
  rewrite list_lookup_fmap, lookup_seqZ_lt by lia. simpl. f_equal. f_equal. lia.
Qed.

Lemma expectedCalls_last n :
  0 ≤ n → expectedCalls n !! Z.to_nat n = Some CalledLast.
Proof.
  intros Hn. unfold expectedCalls.
  rewrite lookup_app_r by (rewrite length_fmap, length_seqZ; lia).
  rewrite length_fmap, length_seqZ. by replace (Z.to_nat n - Z.to_nat n)%nat with 0%nat by lia.
Qed.

Lemma expectedCalls_lookup n k e :
  0 ≤ n → expectedCalls n !! k = Some e →
  (e = Called (Z.of_nat k) ∧ Z.of_nat k < n) ∨ (e = CalledLast ∧ Z.of_nat k = n).
Proof.
  intros Hn H.
  assert (k < S (Z.to_nat n))%nat as Hk.
  { rewrite <- length_expectedCalls by done. by eapply lookup_lt_Some. }
  destruct (decide (Z.of_nat k < n)) as [Hlt|Hge].
  - left. rewrite <- (Nat2Z.id k) in H.
    rewrite expectedCalls_handler in H by lia. split; [congruence|done].
  - right. assert (Z.of_nat k = n) as Hkn by lia. split; [|done].
    replace k with (Z.to_nat n) in H by lia.
    rewrite expectedCalls_last in H by done. congruence.
Qed.

Lemma NoDup_expectedCalls n : NoDup (expectedCalls n).
Proof.
  unfold expectedCalls. apply NoDup_app. split; [|split].
  - apply NoDup_fmap_2; [|apply NoDup_seqZ]. intros x y H. by inversion H.
  - intros e He Hin. apply list_elem_of_fmap in He as (x & -> & _).
    by apply list_elem_of_singleton in Hin.
  - apply NoDup_singleton.
Qed.

Lemma Reached_record_other n e st :
  isStep e = false → Reached n st → Reached n (record e st).
Proof.
  intros He [Hb Hs]. split; [done|].
  rewrite steps_record_other by done. by rewrite lastCalled_record.
Qed.

Lemma Reached_step n i st :
  0 ≤ i ≤ n → lastCalledMiddlewareIndex st = i - 1 → Reached n st →
  Reached n (record (stepEvent n i) (setLastCalled i st)).
Proof.
  intros Hi Hlast [Hb Hs]. split.
  - rewrite lastCalled_record, lastCalled_setLastCalled. lia.
  - assert (isStep (stepEvent n i) = true) as Hstep.
    { unfold stepEvent. by destruct (i <? n). }
    rewrite steps_record_step by done.
    rewrite observed_setLastCalled, Hs, Hlast.
    rewrite lastCalled_record, lastCalled_setLastCalled.
    replace (Z.to_nat (i - 1 + 1)) with (Z.to_nat i) by lia.
    replace (Z.to_nat (i + 1)) with (S (Z.to_nat i)) by lia.
    symmetry. apply take_S_r. unfold stepEvent.
    destruct (Z.ltb_spec i n).
    + apply expectedCalls_handler. lia.
    + replace i with n by lia. apply expectedCalls_last. lia.
Qed.

(** A state that satisfies [Reached] has called handler [j] only if the
    counter got as far as [j], and [last] only if it got to the end. *)
Lemma Reached_called n st j :
  0 ≤ n → Reached n st → Called j ∈ observed st →
  0 ≤ j ≤ lastCalledMiddlewareIndex st ∧ j < n.
Proof.
  intros Hn [Hb Hs] Hin.
  assert (Called j ∈ steps (observed st)) as Hst.
  { unfold steps. apply list_elem_of_In, List.filter_In. split; [|done].
    by apply list_elem_of_In. }
  rewrite Hs in Hst. apply elem_of_take in Hst as (k & Hk & Hlt).
  apply expectedCalls_lookup in Hk as [[Heq Hkn]|[Heq _]]; [|done|lia].
  inversion Heq; subst. lia.
Qed.

Lemma Reached_calledLast n st :
  0 ≤ n → Reached n st → CalledLast ∈ observed st →
  lastCalledMiddlewareIndex st = n.
Proof.
  intros Hn [Hb Hs] Hin.
  assert (CalledLast ∈ steps (observed st)) as Hst.
  { unfold steps. apply list_elem_of_In, List.filter_In. split; [|done].
    by apply list_elem_of_In. }
  rewrite Hs in Hst. apply elem_of_take in Hst as (k & Hk & Hlt).
  apply expectedCalls_lookup in Hk as [[Heq Hkn]|[_ Heq]]; [done|lia|]. lia.
Qed.

Lemma Preceded_nil n : Preceded n [].
Proof. intros p e H. by rewrite lookup_nil in H. Qed.

Lemma Entered_snoc i log e :
  Entered i log →
  (length log = 0%nat ∧ i = 0) ∨
  (∃ q, length log = S q ∧ (log ++ [e]) !! q = Some (Next (i - 1))).
Proof.
  intros [[-> ->]|Hl]; [by left|right].
  destruct (decide (log = [])) as [->|Hne]; [done|].
  destruct (exists_last Hne) as (log' & x & ->).
  rewrite List.last_last in Hl. subst x. exists (length log').
  rewrite length_app. simpl. split; [lia|].
  rewrite lookup_app_l by (rewrite length_app; simpl; lia).
  rewrite lookup_app_r by lia. by rewrite Nat.sub_diag.
Qed.

Lemma Preceded_snoc n log e :
  Preceded n log →
  match e with
  | Called j => Entered j log
  | CalledLast => Entered n log
  | _ => True
  end →
  Preceded n (log ++ [e]).
Proof.
  intros Hlog He p e' Hp.
  pose proof (λ i, Entered_snoc i log e) as Hent.
  apply lookup_app_Some in Hp as [Hp|[Hge Hp]].
  - specialize (Hlog p e' Hp).
    destruct e' as [j| | |]; try done.
    + destruct Hlog as [?|(q & -> & Hq)]; [by left|right].
      exists q. split; [done|]. by apply lookup_app_l_Some.
    + destruct Hlog as [?|(q & -> & Hq)]; [by left|right].
      exists q. split; [done|]. by apply lookup_app_l_Some.
  - apply list_lookup_singleton_Some in Hp as [Hp <-].
    assert (p = length log) as -> by lia.
    destruct e as [j| | |]; try done.
    + destruct (Hent j He) as [[? ?]|(q & Hq & Hl)]; [left; split; [lia|done]|right].
      exists q. split; [lia|done].
    + destruct (Hent n He) as [[? ?]|(q & Hq & Hl)]; [left; split; [lia|done]|right].
      exists q. split; [lia|done].
Qed.

(** ** What every step of every execution preserves *)

Lemma Extends_refl st : Extends st st.
Proof. split; [lia|]. exists []. by rewrite app_nil_r. Qed.

Lemma Extends_trans st1 st2 st3 : Extends st1 st2 → Extends st2 st3 → Extends st1 st3.
Proof.
  intros [H1 (l1 & E1)] [H2 (l2 & E2)]. split; [lia|].
  exists (l1 ++ l2). by rewrite E2, E1, app_assoc.
Qed.

Lemma Extends_record e st : Extends st (record e st).
Proof. split; [rewrite lastCalled_record; lia|]. by exists [e]. Qed.

Lemma Extends_setLastCalled i st :
  lastCalledMiddlewareIndex st ≤ i → Extends st (setLastCalled i st).
Proof. intros H. split; [done|]. exists []. by rewrite app_nil_r. Qed.

Section Runs.

Variable initialArgs : Args.
Variables context client logger : Foreign.
Variable last : Body.
Variable middleware : list Middleware.

Local Abbreviation invoke := (invokeMiddleware initialArgs context client logger last middleware).
Local Abbreviation bundle := (argsFor initialArgs context client logger last middleware).
Local Abbreviation advance := (nextFor initialArgs context client logger last middleware).
Local Abbreviation n := (Z.of_nat (length middleware)).

(** The closure of handler [i] is the only one in its argument object. *)
Lemma bundle_closure i key c :
  bundle i !! key = Some (VNext c) →
  key = "next" ∧ c = advance i ∧ initialArgs !! "next" = None.
Proof. apply mkArgs_closure. Qed.

Lemma callLast_spec st :
  ∃ l, (callLast last st).2 =
         {| lastCalledMiddlewareIndex := lastCalledMiddlewareIndex st;
            observed := observed st ++ CalledLast :: l |}
       ∧ forallb isEffect l = true.
Proof.
  unfold callLast.
  destruct (run_no_closure ∅ last (record CalledLast st)) as (l & Hl & Heff).
  { intros key c. by rewrite lookup_empty. }
  exists l. split; [|done]. rewrite Hl. simpl. by rewrite <- app_assoc.
Qed.

Lemma steps_effects l : forallb isEffect l = true → steps l = [].
Proof.
  induction l as [|e l IH]; [done|]. simpl. intros H.
  apply andb_true_iff in H as [He Hl]. destruct e; try done. simpl. auto.
Qed.

(** Steps 40-46 and 48: a call either fails and changes nothing, or moves the
    counter to its argument before anything else runs. *)
Lemma invoke_extends_aux m : ∀ toCall st,
  0 ≤ toCall → Z.to_nat (n - toCall) = m →
  Extends st (invoke toCall st).2 ∧
  (lastCalledMiddlewareIndex st < toCall →
   toCall ≤ lastCalledMiddlewareIndex (invoke toCall st).2).
Proof.
  induction m as [|m IH]; intros toCall st Hpos Hm;
    (destruct (decide (toCall ≤ lastCalledMiddlewareIndex st)) as [Hdup|Hok];
     [rewrite invokeMiddleware_duplicate by done; split; [apply Extends_refl|simpl; lia]|]).
  - rewrite invokeMiddleware_last by lia.
    destruct (callLast_spec (setLastCalled toCall st)) as (l & -> & _).
    split; [|simpl; lia]. split; [simpl; lia|]. simpl. eauto.
  - destruct (lookup_lt_is_Some_2 middleware (Z.to_nat toCall)) as [fn Hfn]; [lia|].
    rewrite (invokeMiddleware_handler _ _ _ _ _ _ _ fn) by (done || lia).
    pose (st1 := record (Called toCall) (setLastCalled toCall st)).
    assert (Extends st st1 ∧ toCall ≤ lastCalledMiddlewareIndex st1) as Hst1.
    { split; [|simpl; lia]. split; [simpl; lia|]. simpl. eauto. }
    enough (Extends st (run (bundle toCall) (fn (bundle toCall)) st1).2 ∧
            toCall ≤ lastCalledMiddlewareIndex
                       (run (bundle toCall) (fn (bundle toCall)) st1).2) as [? ?]
      by (split; [done|intros _; done]).
    apply (run_inv (λ s, Extends st s ∧ toCall ≤ lastCalledMiddlewareIndex s)); [| |done].
    + intros t s [He Hle]. split; [|done].
      eapply Extends_trans; [done|apply Extends_record].
    + intros key c Hkey s [He Hle].
      apply bundle_closure in Hkey as (_ & -> & _). unfold nextFor.
      destruct (IH (toCall + 1) (record (Next toCall) s)) as [Hext _]; [lia|lia|].
      split.
      * eapply Extends_trans; [done|].
        eapply Extends_trans; [apply Extends_record|done].
      * destruct Hext as [Hext _]. rewrite lastCalled_record in Hext. lia.
Qed.

Lemma invoke_extends toCall st :
  0 ≤ toCall → Extends st (invoke toCall st).2.
Proof. intros H. by eapply invoke_extends_aux. Qed.

Lemma invoke_advances toCall st :
  0 ≤ toCall → lastCalledMiddlewareIndex st < toCall →
  toCall ≤ lastCalledMiddlewareIndex (invoke toCall st).2.
Proof. intros H. by eapply invoke_extends_aux. Qed.

Lemma advance_extends i st : 0 ≤ i → Extends st (advance i st).2.
Proof.
  intros Hi. unfold nextFor.
  eapply Extends_trans; [apply Extends_record|]. apply invoke_extends. lia.
Qed.

(** A script run by handler [i] never lowers the counter below [i]. *)
Lemma run_extends i body st :
  0 ≤ i → Extends st (run (bundle i) body st).2.
Proof.
  intros Hi. apply (run_inv (Extends st)).
  - intros t s H. eapply Extends_trans; [done|apply Extends_record].
  - intros key c Hkey s H. apply bundle_closure in Hkey as (_ & -> & _).
    eapply Extends_trans; [done|by apply advance_extends].
  - apply Extends_refl.
Qed.

Lemma Good_record_other e st : isStep e = false → Good n st → Good n (record e st).
Proof.
  intros He [Hr Hp]. split; [by apply Reached_record_other|].
  rewrite observed_record. apply Preceded_snoc; [done|]. by destruct e.
Qed.

Lemma Good_step i st :
  0 ≤ i ≤ n → lastCalledMiddlewareIndex st = i - 1 → Entered i (observed st) →
  Good n st → Good n (record (stepEvent n i) (setLastCalled i st)).
Proof.
  intros Hi Hlast Hent [Hr Hp]. split; [by apply Reached_step|].
  rewrite observed_record, observed_setLastCalled.
  apply Preceded_snoc; [done|]. unfold stepEvent.
  destruct (Z.ltb_spec i n); [done|]. by replace n with i by lia.
Qed.

Lemma invoke_good_aux m : ∀ toCall st,
  0 ≤ toCall → toCall + Z.of_nat m = n →
  Good n st → toCall - 1 ≤ lastCalledMiddlewareIndex st → Entered toCall (observed st) →
  Good n (invoke toCall st).2.
Proof.
  induction m as [|m IH]; intros toCall st Hpos Hm Hgood Hle Hent;
    (destruct (decide (toCall ≤ lastCalledMiddlewareIndex st)) as [Hdup|Hok];
     [by rewrite invokeMiddleware_duplicate by done|]).
  - rewrite invokeMiddleware_last by lia.
    pose proof (Good_step toCall st) as Hstep.
    unfold stepEvent in Hstep. rewrite (proj2 (Z.ltb_ge _ _)) in Hstep by lia.
    specialize (Hstep ltac:(lia) ltac:(lia) Hent Hgood).
    unfold callLast. apply (run_inv (Good n)); [| |].
    + intros t s. by apply Good_record_other.
    + intros key c Hkey. by rewrite lookup_empty in Hkey.
    + exact Hstep.
  - destruct (lookup_lt_is_Some_2 middleware (Z.to_nat toCall)) as [fn Hfn]; [lia|].
    rewrite (invokeMiddleware_handler _ _ _ _ _ _ _ fn) by (done || lia).
    pose proof (Good_step toCall st) as Hstep.
    unfold stepEvent in Hstep. rewrite (proj2 (Z.ltb_lt _ _)) in Hstep by lia.
    specialize (Hstep ltac:(lia) ltac:(lia) Hent Hgood).
    enough (Good n (run (bundle toCall) (fn (bundle toCall))
                      (record (Called toCall) (setLastCalled toCall st))).2 ∧
            toCall ≤ lastCalledMiddlewareIndex
                       (run (bundle toCall) (fn (bundle toCall))
                            (record (Called toCall) (setLastCalled toCall st))).2)
      as [? _] by done.
    apply (run_inv (λ s, Good n s ∧ toCall ≤ lastCalledMiddlewareIndex s)).
    + intros t s [Hg Hl]. split; [by apply Good_record_other|done].
    + intros key c Hkey s [Hg Hl].
      apply bundle_closure in Hkey as (_ & -> & _). split.
      * unfold nextFor. apply IH; [lia|lia| | |].
        -- by apply Good_record_other.
        -- rewrite lastCalled_record. lia.
        -- right. rewrite observed_record, List.last_last. f_equal. lia.
      * pose proof (advance_extends toCall s Hpos) as [? _]. lia.
    + split; [done|]. simpl. lia.
Qed.

End Runs.

(** ** Scripts that call no closure *)

Lemma run_NoAdvance args body :
  NoAdvance args body →
  ∀ st, ∃ l,
    (run args body st).2 =
      {| lastCalledMiddlewareIndex := lastCalledMiddlewareIndex st;
         observed := observed st ++ l |}
    ∧ forallb isEffect l = true
    ∧ ∀ st', (run args body st').1 = (run args body st).1.
Proof.
  induction 1 as [|e|t k Hk IH|key k Hkey Hk IH]; intros st.
  - exists []. simpl. rewrite app_nil_r. by destruct st.
  - exists []. simpl. rewrite app_nil_r. by destruct st.
  - destruct (IH (record (Effect t) st)) as (l & Hst & Hl & Hout).
    exists (Effect t :: l). simpl. rewrite Hst. simpl.
    rewrite <- app_assoc. split; [done|]. split; [done|].
    intros st'. by rewrite !Hout.
  - simpl. destruct (args !! key) as [[[name|t r]|c]|] eqn:E.
    + destruct (IH (Rejected notCallable) st) as (l & Hst & Hl & Hout).
      exists l. split; [done|]. split; [done|]. intros st'. by rewrite !Hout.
    + destruct (IH r (record (Effect t) st)) as (l & Hst & Hl & Hout).
      exists (Effect t :: l). rewrite Hst. simpl.
      rewrite <- app_assoc. split; [done|]. split; [done|].
      intros st'. by rewrite !Hout.
    + by destruct (Hkey c).
    + destruct (IH (Rejected notCallable) st) as (l & Hst & Hl & Hout).
      exists l. split; [done|]. split; [done|]. intros st'. by rewrite !Hout.
Qed.

Lemma NoAdvance_no_closure args body :
  (∀ key c, args !! key ≠ Some (VNext c)) → NoAdvance args body.
Proof.
  intros Hno. induction body as [|e|t k IH|key k IH]; constructor; auto.
Qed.

Lemma run_Settles args r body :
  Settles r body →
  ∀ st, ∃ l,
    run args body st =
      (r, {| lastCalledMiddlewareIndex := lastCalledMiddlewareIndex st;
             observed := observed st ++ l |})
    ∧ forallb isEffect l = true.
Proof.
  induction 1 as [->|e ->|t k Hk IH]; intros st.
  - exists []. simpl. rewrite app_nil_r. by destruct st.
  - exists []. simpl. rewrite app_nil_r. by destruct st.
  - destruct (IH (record (Effect t) st)) as (l & Hst & Hl).
    exists (Effect t :: l). simpl. rewrite Hst. simpl.
    by rewrite <- app_assoc.
Qed.

(** ** Whole executions *)

Section Whole.

Variable initialArgs : Args.
Variables context client logger : Foreign.
Variable last : option Body.
Variable middleware : list Middleware.

Local Abbreviation invoke :=
  (invokeMiddleware initialArgs context client logger (default defaultLast last) middleware).
Local Abbreviation n := (Z.of_nat (length middleware)).
Local Abbreviation execution :=
  (processMiddleware middleware initialArgs context client logger last).

Lemma processMiddleware_nonempty :
  middleware ≠ [] →
  execution =
    {| completion := (invoke 0 initialState).1;
       events := observed (invoke 0 initialState).2;
       counter := Some (lastCalledMiddlewareIndex (invoke 0 initialState).2) |}.
Proof.
  intros Hne. unfold processMiddleware.
  destruct (Z.leb_spec n 0) as [Hle|_].
  - destruct middleware; [done|]. simpl in Hle. lia.
  - by destruct (invoke 0 initialState).
Qed.

Lemma Good_initialState : Good n initialState.
Proof.
  split; [split|].
  - simpl. lia.
  - reflexivity.
  - apply Preceded_nil.
Qed.

Lemma invoke_good : Good n (invoke 0 initialState).2.
Proof.
  apply (invoke_good_aux _ _ _ _ _ _ (length middleware)); try (simpl; lia).
  - apply Good_initialState.
  - by left.
Qed.

End Whole.

(** ** Chains in which every handler advances *)

Section Advancing.

Variable initialArgs : Args.
Variables context client logger : Foreign.
Variable last : Body.
Variable middleware : list Middleware.

Local Abbreviation invoke := (invokeMiddleware initialArgs context client logger last middleware).
Local Abbreviation bundle := (argsFor initialArgs context client logger last middleware).
Local Abbreviation advance := (nextFor initialArgs context client logger last middleware).
Local Abbreviation n := (Z.of_nat (length middleware)).

Lemma run_AdvancesOnce i body :
  0 ≤ i →
  AdvancesOnce (bundle i) body →
  (∀ s, lastCalledMiddlewareIndex s = i →
        n ≤ lastCalledMiddlewareIndex (advance i s).2) →
  ∀ st, lastCalledMiddlewareIndex st = i →
        n ≤ lastCalledMiddlewareIndex (run (bundle i) body st).2.
Proof.
  intros Hi Hbody Hadv.
  induction Hbody as [t k Hk IH|key k Hkey Hk IH|key c k Hkey Hk]; intros st Hst; simpl.
  - by apply IH.
  - destruct (bundle i !! key) as [[[name|t r]|c]|] eqn:E; try by apply IH.
    by destruct (Hkey c).
  - rewrite Hkey. apply bundle_closure in Hkey as (_ & -> & _).
    specialize (Hadv st Hst). destruct (advance i st) as [r st']. simpl in Hadv.
    pose proof (run_extends initialArgs context client logger last middleware
                  i (k r) st' Hi) as [Hle _]. lia.
Qed.

Lemma invoke_completes_aux m : ∀ toCall st,
  0 ≤ toCall → toCall + Z.of_nat m = n →
  (∀ (j : nat) fn, middleware !! j = Some fn →
     AdvancesOnce (bundle (Z.of_nat j)) (fn (bundle (Z.of_nat j)))) →
  lastCalledMiddlewareIndex st < toCall →
  n ≤ lastCalledMiddlewareIndex (invoke toCall st).2.
Proof.
  induction m as [|m IH]; intros toCall st Hpos Hm Hall Hlt.
  - rewrite invokeMiddleware_last by lia.
    destruct (callLast_spec last (setLastCalled toCall st)) as (l & -> & _).
    simpl. lia.
  - destruct (lookup_lt_is_Some_2 middleware (Z.to_nat toCall)) as [fn Hfn]; [lia|].
    rewrite (invokeMiddleware_handler _ _ _ _ _ _ _ fn) by (done || lia).
    apply (run_AdvancesOnce toCall); [done| | |done].
    + specialize (Hall _ _ Hfn). by rewrite Z2Nat.id in Hall.
    + intros s Hs. unfold nextFor. apply IH; [lia|lia|done|].
      rewrite lastCalled_record. lia.
Qed.

End Advancing.

(** The handlers of the scenarios have the shapes their names say. *)
Lemma advancing_AdvancesOnce initialArgs context client logger c t :
  initialArgs !! "next" = None →
  AdvancesOnce (mkArgs initialArgs context client logger c)
    (Scenario.advancing t (mkArgs initialArgs context client logger c)).
Proof.
  intros H. apply ao_emit. eapply ao_next; [by apply mkArgs_next|].
  intros [|e]; constructor.
Qed.

Lemma advancing_Forwards initialArgs context client logger c t :
  initialArgs !! "next" = None →
  Forwards (mkArgs initialArgs context client logger c)
    (Scenario.advancing t (mkArgs initialArgs context client logger c)).
Proof.
  intros H. apply fw_emit. eapply fw_next; [by apply mkArgs_next|].
  intros [|e]; by constructor.
Qed.

Lemma halting_NoAdvance args t : NoAdvance args (Scenario.halting t args).
Proof. repeat constructor. Qed.

Lemma failing_NoAdvance args e : NoAdvance args (Scenario.failing e args).
Proof. constructor. Qed.

(** ** After the await of [next] *)

Section AfterAdvance.

Variable initialArgs : Args.
Variables context client logger : Foreign.
Variable last : Body.
Variable middleware : list Middleware.

Local Abbreviation invoke := (invokeMiddleware initialArgs context client logger last middleware).
Local Abbreviation bundle := (argsFor initialArgs context client logger last middleware).
Local Abbreviation advance := (nextFor initialArgs context client logger last middleware).

(** Once the counter is above [i], handler [i] cannot cause any further
    call: whatever its script does, no middleware function and no [last] is
    called. *)
Lemma run_after_advance i body st :
  0 ≤ i → i + 1 ≤ lastCalledMiddlewareIndex st →
  steps (observed (run (bundle i) body st).2) = steps (observed st)
  ∧ lastCalledMiddlewareIndex (run (bundle i) body st).2 = lastCalledMiddlewareIndex st.
Proof.
  intros Hi Hst.
  apply (run_inv (λ s, steps (observed s) = steps (observed st)
                       ∧ lastCalledMiddlewareIndex s = lastCalledMiddlewareIndex st)).
  - intros t s [Hs Hl]. split; [|done]. by rewrite steps_record_other.
  - intros key c Hkey s [Hs Hl]. apply bundle_closure in Hkey as (_ & -> & _).
    unfold nextFor. rewrite invokeMiddleware_duplicate
      by (rewrite lastCalled_record; lia).
    cbn [snd]. split; [|done]. by rewrite steps_record_other.
  - done.
Qed.

Lemma advance_advances i st :
  0 ≤ i → i ≤ lastCalledMiddlewareIndex st →
  i + 1 ≤ lastCalledMiddlewareIndex (advance i st).2.
Proof.
  intros Hi Hst. unfold nextFor.
  destruct (decide (i + 1 ≤ lastCalledMiddlewareIndex st)) as [Hdup|Hok].
  - by rewrite invokeMiddleware_duplicate by (by rewrite lastCalled_record).
  - apply invoke_advances; [lia|]. rewrite lastCalled_record. lia.
Qed.

End AfterAdvance.

(** ** Handlers that stop the chain, and handlers that pass settlements on *)

Section Forwarding.

Variable initialArgs : Args.
Variables context client logger : Foreign.
Variable last : Body.
Variable middleware : list Middleware.

Local Abbreviation invoke := (invokeMiddleware initialArgs context client logger last middleware).
Local Abbreviation bundle := (argsFor initialArgs context client logger last middleware).
Local Abbreviation advance := (nextFor initialArgs context client logger last middleware).
Local Abbreviation n := (Z.of_nat (length middleware)).

(** If handler [i] calls no closure, the counter never gets past [i]. *)
Lemma no_advance_stops (i : nat) fn :
  middleware !! i = Some fn →
  NoAdvance (bundle (Z.of_nat i)) (fn (bundle (Z.of_nat i))) →
  ∀ m toCall st,
    0 ≤ toCall ≤ Z.of_nat i → toCall + Z.of_nat m = n →
    lastCalledMiddlewareIndex st ≤ Z.of_nat i →
    lastCalledMiddlewareIndex (invoke toCall st).2 ≤ Z.of_nat i.
Proof.
  intros Hfn Hna.
  pose proof (lookup_lt_Some _ _ _ Hfn) as Hlen.
  induction m as [|m IH]; intros toCall st Hto Hm Hst;
    (destruct (decide (toCall ≤ lastCalledMiddlewareIndex st)) as [Hdup|Hok];
     [by rewrite invokeMiddleware_duplicate by done|]); [lia|].
  destruct (lookup_lt_is_Some_2 middleware (Z.to_nat toCall)) as [fn' Hfn']; [lia|].
  rewrite (invokeMiddleware_handler _ _ _ _ _ _ _ fn') by (done || lia).
  destruct (decide (toCall = Z.of_nat i)) as [->|Hne].
  - rewrite Nat2Z.id, Hfn in Hfn'. inversion Hfn'; subst fn'.
    destruct (run_NoAdvance _ _ Hna
                (record (Called (Z.of_nat i)) (setLastCalled (Z.of_nat i) st)))
      as (l & -> & _). simpl. lia.
  - apply (run_inv (λ s, lastCalledMiddlewareIndex s ≤ Z.of_nat i)).
    + intros t s Hs. by rewrite lastCalled_record.
    + intros key c Hkey s Hs. apply bundle_closure in Hkey as (_ & -> & _).
      unfold nextFor. apply IH; [lia|lia|by rewrite lastCalled_record].
    + simpl. lia.
Qed.

(** The step that calls a handler which calls no closure settles the way the
    handler's script settles, in any state. *)
Lemma invoke_NoAdvance (i : nat) fn st st' :
  middleware !! i = Some fn →
  NoAdvance (bundle (Z.of_nat i)) (fn (bundle (Z.of_nat i))) →
  lastCalledMiddlewareIndex st < Z.of_nat i →
  (invoke (Z.of_nat i) st).1 =
    (run (bundle (Z.of_nat i)) (fn (bundle (Z.of_nat i))) st').1.
Proof.
  intros Hfn Hna Hst.
  rewrite (invokeMiddleware_handler _ _ _ _ _ _ _ fn)
    by (rewrite ?Nat2Z.id; done || lia).
  destruct (run_NoAdvance _ _ Hna st') as (_ & _ & _ & Hout). apply Hout.
Qed.

Lemma run_Forwards i body r0 :
  0 ≤ i →
  Forwards (bundle i) body →
  (∀ s, lastCalledMiddlewareIndex s = i → (advance i s).1 = r0) →
  ∀ st, lastCalledMiddlewareIndex st = i → (run (bundle i) body st).1 = r0.
Proof.
  intros Hi Hbody Hadv.
  induction Hbody as [t k Hk IH|key c k Hkey Hk]; intros st Hst; simpl.
  - by apply IH.
  - rewrite Hkey. apply bundle_closure in Hkey as (_ & -> & _).
    specialize (Hadv st Hst). destruct (advance i st) as [r st']. simpl in Hadv.
    subst r. destruct (run_Settles (bundle i) _ _ (Hk r0) st') as (l & -> & _).
    reflexivity.
Qed.

Lemma run_FailsAfter e i body :
  0 ≤ i →
  FailsAfter e (bundle i) body →
  (∀ s, lastCalledMiddlewareIndex s = i → (advance i s).1 = Fulfilled) →
  ∀ st, lastCalledMiddlewareIndex st = i → (run (bundle i) body st).1 = Rejected e.
Proof.
  intros Hi Hbody Hadv.
  induction Hbody as [t k Hk IH|key c k Hkey Hk]; intros st Hst; simpl.
  - by apply IH.
  - rewrite Hkey. apply bundle_closure in Hkey as (_ & -> & _).
    specialize (Hadv st Hst). destruct (advance i st) as [r st']. simpl in Hadv.
    subst r. destruct (run_Settles (bundle i) _ _ Hk st') as (l & -> & _).
    reflexivity.
Qed.

(** If the handlers before index [j] pass on the settlement of their await,
    a run entered at or before [j] settles the way step [j] settles. *)
Lemma forward_outcome (j : Z) (r0 : Outcome) :
  j ≤ n →
  (∀ (i : nat) fn, Z.of_nat i < j → middleware !! i = Some fn →
     Forwards (bundle (Z.of_nat i)) (fn (bundle (Z.of_nat i)))) →
  (∀ s, lastCalledMiddlewareIndex s < j → (invoke j s).1 = r0) →
  ∀ m toCall st,
    0 ≤ toCall → toCall + Z.of_nat m = j →
    lastCalledMiddlewareIndex st < toCall →
    (invoke toCall st).1 = r0.
Proof.
  intros Hj Hfw Hat.
  induction m as [|m IH]; intros toCall st Hpos Hm Hst.
  - replace toCall with j by lia. apply Hat. lia.
  - destruct (lookup_lt_is_Some_2 middleware (Z.to_nat toCall)) as [fn Hfn]; [lia|].
    rewrite (invokeMiddleware_handler _ _ _ _ _ _ _ fn) by (done || lia).
    apply (run_Forwards toCall); [done| | |done].
    + specialize (Hfw (Z.to_nat toCall) fn ltac:(lia) Hfn).
      by rewrite Z2Nat.id in Hfw.
    + intros s Hs. unfold nextFor. apply IH; [lia|lia|].
      rewrite lastCalled_record. lia.
Qed.

End Forwarding.

Section WholeForwarding.

Variable initialArgs : Args.
Variables context client logger : Foreign.
Variable last : option Body.
Variable middleware : list Middleware.

Local Abbreviation invoke :=
  (invokeMiddleware initialArgs context client logger (default defaultLast last) middleware).
Local Abbreviation bundle :=
  (argsFor initialArgs context client logger (default defaultLast last) middleware).
Local Abbreviation n := (Z.of_nat (length middleware)).
Local Abbreviation execution :=
  (processMiddleware middleware initialArgs context client logger last).

(** A handler that calls no closure ends the chain where it stands. *)
Lemma halted_execution (i : nat) fn :
  middleware !! i = Some fn →
  NoAdvance (bundle (Z.of_nat i)) (fn (bundle (Z.of_nat i))) →
  (∀ j, Z.of_nat i < j → Called j ∉ events execution)
  ∧ CalledLast ∉ events execution.
Proof.
  intros Hfn Hna.
  pose proof (lookup_lt_Some _ _ _ Hfn) as Hlen.
  assert (middleware ≠ []) as Hne by (intros ->; simpl in Hlen; lia).
  rewrite processMiddleware_nonempty by done. simpl.
  pose proof (invoke_good initialArgs context client logger last middleware)
    as [Hreached _].
  pose proof (no_advance_stops initialArgs context client logger
                (default defaultLast last) middleware i fn Hfn Hna
                (length middleware) 0 initialState
                ltac:(lia) ltac:(lia) ltac:(simpl; lia)) as Hstop.
  split.
  - intros j Hj Hin.
    apply (Reached_called n) in Hin as [? ?]; [lia|lia|done].
  - intros Hin. apply (Reached_calledLast n) in Hin; [lia|lia|done].
Qed.

(** When the handlers before [j] pass settlements on, the execution settles
    the way step [j] does. *)
Lemma forwarded_completion (j : nat) (r0 : Outcome) :
  middleware ≠ [] →
  Z.of_nat j ≤ n →
  (∀ (i : nat) fn, (i < j)%nat → middleware !! i = Some fn →
     Forwards (bundle (Z.of_nat i)) (fn (bundle (Z.of_nat i)))) →
  (∀ s, lastCalledMiddlewareIndex s < Z.of_nat j → (invoke (Z.of_nat j) s).1 = r0) →
  completion execution = r0.
Proof.
  intros Hne Hj Hfw Hat.
  rewrite processMiddleware_nonempty by done. simpl.
  apply (forward_outcome initialArgs context client logger
           (default defaultLast last) middleware (Z.of_nat j) r0 Hj) with (m := j);
    [|done|lia|lia|simpl; lia].
  intros i fn Hi. apply Hfw. lia.
Qed.

(** The settlement of [last] does not depend on the state it runs in. *)
Lemma run_last_outcome (body : Body) st st' :
  (run ∅ body st).1 = (run ∅ body st').1.
Proof.
  assert (NoAdvance ∅ body) as Hna.
  { apply NoAdvance_no_closure. intros key c. by rewrite lookup_empty. }
  destruct (run_NoAdvance _ _ Hna st') as (_ & _ & _ & Hout). apply Hout.
Qed.

End WholeForwarding.

(** ** Scripts whose behaviour does not depend on the state *)

(** A script that calls no closure: how it settles and what it logs do not
    depend on the state it starts in. *)
Lemma run_NoAdvance_uniform args body :
  NoAdvance args body →
  ∃ r l, forallb isEffect l = true ∧
    ∀ st, run args body st =
            (r, {| lastCalledMiddlewareIndex := lastCalledMiddlewareIndex st;
                   observed := observed st ++ l |}).
Proof.
  induction 1 as [|e|t k Hk IH|key k Hkey Hk IH].
  - exists Fulfilled, []. split; [done|]. intros [c l]. simpl. by rewrite app_nil_r.
  - exists (Rejected e), []. split; [done|]. intros [c l]. simpl. by rewrite app_nil_r.
  - destruct IH as (r & l & Hl & Hrun). exists r, (Effect t :: l). split; [done|].
    intros st. simpl. rewrite Hrun. simpl. by rewrite <- app_assoc.
  - destruct (args !! key) as [[[name|t r0]|c]|] eqn:E.
    + destruct (IH (Rejected notCallable)) as (r & l & Hl & Hrun).
      exists r, l. split; [done|]. intros st. simpl. rewrite E. apply Hrun.
    + destruct (IH r0) as (r & l & Hl & Hrun).
      exists r, (Effect t :: l). split; [done|]. intros st. simpl. rewrite E, Hrun.
      simpl. by rewrite <- app_assoc.
    + by destruct (Hkey c).
    + destruct (IH (Rejected notCallable)) as (r & l & Hl & Hrun).
      exists r, l. split; [done|]. intros st. simpl. rewrite E. apply Hrun.
Qed.

Lemma effects_app l1 l2 : effects (l1 ++ l2) = effects l1 ++ effects l2.
Proof. apply flat_map_app. Qed.

Lemma run_emits args ts k st : run args (emits ts k) st = run args k (logAll ts st).
Proof.
  revert st. induction ts as [|t ts IH]; intros st; simpl; [done|]. apply IH.
Qed.

Lemma lastCalled_logAll ts st :
  lastCalledMiddlewareIndex (logAll ts st) = lastCalledMiddlewareIndex st.
Proof.
  revert st. induction ts as [|t ts IH]; intros st; simpl; [done|].
  by rewrite IH.
Qed.

Lemma observed_logAll ts st :
  observed (logAll ts st) = observed st ++ (Effect <$> ts).
Proof.
  revert st. induction ts as [|t ts IH]; intros st; simpl.
  - by rewrite app_nil_r.
  - rewrite IH. simpl. by rewrite <- app_assoc.
Qed.

(** ** How far a chain gets *)

Lemma take_expectedCalls n k :
  0 ≤ k ≤ n → take (Z.to_nat k) (expectedCalls n) = Called <$> seqZ 0 k.
Proof.
  intros Hk. unfold expectedCalls.
  replace n with (k + (n - k)) by lia.
  rewrite seqZ_app, fmap_app, <- app_assoc by lia.
  apply take_app_length'. rewrite length_fmap, length_seqZ. done.
Qed.

Lemma Reached_called_iff n st j :
  0 ≤ n → Reached n st →
  Called j ∈ observed st ↔ 0 ≤ j ≤ lastCalledMiddlewareIndex st ∧ j < n.
Proof.
  intros Hn Hr. split; [by apply Reached_called|].
  intros [Hj Hjn]. destruct Hr as [Hb Hs].
  assert (Called j ∈ steps (observed st)) as Hin.
  { rewrite Hs. apply elem_of_take. exists (Z.to_nat j). split; [|lia].
    apply expectedCalls_handler. lia. }
  unfold steps in Hin. apply list_elem_of_In, List.filter_In in Hin as [Hin _].
  by apply list_elem_of_In.
Qed.

Lemma Reached_calledLast_iff n st :
  0 ≤ n → Reached n st →
  CalledLast ∈ observed st ↔ lastCalledMiddlewareIndex st = n.
Proof.
  intros Hn Hr. split; [by apply Reached_calledLast|].
  intros Hc. destruct Hr as [Hb Hs].
  assert (CalledLast ∈ steps (observed st)) as Hin.
  { rewrite Hs. apply elem_of_take. exists (Z.to_nat n). split; [|lia].
    by apply expectedCalls_last. }
  unfold steps in Hin. apply list_elem_of_In, List.filter_In in Hin as [Hin _].
  by apply list_elem_of_In.
Qed.

Section Reaching.

Variable initialArgs : Args.
Variables context client logger : Foreign.
Variable last : Body.
Variable middleware : list Middleware.

Local Abbreviation invoke := (invokeMiddleware initialArgs context client logger last middleware).
Local Abbreviation bundle := (argsFor initialArgs context client logger last middleware).
Local Abbreviation advance := (nextFor initialArgs context client logger last middleware).
Local Abbreviation n := (Z.of_nat (length middleware)).

Lemma run_AdvancesOnce_to (target : Z) i body :
  0 ≤ i →
  AdvancesOnce (bundle i) body →
  (∀ s, lastCalledMiddlewareIndex s = i →
        target ≤ lastCalledMiddlewareIndex (advance i s).2) →
  ∀ st, lastCalledMiddlewareIndex st = i →
        target ≤ lastCalledMiddlewareIndex (run (bundle i) body st).2.
Proof.
  intros Hi Hbody Hadv.
  induction Hbody as [t k Hk IH|key k Hkey Hk IH|key c k Hkey Hk]; intros st Hst; simpl.
  - by apply IH.
  - destruct (bundle i !! key) as [[[name|t r]|c]|] eqn:E; try by apply IH.
    by destruct (Hkey c).
  - rewrite Hkey. apply bundle_closure in Hkey as (_ & -> & _).
    specialize (Hadv st Hst). destruct (advance i st) as [r st']. simpl in Hadv.
    pose proof (run_extends initialArgs context client logger last middleware
                  i (k r) st' Hi) as [Hle _]. lia.
Qed.

(** If the handlers before index [j] each advance, the counter gets to [j]. *)
Lemma invoke_reaches (j : Z) :
  j ≤ n →
  (∀ (i : nat) fn, Z.of_nat i < j → middleware !! i = Some fn →
     AdvancesOnce (bundle (Z.of_nat i)) (fn (bundle (Z.of_nat i)))) →
  ∀ m toCall st,
    0 ≤ toCall → toCall + Z.of_nat m = j →
    lastCalledMiddlewareIndex st < toCall →
    j ≤ lastCalledMiddlewareIndex (invoke toCall st).2.
Proof.
  intros Hj Hall. induction m as [|m IH]; intros toCall st Hpos Hm Hlt.
  - replace j with toCall by lia. by apply invoke_advances.
  - destruct (lookup_lt_is_Some_2 middleware (Z.to_nat toCall)) as [fn Hfn]; [lia|].
    rewrite (invokeMiddleware_handler _ _ _ _ _ _ _ fn) by (done || lia).
    apply (run_AdvancesOnce_to j toCall); [done| | |done].
    + specialize (Hall (Z.to_nat toCall) fn ltac:(lia) Hfn).
      by rewrite Z2Nat.id in Hall.
    + intros s Hs. unfold nextFor. apply IH; [lia|lia|].
      rewrite lastCalled_record. lia.
Qed.

(** A handler that awaits [next], then awaits it again. *)
Lemma run_double_await i pre mid rest st :
  0 ≤ i →
  initialArgs !! "next" = None →
  lastCalledMiddlewareIndex st = i →
  run (bundle i) (emits pre (awaitNext (emits mid (awaitNext rest)))) st =
    match (advance i (logAll pre st)).1 with
    | Fulfilled =>
        (Rejected (MiddlewareNextError "next() called multiple times"),
         record (Next i) (logAll mid (advance i (logAll pre st)).2))
    | Rejected e => (Rejected e, (advance i (logAll pre st)).2)
    end.
Proof.
  intros Hi Hnone Hst.
  assert (bundle i !! "next" = Some (VNext (advance i))) as Hnext
    by (by apply mkArgs_next).
  rewrite run_emits. unfold awaitNext at 1. simpl. rewrite Hnext.
  pose proof (advance_advances initialArgs context client logger last middleware
                i (logAll pre st) Hi) as Hadv.
  rewrite lastCalled_logAll in Hadv. specialize (Hadv ltac:(lia)).
  destruct (advance i (logAll pre st)) as [[|e] st']; simpl in *; [|done].
  rewrite run_emits. unfold awaitNext. simpl. rewrite Hnext.
  unfold nextFor at 1. rewrite invokeMiddleware_duplicate
    by (rewrite lastCalled_record, lastCalled_logAll; lia).
  reflexivity.
Qed.

End Reaching.

(** ** Handlers that wrap their await: last in, first out *)

Section Wrapping.

Variable initialArgs : Args.
Variables context client logger : Foreign.
Variable last : Body.

Lemma invokeFrom_wrapping (r : Outcome) (l : list Event) :
  initialArgs !! "next" = None →
  (∀ st, run ∅ last st =
           (r, {| lastCalledMiddlewareIndex := lastCalledMiddlewareIndex st;
                  observed := observed st ++ l |})) →
  ∀ (tags : list (Tag * Tag)) toCall st,
    lastCalledMiddlewareIndex st < toCall →
    let res := invokeFrom initialArgs context client logger last
                 ((λ p, Scenario.wrapping p.1 p.2) <$> tags) toCall st in
    res.1 = r
    ∧ effects (observed res.2) =
        effects (observed st) ++ tags.*1 ++ effects l
          ++ match r with Fulfilled => rev (tags.*2) | Rejected _ => [] end.
Proof.
  intros Hnone Hlast tags.
  induction tags as [|[b a] tags IH]; intros toCall st Hlt; simpl;
    (destruct (Z.geb_spec (lastCalledMiddlewareIndex st) toCall); [lia|]).
  - unfold callLast. rewrite Hlast. simpl. split; [done|].
    rewrite !effects_app. simpl. destruct r; by rewrite !app_nil_r.
  - unfold Scenario.wrapping, awaitNext. simpl.
    rewrite mkArgs_next by done.
    destruct (IH (toCall + 1)
                (record (Next toCall)
                   (record (Effect b)
                      (record (Called toCall) (setLastCalled toCall st)))))
      as [Hr He]; [simpl; lia|].
    destruct (invokeFrom _ _ _ _ _ _ _ _) as [r' st']. simpl in Hr, He. subst r'.
    rewrite !effects_app in He. simpl in He. rewrite !app_nil_r in He.
    destruct r as [|e]; simpl; (split; [done|]).
    + rewrite effects_app, He. simpl. by rewrite <- !app_assoc.
    + rewrite He. by rewrite <- !app_assoc.
Qed.

End Wrapping.

(** ** Handlers that relay the settlement of their await *)

Lemma run_Concludes args r body :
  Concludes args r body →
  ∀ st, (run args body st).1 = r
        ∧ lastCalledMiddlewareIndex (run args body st).2 = lastCalledMiddlewareIndex st.
Proof.
  induction 1 as [->|e ->|t k Hk IH|key k Hkey Hk IH]; intros st; simpl; try done.
  - apply (IH (record (Effect t) st)).
  - unfold foreignOutcome in IH.
    destruct (args !! key) as [[[name|t r0]|c]|] eqn:E.
    + apply IH.
    + apply (IH (record (Effect t) st)).
    + by destruct (Hkey c).
    + apply IH.
Qed.

Lemma Forwards_Relays args body : Forwards args body → Relays args body.
Proof.
  induction 1 as [t k Hk IH|key c k Hkey Hk].
  - by apply rl_emit.
  - apply (rl_next args key c); [done|]. intros r.
    specialize (Hk r). induction Hk; by constructor.
Qed.

Section Relaying.

Variable initialArgs : Args.
Variables context client logger : Foreign.
Variable last : Body.
Variable middleware : list Middleware.

Local Abbreviation invoke := (invokeMiddleware initialArgs context client logger last middleware).
Local Abbreviation bundle := (argsFor initialArgs context client logger last middleware).
Local Abbreviation advance := (nextFor initialArgs context client logger last middleware).
Local Abbreviation n := (Z.of_nat (length middleware)).

(** A relaying script settles the way its call of [next] settles; that
    call is made while the counter is still at the index of the handler,
    and what the script logs after it comes last. *)
Lemma run_Relays i body :
  0 ≤ i →
  Relays (bundle i) body →
  ∀ st, lastCalledMiddlewareIndex st = i →
  ∃ s, lastCalledMiddlewareIndex s = i
       ∧ Extends st s
       ∧ (run (bundle i) body st).1 = (advance i s).1
       ∧ Extends (advance i s).2 (run (bundle i) body st).2.
Proof.
  intros Hi.
  induction 1 as [t k Hk IH|key k Hkey Hk IH|key c k Hkey Hk]; intros st Hst; simpl.
  - destruct (IH (record (Effect t) st) Hst) as (s & Hs & Hext & Hrest).
    exists s. split; [done|]. split; [|done].
    eapply Extends_trans; [apply Extends_record|done].
  - unfold foreignOutcome in IH.
    destruct (bundle i !! key) as [[[name|t r0]|c]|] eqn:E.
    + by apply IH.
    + destruct (IH (record (Effect t) st) Hst) as (s & Hs & Hext & Hrest).
      exists s. split; [done|]. split; [|done].
      eapply Extends_trans; [apply Extends_record|done].
    + by destruct (Hkey c).
    + by apply IH.
  - rewrite Hkey. apply bundle_closure in Hkey as (_ & -> & _).
    exists st. split; [done|]. split; [apply Extends_refl|].
    destruct (advance i st) as [r st'] eqn:Hadv. simpl.
    split; [by destruct (run_Concludes _ _ _ (Hk r) st') as [-> _]|].
    by apply run_extends.
Qed.

(** If the handlers before index [j] relay, a run entered at or before [j]
    enters step [j] with the counter at [j - 1], settles the way that step
    settles, and its log ends with what the handlers log on the way back. *)
Lemma relay_outcome (j : Z) :
  j ≤ n →
  (∀ (i : nat) fn, Z.of_nat i < j → middleware !! i = Some fn →
     Relays (bundle (Z.of_nat i)) (fn (bundle (Z.of_nat i)))) →
  ∀ m toCall st,
    0 ≤ toCall → toCall + Z.of_nat m = j →
    lastCalledMiddlewareIndex st = toCall - 1 →
    ∃ s, lastCalledMiddlewareIndex s = j - 1
         ∧ Extends st s
         ∧ (invoke toCall st).1 = (invoke j s).1
         ∧ Extends (invoke j s).2 (invoke toCall st).2.
Proof.
  intros Hj Hrl.
  induction m as [|m IH]; intros toCall st Hpos Hm Hst.
  - exists st. replace toCall with j by lia.
    split; [lia|]. split; [apply Extends_refl|]. split; [done|apply Extends_refl].
  - destruct (lookup_lt_is_Some_2 middleware (Z.to_nat toCall)) as [fn Hfn]; [lia|].
    rewrite (invokeMiddleware_handler _ _ _ _ _ _ _ fn) by (done || lia).
    specialize (Hrl (Z.to_nat toCall) fn ltac:(lia) Hfn).
    rewrite Z2Nat.id in Hrl by done.
    destruct (run_Relays toCall _ Hpos Hrl
                (record (Called toCall) (setLastCalled toCall st)) eq_refl)
      as (s1 & Hs1 & Hext1 & -> & Hback1).
    destruct (IH (toCall + 1) (record (Next toCall) s1)) as (s & Hs & Hext & Hout & Hback);
      [lia|lia|rewrite lastCalled_record; lia|].
    exists s. split; [done|]. split; [|split].
    + apply (Extends_trans _ (setLastCalled toCall st));
        [apply Extends_setLastCalled; lia|].
      apply (Extends_trans _ (record (Called toCall) (setLastCalled toCall st)));
        [apply Extends_record|].
      eapply Extends_trans; [exact Hext1|].
      eapply Extends_trans; [apply Extends_record|exact Hext].
    + exact Hout.
    + eapply Extends_trans; [exact Hback|exact Hback1].
Qed.

End Relaying.

Section WholeRelaying.

Variable initialArgs : Args.
Variables context client logger : Foreign.
Variable last : option Body.
Variable middleware : list Middleware.

Local Abbreviation invoke :=
  (invokeMiddleware initialArgs context client logger (default defaultLast last) middleware).
Local Abbreviation bundle :=
  (argsFor initialArgs context client logger (default defaultLast last) middleware).
Local Abbreviation n := (Z.of_nat (length middleware)).
Local Abbreviation execution :=
  (processMiddleware middleware initialArgs context client logger last).

Lemma relayed_completion (j : nat) :
  middleware ≠ [] →
  Z.of_nat j ≤ n →
  (∀ (i : nat) fn, (i < j)%nat → middleware !! i = Some fn →
     Relays (bundle (Z.of_nat i)) (fn (bundle (Z.of_nat i)))) →
  ∃ s, lastCalledMiddlewareIndex s = Z.of_nat j - 1
       ∧ completion execution = (invoke (Z.of_nat j) s).1
       ∧ ∃ l, events execution = observed (invoke (Z.of_nat j) s).2 ++ l.
Proof.
  intros Hne Hj Hrl.
  rewrite processMiddleware_nonempty by done. simpl.
  destruct (relay_outcome initialArgs context client logger
              (default defaultLast last) middleware (Z.of_nat j) Hj) with
    (m := j) (toCall := 0) (st := initialState) as (s & Hs & _ & Hout & _ & Hlog);
    [|lia|lia|simpl; lia|].
  - intros i fn Hi. apply Hrl. lia.
  - exists s. split; [done|]. split; [done|]. exact Hlog.
Qed.

End WholeRelaying.

(** * Executions of the machine *)

(** ** The order of calls, for any chain length *)

Lemma Good_record_other_any n e st :
  isStep e = false → Good n st → Good n (record e st).
Proof.
  intros He [Hr Hp]. split; [by apply Reached_record_other|].
  rewrite observed_record. apply Preceded_snoc; [done|]. by destruct e.
Qed.

Lemma Good_step_any n i st :
  0 ≤ i ≤ n → lastCalledMiddlewareIndex st = i - 1 → Entered i (observed st) →
  Good n st → Good n (record (stepEvent n i) (setLastCalled i st)).
Proof.
  intros Hi Hlast Hent [Hr Hp]. split; [by apply Reached_step|].
  rewrite observed_record, observed_setLastCalled.
  apply Preceded_snoc; [done|]. unfold stepEvent.
  destruct (Z.ltb_spec i n); [done|]. by replace n with i by lia.
Qed.

(** Without a call of the closure bound to [i], the counter stays at or
    below [i]. *)
Lemma Good_needs_next n st i :
  Good n st → 0 ≤ i < n → Next i ∉ observed st →
  lastCalledMiddlewareIndex st ≤ i.
Proof.
  intros [Hr Hp] Hi Hnext.
  destruct (decide (lastCalledMiddlewareIndex st ≤ i)) as [|Hgt]; [done|].
  exfalso. apply Hnext.
  destruct (decide (i + 1 < n)) as [Hlt|Hge].
  - assert (Called (i + 1) ∈ observed st) as Hin
      by (apply (Reached_called_iff n); [lia|done|lia]).
    apply list_elem_of_lookup in Hin as [p Hp'].
    destruct (Hp p _ Hp') as [[_ ?]|(q & _ & Hq)]; [lia|].
    replace (i + 1 - 1) with i in Hq by lia.
    apply list_elem_of_lookup. eauto.
  - assert (CalledLast ∈ observed st) as Hin.
    { apply (Reached_calledLast_iff n); [lia|done|]. destruct Hr as [? _]. lia. }
    apply list_elem_of_lookup in Hin as [p Hp'].
    destruct (Hp p _ Hp') as [[_ ?]|(q & _ & Hq)]; [lia|].
    replace (n - 1) with i in Hq by lia.
    apply list_elem_of_lookup. eauto.
Qed.

Lemma Good_stops_without_next n st i :
  Good n st → 0 ≤ i < n → Next i ∉ observed st →
  (∀ j, i < j → Called j ∉ observed st) ∧ CalledLast ∉ observed st.
Proof.
  intros Hg Hi Hnext.
  pose proof (Good_needs_next n st i Hg Hi Hnext) as Hle.
  destruct Hg as [Hr _]. split.
  - intros j Hj Hin. apply (Reached_called n) in Hin; [lia|lia|done].
  - intros Hin. apply (Reached_calledLast n) in Hin; [lia|lia|done].
Qed.

(** ** Soundness of every configuration *)

Lemma Sound_ext n c c' :
  view c' = view c → owners c' = owners c → Async.shared c' = Async.shared c →
  Sound n c → Sound n c'.
Proof.
  intros Hv Ho Hs (Hg & Hact & Hsh & Hord).
  assert (Async.lastCalledMiddlewareIndex c' = Async.lastCalledMiddlewareIndex c)
    as Hc by (by injection Hv).
  unfold Sound. rewrite Hv, Ho, Hs, Hc. done.
Qed.

Lemma owners_setStatus a s c : owners (Async.setStatus a s c) = owners c.
Proof.
  unfold owners, Async.setStatus. simpl.
  rewrite (list_fmap_alter Async.owner _ id) by (by apply Forall_forall).
  by apply list_alter_id.
Qed.

Lemma Sound_setStatus n a s c : Sound n c → Sound n (Async.setStatus a s c).
Proof. apply Sound_ext; [done|apply owners_setStatus|done]. Qed.

Lemma Sound_setCurrent n cur c : Sound n c → Sound n (Async.setCurrent cur c).
Proof. by apply Sound_ext. Qed.

Lemma Sound_setCallers n l c : Sound n c → Sound n (Async.setCallers l c).
Proof. by apply Sound_ext. Qed.

Lemma Sound_setEnvironment n m c : Sound n c → Sound n (Async.setEnvironment m c).
Proof. by apply Sound_ext. Qed.

Lemma Sound_finish n a r c : Sound n c → Sound n (Async.finish a r c).
Proof. intros H. by apply Sound_setCurrent, Sound_setStatus. Qed.

Lemma Sound_suspend n a p k c : Sound n c → Sound n (Async.suspend a p k c).
Proof. intros H. by apply Sound_setCurrent, Sound_setStatus. Qed.

Lemma Sound_hand n a p pend c : Sound n c → Sound n (Async.hand a p pend c).
Proof.
  intros H. destruct pend; simpl; [by apply Sound_suspend|by apply Sound_setCurrent].
Qed.

Lemma Sound_record_other n e c :
  isStep e = false → Sound n c → Sound n (Async.record e c).
Proof.
  intros He (Hg & Hact & Hsh & Hord). split; [|done].
  by apply (Good_record_other_any n e (view c)).
Qed.

Lemma Sound_setShared n ckey f c :
  (∀ i, f = Async.ToClosure i →
        0 ≤ i ≤ Async.lastCalledMiddlewareIndex c ∧ i < n) →
  Sound n c → Sound n (Async.setShared (<[ckey := f]> (Async.shared c)) c).
Proof.
  intros Hf (Hg & Hact & Hsh & Hord). split; [done|]. split; [done|]. split; [|done].
  intros ckey' i. simpl. destruct (decide (ckey = ckey')) as [->|Hne].
  - rewrite lookup_insert_eq. intros [= ->]. by apply Hf.
  - rewrite lookup_insert_ne by done. apply Hsh.
Qed.

Section AsyncSound.

Variable middleware : list Async.Script.
Variable initialArgs : Args.
Variables context client logger : Foreign.
Variable last : Async.Script.

Local Abbreviation n := (Z.of_nat (length middleware)).
Local Abbreviation invoke :=
  (Async.invokeMiddleware middleware last).
Local Abbreviation argument :=
  (Async.argument initialArgs context client logger).
Local Abbreviation step :=
  (Async.step middleware initialArgs context client logger last).
Local Abbreviation exec :=
  (Async.exec middleware initialArgs context client logger last).

(** The step that enters index [toCall], in a sound configuration whose
    counter is just below. *)
Lemma Sound_enter toCall o body c (e : Event) :
  Sound n c →
  0 ≤ toCall ≤ n →
  Async.lastCalledMiddlewareIndex c = toCall - 1 →
  Entered toCall (Async.observed c) →
  e = stepEvent n toCall →
  o = (if toCall <? n then Async.Handler toCall else Async.Last) →
  Sound n (Async.spawn o body (Async.record e (Async.setLastCalled toCall c))).2.
Proof.
  intros (Hg & Hact & Hsh & Hord) Hto Hc Hent -> ->.
  assert (∀ a o', owners c !! a = Some o' → Async.indexOf n o' < toCall) as Hbelow.
  { intros a o' Ho. specialize (Hact a o' Ho). destruct o'; simpl; lia. }
  split; [|split; [|split]].
  - apply (Good_step_any n toCall (view c)); done.
  - intros a o'. unfold owners. simpl. rewrite fmap_app. simpl.
    intros Ho. apply lookup_app_Some in Ho as [Ho|[_ Ho]].
    + specialize (Hact a o' Ho). specialize (Hbelow a o' Ho).
      destruct o'; simpl in *; lia.
    + apply list_lookup_singleton_Some in Ho as [_ <-].
      destruct (Z.ltb_spec toCall n); lia.
  - intros ckey i Hk. simpl in *. specialize (Hsh ckey i Hk). lia.
  - intros a b oa ob Hab. unfold owners. simpl. rewrite fmap_app. simpl.
    intros Ha Hb.
    apply lookup_app_Some in Hb as [Hb|[Hge Hb]].
    + apply lookup_app_Some in Ha as [Ha|[Hge' _]].
      * by apply (Hord a b).
      * apply lookup_lt_Some in Hb. lia.
    + apply list_lookup_singleton_Some in Hb as [Hb <-].
      apply lookup_app_Some in Ha as [Ha|[Hge' _]]; [|lia].
      specialize (Hbelow a oa Ha).
      destruct (Z.ltb_spec toCall n); simpl; lia.
Qed.

Lemma Sound_invoke i c :
  Sound n c →
  0 ≤ i ≤ Async.lastCalledMiddlewareIndex c → i < n →
  Sound n (invoke (i + 1) (Async.record (Next i) c)).2.
Proof.
  intros Hs Hi Hin.
  pose proof (Sound_record_other n (Next i) c eq_refl Hs) as Hs'.
  unfold Async.invokeMiddleware.
  destruct (Z.geb_spec (Async.lastCalledMiddlewareIndex (Async.record (Next i) c))
              (i + 1)) as [Hdup|Hok]; [done|].
  simpl in Hok.
  assert (Entered (i + 1) (Async.observed (Async.record (Next i) c))) as Hent.
  { right. simpl. rewrite List.last_last. f_equal. lia. }
  destruct (Z.geb_spec (i + 1) n) as [Hge|Hlt].
  - apply (Sound_enter (i + 1)); try done; try (simpl; lia).
    + unfold stepEvent. by rewrite (proj2 (Z.ltb_ge _ _)) by lia.
    + by rewrite (proj2 (Z.ltb_ge _ _)) by lia.
  - destruct (lookup_lt_is_Some_2 middleware (Z.to_nat (i + 1))) as [fn Hfn]; [lia|].
    rewrite Hfn.
    apply (Sound_enter (i + 1)); try done; try (simpl; lia).
    + unfold stepEvent. by rewrite (proj2 (Z.ltb_lt _ _)) by lia.
    + by rewrite (proj2 (Z.ltb_lt _ _)) by lia.
Qed.

Lemma Sound_call a f pend c :
  Sound n c →
  (∀ i, f = Async.ToClosure i →
        0 ≤ i ≤ Async.lastCalledMiddlewareIndex c ∧ i < n) →
  Sound n (Async.call middleware last a f pend c).
Proof.
  intros Hs Hf. destruct f as [i|t r|]; simpl.
  - destruct (Hf i eq_refl) as [Hi Hin].
    pose proof (Sound_invoke i c Hs Hi Hin) as Hinv.
    destruct (invoke (i + 1) (Async.record (Next i) c)) as [p c'].
    simpl in Hinv. destruct p; [by apply Sound_setCallers|by apply Sound_hand..].
  - apply Sound_hand. by apply Sound_record_other.
  - destruct pend; [by apply Sound_setCurrent|by apply Sound_finish].
Qed.

Lemma argument_closure c a key i :
  Sound n c → argument (Async.ownerOf a c) key = Async.ToClosure i →
  0 ≤ i ≤ Async.lastCalledMiddlewareIndex c ∧ i < n.
Proof.
  intros (_ & Hact & _) Harg. unfold Async.ownerOf in Harg.
  destruct (Async.activations c !! a) as [act|] eqn:Ha; [|done].
  specialize (Hact a (Async.owner act)). unfold owners in Hact.
  rewrite list_lookup_fmap, Ha in Hact. specialize (Hact eq_refl).
  destruct (Async.owner act) as [j|]; [|done]. simpl in Harg.
  destruct (mkArgs _ _ _ _ _ !! key) as [[[?|? ?]|?]|]; try done.
  by inversion Harg; subst.
Qed.

Lemma shared_closure c ckey i :
  Sound n c → default Async.NotCallable (Async.shared c !! ckey) = Async.ToClosure i →
  0 ≤ i ≤ Async.lastCalledMiddlewareIndex c ∧ i < n.
Proof.
  intros (_ & _ & Hsh & _) H.
  destruct (Async.shared c !! ckey) as [f|] eqn:E; [|done]. simpl in H. subst f.
  by apply (Hsh ckey).
Qed.

Lemma Sound_step ch c : Sound n c → Sound n (step ch c).
Proof.
  intros Hs. unfold Async.step.
  destruct (Async.current c) as [[a s]|].
  - destruct s as [|e|t k|key k|key k|ckey akey k|ckey k|ckey k|x k]; simpl.
    + by apply Sound_finish.
    + by apply Sound_finish.
    + by apply Sound_setCurrent, Sound_record_other.
    + apply Sound_call; [done|]. intros i. by apply argument_closure.
    + apply Sound_call; [done|]. intros i. by apply argument_closure.
    + apply Sound_setCurrent, Sound_setShared; [|done].
      intros i. by apply argument_closure.
    + apply Sound_call; [done|]. intros i. by apply shared_closure.
    + apply Sound_call; [done|]. intros i. by apply shared_closure.
    + by apply Sound_suspend.
  - destruct (Async.callers c) as [|f rest].
    + destruct ch as [|a|x r]; [done| |].
      * destruct (Async.activations c !! a) as [[o [|p k|r]]|]; try done.
        destruct (Async.settled p c); [|done].
        by apply Sound_setCurrent, Sound_setStatus.
      * destruct (Async.environment c !! x); [done|].
        by apply Sound_setEnvironment.
    + by apply Sound_hand, Sound_setCallers.
Qed.

Lemma Sound_start :
  Sound n (Async.start middleware last).
Proof.
  unfold Async.start. destruct (Z.leb_spec n 0) as [Hle|Hgt].
  - assert (n = 0) as Hn by lia.
    split; [|split; [|split]].
    + split; [split|].
      * simpl. lia.
      * simpl. by rewrite Hn.
      * intros p e Hp. destruct p; [|done]. simpl in Hp. inversion Hp; subst.
        left. split; [done|lia].
    + intros a o Ho. destruct a; [|done]. simpl in Ho. inversion Ho; subst.
      simpl. lia.
    + intros ckey i Hk. simpl in Hk. by rewrite lookup_empty in Hk.
    + intros a b oa ob Hab Ha Hb. destruct b; [lia|done].
  - unfold Async.invokeMiddleware. simpl.
    destruct (Z.geb_spec 0 n) as [?|_]; [lia|].
    destruct (lookup_lt_is_Some_2 middleware (Z.to_nat 0)) as [fn Hfn]; [lia|].
    rewrite Hfn.
    split; [|split; [|split]].
    + pose proof (Good_step_any n 0
                    {| lastCalledMiddlewareIndex := -1; observed := [] |}) as Hstep.
      unfold stepEvent in Hstep. rewrite (proj2 (Z.ltb_lt 0 n)) in Hstep by lia.
      apply Hstep; [lia|done|by left|].
      split; [split|]; [simpl; lia|done|apply Preceded_nil].
    + intros a o Ho. destruct a; [|done]. simpl in Ho. inversion Ho; subst.
      simpl. lia.
    + intros ckey i Hk. simpl in Hk. by rewrite lookup_empty in Hk.
    + intros a b oa ob Hab Ha Hb. destruct b; [lia|done].
Qed.

Lemma Sound_exec schedule : Sound n (exec schedule).
Proof.
  unfold Async.exec.
  induction schedule as [|ch schedule IH] using rev_ind; [apply Sound_start|].
  rewrite foldl_snoc. by apply Sound_step.
Qed.

End AsyncSound.

(** ** Executions in which every call is awaited: one chain of activations *)

Lemma statuses_setStatus a s c :
  statuses (Async.setStatus a s c) = alter (λ _, s) a (statuses c).
Proof.
  unfold statuses, Async.setStatus. simpl.
  by rewrite (list_fmap_alter Async.status _ (λ _, s)) by (by apply Forall_forall).
Qed.

Lemma Stacked_statuses c c' bound fs :
  (∀ a, (a < bound)%nat → statuses c' !! a = statuses c !! a) →
  Stacked c bound fs → Stacked c' bound fs.
Proof.
  revert bound. induction fs as [|f rest IH]; intros bound Hsame; [done|].
  simpl. intros (Hlt & Hle & Hact & Hrest).
  split; [done|]. split; [done|]. split.
  - rewrite Hsame by lia. done.
  - apply IH; [|done]. intros a Ha. apply Hsame. lia.
Qed.

Lemma Stacked_mono c bound bound' fs :
  (bound ≤ bound')%nat → Stacked c bound fs → Stacked c bound' fs.
Proof.
  intros Hle. destruct fs as [|f rest]; [done|]. simpl.
  intros (Hlt & Hle' & Hact & Hrest). repeat split; try done. lia.
Qed.

Lemma Stacked_in c bound fs f :
  Stacked c bound fs → f ∈ fs →
  (Async.caller f < Async.callee f ≤ bound)%nat
  ∧ statuses c !! Async.caller f = Some Async.Active.
Proof.
  revert bound. induction fs as [|g rest IH]; intros bound Hst Hin.
  - by apply not_elem_of_nil in Hin.
  - simpl in Hst. destruct Hst as (Hlt & Hle & Hact & Hrest).
    apply elem_of_cons in Hin as [->|Hin]; [done|].
    destruct (IH _ Hrest Hin) as [[? ?] ?]. split; [lia|done].
Qed.

(** While an activation runs, every younger one has settled. *)
Lemma Nested_top c a s :
  Nested c → Async.current c = Some (a, s) →
  ∀ b, (a < b)%nat → ¬ unsettled c b.
Proof.
  intros (Hcur & Hst & Hchain) Hc b Hab Hb.
  rewrite Hc in Hst. specialize (Hcur a s Hc).
  assert (unsettled c a) as Ha by (exists Async.Active; done).
  destruct (Hchain a b Hab Ha Hb) as (b' & Hb' & _ & [[k Hk]|(f & Hf & Hfa & Hfb)]).
  - congruence.
  - destruct (Stacked_in _ _ _ _ Hst Hf) as [[? ?] _]. lia.
Qed.

Lemma unsettled_lt c a : unsettled c a → (a < length (statuses c))%nat.
Proof. intros (s & Hs & _). by eapply lookup_lt_Some. Qed.

(** The running activation goes on with its script. *)
Lemma Nested_keep c c' a s s' :
  Nested c → Async.current c = Some (a, s) →
  statuses c' = statuses c → Async.callers c' = Async.callers c →
  Async.current c' = Some (a, s') → Nested c'.
Proof.
  intros (Hcur & Hst & Hchain) Hc Hs Hcs Hc'. rewrite Hc in Hst.
  unfold Nested, unsettled, waitsOn. rewrite Hs, Hcs, Hc'.
  split; [|split].
  - intros a0 s0 [= <- <-]. by eapply Hcur.
  - eapply Stacked_statuses; [|done]. intros. by rewrite Hs.
  - apply Hchain.
Qed.

(** Nothing changes but the promises of the environment. *)
Lemma Nested_same c c' :
  Nested c → statuses c' = statuses c → Async.callers c' = Async.callers c →
  Async.current c' = Async.current c → Nested c'.
Proof.
  intros (Hcur & Hst & Hchain) Hs Hcs Hc'.
  unfold Nested, unsettled, waitsOn. rewrite Hs, Hcs, Hc'.
  split; [done|]. split; [|done].
  eapply Stacked_statuses; [|done]. intros. by rewrite Hs.
Qed.

(** The running activation settles, or suspends on a promise that is not
    that of an activation. *)
Lemma Nested_leave c c' a s st :
  Nested c → Async.current c = Some (a, s) →
  (∀ b k, st ≠ Async.Waiting (Async.OfActivation b) k) →
  st ≠ Async.Active →
  statuses c' = alter (λ _, st) a (statuses c) →
  Async.callers c' = Async.callers c →
  Async.current c' = None → Nested c'.
Proof.
  intros HN Hc Hst Hst' Hs Hcs Hc'.
  pose proof (Nested_top c a s HN Hc) as Htop.
  destruct HN as (Hcur & Hstk & Hchain). rewrite Hc in Hstk.
  specialize (Hcur a s Hc).
  assert (∀ b, b ≠ a → statuses c' !! b = statuses c !! b) as Hne.
  { intros b Hb. rewrite Hs. by apply list_lookup_alter_ne. }
  assert (statuses c' !! a = Some st) as Heq.
  { rewrite Hs, list_lookup_alter_eq, Hcur. done. }
  assert (∀ b, unsettled c' b → unsettled c b) as Hun.
  { intros b (s0 & Hs0 & Hr). destruct (decide (b = a)) as [->|Hb].
    - exists Async.Active. done.
    - exists s0. by rewrite <- Hne. }
  split; [|split].
  - intros a0 s0. by rewrite Hc'.
  - rewrite Hc', Hcs.
    eapply Stacked_mono; [|eapply Stacked_statuses; [|exact Hstk]].
    + rewrite Hs, length_alter. apply lookup_lt_Some in Hcur. lia.
    + intros b Hb. apply Hne. lia.
  - intros a1 b1 Hab Ha1 Hb1.
    assert (b1 ≤ a)%nat as Hb1a.
    { destruct (decide (b1 ≤ a)%nat); [done|]. exfalso.
      apply (Htop b1); [lia|by apply Hun]. }
    assert (a1 ≠ a) as Ha1a by lia.
    destruct (decide (b1 = a)) as [->|Hb1ne].
    + (* the chain of [a1] ended at [a], which is still unsettled or not *)
      destruct (Hchain a1 a Hab (Hun _ Ha1)) as (b' & Hb' & Hub' & Hw).
      { exists Async.Active. done. }
      exists b'. split; [done|]. split.
      * destruct (decide (b' = a)) as [->|Hb'a]; [done|].
        destruct Hub' as (s0 & Hs0 & Hr). exists s0. by rewrite Hne.
      * destruct Hw as [[k Hk]|(f & Hf & Hfa & Hfb)].
        -- left. exists k. by rewrite Hne.
        -- right. exists f. by rewrite Hcs.
    + destruct (Hchain a1 b1 Hab (Hun _ Ha1) (Hun _ Hb1)) as (b' & Hb' & Hub' & Hw).
      exists b'. split; [done|]. split.
      * destruct Hub' as (s0 & Hs0 & Hr). exists s0. rewrite Hne by lia. done.
      * destruct Hw as [[k Hk]|(f & Hf & Hfa & Hfb)].
        -- left. exists k. by rewrite Hne.
        -- right. exists f. by rewrite Hcs.
Qed.

(** The running activation calls an async function, which starts running. *)
Lemma Nested_enter c c' a s pend body :
  Nested c → Async.current c = Some (a, s) →
  statuses c' = statuses c ++ [Async.Active] →
  Async.callers c' = Async.mkFrame a (length (statuses c)) pend :: Async.callers c →
  Async.current c' = Some (length (statuses c), body) → Nested c'.
Proof.
  intros HN Hc Hs Hcs Hc'.
  pose proof (Nested_top c a s HN Hc) as Htop.
  destruct HN as (Hcur & Hstk & Hchain). rewrite Hc in Hstk.
  specialize (Hcur a s Hc).
  pose proof (lookup_lt_Some _ _ _ Hcur) as Halt.
  assert (∀ b, (b < length (statuses c))%nat → statuses c' !! b = statuses c !! b)
    as Hold.
  { intros b Hb. rewrite Hs. by apply lookup_app_l. }
  assert (statuses c' !! length (statuses c) = Some Async.Active) as Hnew.
  { rewrite Hs. rewrite lookup_app_r by lia. by rewrite Nat.sub_diag. }
  assert (∀ b, unsettled c' b → b ≠ length (statuses c) → unsettled c b) as Hun.
  { intros b (s0 & Hs0 & Hr) Hb.
    assert (b < length (statuses c))%nat.
    { apply lookup_lt_Some in Hs0. rewrite Hs, length_app in Hs0. simpl in Hs0. lia. }
    exists s0. by rewrite <- Hold. }
  assert (∀ b, unsettled c b → unsettled c' b) as Hun'.
  { intros b Hb. pose proof (unsettled_lt _ _ Hb).
    destruct Hb as (s0 & Hs0 & Hr). exists s0. by rewrite Hold. }
  assert (∀ a1 b', waitsOn c a1 b' → waitsOn c' a1 b') as Hw.
  { intros a1 b' [[k Hk]|(f & Hf & Hfa & Hfb)].
    - left. exists k. rewrite Hold; [done|]. by eapply lookup_lt_Some.
    - right. exists f. rewrite Hcs. split; [|done]. by apply elem_of_cons; right. }
  split; [|split].
  - intros a0 s0. rewrite Hc'. by intros [= <- <-].
  - rewrite Hc', Hcs. simpl. split; [done|]. split; [done|]. split.
    + by rewrite Hold.
    + eapply Stacked_statuses; [|exact Hstk]. intros b Hb. apply Hold. lia.
  - intros a1 b1 Hab Ha1 Hb1.
    destruct (decide (b1 = length (statuses c))) as [->|Hb1n].
    + assert (a1 ≠ length (statuses c)) as Ha1n by lia.
      pose proof (Hun _ Ha1 Ha1n) as Ha1c.
      destruct (decide (a1 = a)) as [->|Ha1a].
      * exists (length (statuses c)). split; [lia|]. split; [done|].
        right. eexists. rewrite Hcs. split; [by apply elem_of_cons; left|done].
      * assert (a1 < a)%nat as Hlt.
        { destruct (decide (a1 < a)%nat); [done|]. exfalso.
          apply (Htop a1); [lia|done]. }
        destruct (Hchain a1 a Hlt Ha1c) as (b' & Hb' & Hub' & Hwb').
        { exists Async.Active. done. }
        exists b'. split; [lia|]. split; [by apply Hun'|by apply Hw].
    + assert (a1 ≠ length (statuses c)) as Ha1n.
      { pose proof Hb1 as (s0 & Hs0 & _).
        apply lookup_lt_Some in Hs0. rewrite Hs, length_app in Hs0.
        simpl in Hs0. lia. }
      destruct (Hchain a1 b1 Hab (Hun _ Ha1 Ha1n) (Hun _ Hb1 Hb1n))
        as (b' & Hb' & Hub' & Hwb').
      exists b'. split; [done|]. split; [by apply Hun'|by apply Hw].
Qed.

(** A call returns to a caller that awaits its promise. *)
Lemma Nested_pop c c' f rest k :
  Nested c → Async.current c = None → Async.callers c = f :: rest →
  statuses c' =
    alter (λ _, Async.Waiting (Async.OfActivation (Async.callee f)) k)
          (Async.caller f) (statuses c) →
  Async.callers c' = rest →
  Async.current c' = None → Nested c'.
Proof.
  intros (Hcur & Hstk & Hchain) Hc Hcs Hs Hcs' Hc'.
  rewrite Hc, Hcs in Hstk. simpl in Hstk.
  destruct Hstk as (Hlt & Hle & Hact & Hrest).
  assert (∀ b, b ≠ Async.caller f → statuses c' !! b = statuses c !! b) as Hne.
  { intros b Hb. rewrite Hs. by apply list_lookup_alter_ne. }
  assert (statuses c' !! Async.caller f =
            Some (Async.Waiting (Async.OfActivation (Async.callee f)) k)) as Heq.
  { by rewrite Hs, list_lookup_alter_eq, Hact. }
  assert (∀ b, unsettled c' b ↔ unsettled c b) as Hun.
  { intros b. destruct (decide (b = Async.caller f)) as [->|Hb].
    - split; intros _.
      + exists Async.Active. done.
      + eexists. split; [exact Heq|done].
    - unfold unsettled. by rewrite Hne. }
  split; [|split].
  - intros a0 s0. by rewrite Hc'.
  - rewrite Hc', Hcs'.
    eapply Stacked_mono; [|eapply Stacked_statuses; [|exact Hrest]].
    + rewrite Hs, length_alter. apply lookup_lt_Some in Hact. lia.
    + intros b Hb. apply Hne. lia.
  - intros a1 b1 Hab Ha1 Hb1.
    destruct (Hchain a1 b1 Hab (proj1 (Hun _) Ha1) (proj1 (Hun _) Hb1))
      as (b' & Hb' & Hub' & Hw).
    exists b'. split; [done|]. split; [by apply Hun|].
    destruct Hw as [[k0 Hk0]|(g & Hg & Hga & Hgb)].
    + left. exists k0. rewrite Hne; [done|]. intros ->. congruence.
    + rewrite Hcs in Hg. apply elem_of_cons in Hg as [->|Hg].
      * left. exists k. by subst.
      * right. exists g. by rewrite Hcs'.
Qed.

(** An activation whose awaited promise has settled resumes. *)
Lemma Nested_resume c c' a p k s' :
  Nested c → Async.current c = None → Async.callers c = [] →
  statuses c !! a = Some (Async.Waiting p k) →
  (∀ b, p = Async.OfActivation b → ¬ unsettled c b) →
  statuses c' = alter (λ _, Async.Active) a (statuses c) →
  Async.callers c' = [] →
  Async.current c' = Some (a, s') → Nested c'.
Proof.
  intros (Hcur & Hstk & Hchain) Hc Hcs Ha Hp Hs Hcs' Hc'.
  assert (∀ b, b ≠ a → statuses c' !! b = statuses c !! b) as Hne.
  { intros b Hb. rewrite Hs. by apply list_lookup_alter_ne. }
  assert (statuses c' !! a = Some Async.Active) as Heq.
  { by rewrite Hs, list_lookup_alter_eq, Ha. }
  assert (∀ b, unsettled c' b ↔ unsettled c b) as Hun.
  { intros b. destruct (decide (b = a)) as [->|Hb].
    - split; intros _.
      + eexists. split; [exact Ha|done].
      + exists Async.Active. done.
    - unfold unsettled. by rewrite Hne. }
  split; [|split].
  - intros a0 s0. rewrite Hc'. by intros [= <- <-].
  - by rewrite Hcs'.
  - intros a1 b1 Hab Ha1 Hb1.
    destruct (Hchain a1 b1 Hab (proj1 (Hun _) Ha1) (proj1 (Hun _) Hb1))
      as (b' & Hb' & Hub' & Hw).
    destruct Hw as [[k0 Hk0]|(g & Hg & _)].
    + destruct (decide (a1 = a)) as [->|Ha1a].
      * exfalso. rewrite Ha in Hk0. inversion Hk0; subst.
        by apply (Hp b').
      * exists b'. split; [done|]. split; [by apply Hun|].
        left. exists k0. by rewrite Hne.
    + rewrite Hcs in Hg. by apply not_elem_of_nil in Hg.
Qed.

Lemma Moves_Nested c c' : Nested c → Moves c c' → Nested c'.
Proof.
  intros HN [Hs Hcs Hc|a s s' Hc Hd Hs Hcs Hc'|a s st Hc H1 H2 H3 Hs Hcs Hc'
            |a s k body Hc Hk Hb Hs Hcs Hc'|f rest k Hc Hcs Hp Hs Hcs' Hc'
            |a p k r Hc Hcs Ha Hp Hs Hcs' Hc'].
  - by apply (Nested_same c).
  - by apply (Nested_keep c c' a s s').
  - by apply (Nested_leave c c' a s st).
  - by apply (Nested_enter c c' a s (Async.ThenAwait k) body).
  - by apply (Nested_pop c c' f rest k).
  - by apply (Nested_resume c c' a p k (k r)).
Qed.

Lemma Moves_DropFree c c' : DropFreeConfig c → Moves c c' → DropFreeConfig c'.
Proof.
  intros (Hcur & Hwait & Hfr)
    [Hs Hcs Hc|a s s' Hc Hd Hs Hcs Hc'|a s st Hc H1 H2 H3 Hs Hcs Hc'
    |a s k body Hc Hk Hb Hs Hcs Hc'|f rest k Hc Hcs Hp Hs Hcs' Hc'
    |a p k r Hc Hcs Ha Hp Hs Hcs' Hc'];
    unfold DropFreeConfig.
  - by rewrite Hs, Hcs, Hc.
  - rewrite Hs, Hcs, Hc'. split; [|done]. by intros a0 s0 [= <- <-].
  - rewrite Hs, Hcs, Hc'. split; [done|]. split; [|done].
    intros a0 p k. rewrite list_lookup_alter. case_decide as Ha0.
    + intros Hl. destruct (statuses c !! a); [|done]. simpl in Hl.
      inversion Hl as [Hst]. by apply (H3 p k).
    + apply Hwait.
  - rewrite Hs, Hcs, Hc'. split; [by intros a0 s0 [= <- <-]|]. split.
    + intros a0 p k0 Hl. apply lookup_app_Some in Hl as [Hl|[_ Hl]].
      * by apply (Hwait a0 p).
      * by apply list_lookup_singleton_Some in Hl as [_ ?].
    + intros f Hf. apply elem_of_cons in Hf as [->|Hf]; [|by apply Hfr].
      exists k. done.
  - rewrite Hs, Hcs', Hc'. split; [done|].
    destruct (Hfr f) as (k' & Hk' & Hdf); [rewrite Hcs; by apply elem_of_cons; left|].
    assert (k' = k) as -> by congruence.
    split.
    + intros a0 p k0. rewrite list_lookup_alter. case_decide as Ha0.
      * intros Hl. destruct (statuses c !! Async.caller f); [|done]. simpl in Hl.
        by inversion Hl; subst.
      * apply Hwait.
    + intros g Hg. apply Hfr. rewrite Hcs. by apply elem_of_cons; right.
  - rewrite Hs, Hcs', Hc'. split; [|split].
    + intros a0 s0 [= <- <-]. by apply (Hwait a p).
    + intros a0 p0 k0. rewrite list_lookup_alter. case_decide as Ha0.
      * intros Hl. destruct (statuses c !! a); [|done]. done.
      * apply Hwait.
    + intros g Hg. by apply not_elem_of_nil in Hg.
Qed.

Section AsyncNested.

Variable middleware : list Async.Script.
Variable initialArgs : Args.
Variables context client logger : Foreign.
Variable last : Async.Script.

Hypothesis middleware_await : Forall Async.DropFree middleware.
Hypothesis last_await : Async.DropFree last.

Local Abbreviation step :=
  (Async.step middleware initialArgs context client logger last).
Local Abbreviation exec :=
  (Async.exec middleware initialArgs context client logger last).

Lemma length_statuses c : length (statuses c) = length (Async.activations c).
Proof. apply length_fmap. Qed.

Lemma Moves_finish a s r c :
  Async.current c = Some (a, s) → Moves c (Async.finish a r c).
Proof.
  intros Hc. apply (mv_leave c _ a s (Async.Settled r)); try done.
  unfold Async.finish. apply (statuses_setStatus a (Async.Settled r) c).
Qed.

Lemma Moves_suspend a s p k c c0 :
  Async.current c = Some (a, s) →
  statuses c0 = statuses c → Async.callers c0 = Async.callers c →
  (∀ b, p ≠ Async.OfActivation b) → (∀ r, Async.DropFree (k r)) →
  Moves c (Async.suspend a p k c0).
Proof.
  intros Hc Hs Hcs Hp Hk. apply (mv_leave c _ a s (Async.Waiting p k)); try done.
  - intros b k0 [= Hb _]. by apply (Hp b).
  - intros p0 k0 [= _ <-]. done.
  - rewrite <- Hs. apply (statuses_setStatus a (Async.Waiting p k) c0).
Qed.

Lemma Moves_spawn a s k o body c c0 :
  Async.current c = Some (a, s) →
  (∀ r, Async.DropFree (k r)) → Async.DropFree body →
  Async.activations c0 = Async.activations c →
  Async.callers c0 = Async.callers c →
  Moves c (Async.setCallers
             (Async.mkFrame a (length (Async.activations c0)) (Async.ThenAwait k)
                :: Async.callers (Async.spawn o body c0).2)
             (Async.spawn o body c0).2).
Proof.
  intros Hc Hk Hb Hacts Hcs.
  apply (mv_enter c _ a s k body); try done.
  - unfold statuses. simpl. by rewrite Hacts, fmap_app.
  - simpl. by rewrite Hcs, Hacts, length_statuses.
  - simpl. by rewrite Hacts, length_statuses.
Qed.

Lemma Moves_call a s f k c :
  Async.current c = Some (a, s) → (∀ r, Async.DropFree (k r)) →
  Moves c (Async.call middleware last a f (Async.ThenAwait k) c).
Proof.
  intros Hc Hk. destruct f as [i|t r|]; simpl.
  - unfold Async.invokeMiddleware.
    destruct (Async.lastCalledMiddlewareIndex (Async.record (Next i) c) >=? i + 1).
    { by apply (Moves_suspend a s). }
    destruct (i + 1 >=? Z.of_nat (length middleware)).
    { by apply (Moves_spawn a s). }
    destruct (middleware !! Z.to_nat (i + 1)) as [fn|] eqn:Hfn.
    + apply (Moves_spawn a s); try done.
      rewrite Forall_forall in middleware_await. apply middleware_await.
      apply list_elem_of_lookup. eauto.
    + by apply (Moves_suspend a s).
  - by apply (Moves_suspend a s).
  - by apply (mv_keep c _ a s (k (Rejected notCallable))).
Qed.

Lemma Moves_step ch c : DropFreeConfig c → Moves c (step ch c).
Proof.
  intros (Hcur & Hwait & Hfr). unfold Async.step.
  destruct (Async.current c) as [[a s]|] eqn:Hc.
  - specialize (Hcur a s eq_refl).
    destruct Hcur as [|e|t k Hk|key k Hk|ckey akey k Hk|ckey k Hk|x k Hk]; simpl.
    + by apply (Moves_finish a Async.Ret).
    + by apply (Moves_finish a (Async.Raise e)).
    + by apply (mv_keep c _ a (Async.Do t k) k).
    + by apply (Moves_call a (Async.AwaitArg key k)).
    + by apply (mv_keep c _ a (Async.Share ckey akey k) k).
    + by apply (Moves_call a (Async.AwaitShared ckey k)).
    + by apply (Moves_suspend a (Async.AwaitEnv x k)).
  - destruct (Async.callers c) as [|f rest] eqn:Hcs.
    + destruct ch as [|a|x r].
      * by apply mv_same.
      * destruct (Async.activations c !! a) as [[o st]|] eqn:Ha; [|by apply mv_same].
        destruct st as [|p k|r]; [by apply mv_same| |by apply mv_same].
        destruct (Async.settled p c) as [r|] eqn:Hp; [|by apply mv_same].
        apply (mv_resume c _ a p k r); try done.
        -- unfold statuses. by rewrite list_lookup_fmap, Ha.
        -- intros b -> (s0 & Hs0 & Hr). simpl in Hp. unfold statuses in Hs0.
           rewrite list_lookup_fmap in Hs0.
           destruct (Async.activations c !! b) as [[ob stb]|]; [|done].
           simpl in Hs0. inversion Hs0; subst.
           destruct s0; try done. by apply (Hr r0).
        -- apply (statuses_setStatus a Async.Active c).
      * destruct (Async.environment c !! x); by apply mv_same.
    + destruct (Hfr f) as (k & Hk & Hdf); [by apply elem_of_cons; left|].
      rewrite Hk. simpl.
      apply (mv_pop c _ f rest k); try done.
      apply (statuses_setStatus (Async.caller f) _ (Async.setCallers rest c)).
Qed.

Lemma Orderly_start :
  DropFreeConfig (Async.start middleware last) ∧ Nested (Async.start middleware last).
Proof.
  assert (∀ body c0,
            Async.DropFree body →
            Async.activations c0 = [] → Async.callers c0 = [] →
            DropFreeConfig (Async.spawn (Async.Handler 0) body c0).2
            ∧ Nested (Async.spawn (Async.Handler 0) body c0).2
            ∧ DropFreeConfig (Async.spawn Async.Last body c0).2
            ∧ Nested (Async.spawn Async.Last body c0).2) as Hspawn.
  { intros body c0 Hb Hacts Hcs.
    assert (∀ o, DropFreeConfig (Async.spawn o body c0).2
                 ∧ Nested (Async.spawn o body c0).2) as H.
    { intros o. split.
      - split; [|split].
        + simpl. by intros a s [= <- <-].
        + unfold statuses. simpl. rewrite Hacts. simpl.
          intros a p k Hl. destruct a; [done|]. done.
        + simpl. rewrite Hcs. intros f Hf. by apply not_elem_of_nil in Hf.
      - split; [|split].
        + unfold statuses. simpl. rewrite Hacts. by intros a s [= <- <-].
        + simpl. by rewrite Hcs.
        + intros a b Hab _ (s0 & Hs0 & _). unfold statuses in Hs0. simpl in Hs0.
          rewrite Hacts in Hs0. destruct b; [lia|done]. }
    destruct (H (Async.Handler 0)), (H Async.Last). done. }
  unfold Async.start. destruct (Z.of_nat (length middleware) <=? 0).
  - destruct (Hspawn last (Async.record CalledLast (Async.emptyConfig 0)))
      as (_ & _ & ? & ?); done.
  - unfold Async.invokeMiddleware. simpl.
    destruct (0 >=? Z.of_nat (length middleware)).
    + destruct (Hspawn last
                  (Async.record CalledLast
                     (Async.setLastCalled 0 (Async.emptyConfig (-1)))))
        as (_ & _ & ? & ?); done.
    + destruct (middleware !! Z.to_nat 0) as [fn|] eqn:Hfn.
      * destruct (Hspawn fn
                    (Async.record (Called 0)
                       (Async.setLastCalled 0 (Async.emptyConfig (-1)))))
          as (? & ? & _ & _); try done.
        rewrite Forall_forall in middleware_await. apply middleware_await.
        apply list_elem_of_lookup. eauto.
      * simpl. split.
        -- split; [done|]. split.
           ++ intros a p k Hl. by destruct a.
           ++ intros f Hf. by apply not_elem_of_nil in Hf.
        -- split; [done|]. split; [done|].
           intros a b _ _ (s0 & Hs0 & _). by destruct b.
Qed.

Lemma Orderly_exec schedule :
  DropFreeConfig (exec schedule) ∧ Nested (exec schedule).
Proof.
  unfold Async.exec.
  induction schedule as [|ch schedule [IH1 IH2]] using rev_ind; [apply Orderly_start|].
  rewrite foldl_snoc.
  pose proof (Moves_step ch _ IH1) as Hm.
  split; [by eapply Moves_DropFree|by eapply Moves_Nested].
Qed.

End AsyncNested.

(** ** What the invariants give for whole executions *)

Section AsyncWhole.

Variable middleware : list Async.Script.
Variable initialArgs : Args.
Variables context client logger : Foreign.
Variable last : Async.Script.

Local Abbreviation n := (Z.of_nat (length middleware)).
Local Abbreviation exec :=
  (Async.exec middleware initialArgs context client logger last).

(** Nothing beyond index [i] is called as long as the closure bound to [i]
    has not been called, by whoever holds it. *)
Lemma exec_stops_without_next schedule i :
  0 ≤ i < n →
  Next i ∉ Async.observed (exec schedule) →
  (∀ j, i < j → Called j ∉ Async.observed (exec schedule))
  ∧ CalledLast ∉ Async.observed (exec schedule).
Proof.
  intros Hi Hnext.
  destruct (Sound_exec middleware initialArgs context client logger last schedule)
    as (Hg & _).
  by apply (Good_stops_without_next n (view (exec schedule)) i).
Qed.

(** Every activation was called at an index that the counter has reached,
    and entering that index or a lower one again is refused. *)
Lemma exec_started schedule a o :
  owners (exec schedule) !! a = Some o →
  Async.indexOf n o ≤ Async.lastCalledMiddlewareIndex (exec schedule).
Proof.
  intros Ho.
  destruct (Sound_exec middleware initialArgs context client logger last schedule)
    as (_ & Hact & _).
  specialize (Hact a o Ho). destruct o; simpl; lia.
Qed.

Lemma invokeMiddleware_refused toCall c :
  toCall ≤ Async.lastCalledMiddlewareIndex c →
  Async.invokeMiddleware middleware last toCall c =
    (Async.Already (Rejected (MiddlewareNextError "next() called multiple times")), c).
Proof.
  intros H. unfold Async.invokeMiddleware.
  destruct (Z.geb_spec (Async.lastCalledMiddlewareIndex c) toCall); [done|lia].
Qed.

(** A step that passes the check returns the promise of the function it
    calls, which starts with the counter at the index of the step. *)
Lemma invokeMiddleware_enters_handler toCall c fn :
  Async.lastCalledMiddlewareIndex c < toCall → 0 ≤ toCall →
  middleware !! Z.to_nat toCall = Some fn →
  Async.invokeMiddleware middleware last toCall c =
    (Async.OfActivation (length (Async.activations c)),
     Async.mkConfig toCall (Async.observed c ++ [Called toCall]) (Async.shared c)
       (Async.activations c ++ [Async.mkActivation (Async.Handler toCall) Async.Active])
       (Async.environment c) (Some (length (Async.activations c), fn))
       (Async.callers c)).
Proof.
  intros Hlt Hpos Hfn.
  pose proof (lookup_lt_Some _ _ _ Hfn) as Hlen.
  unfold Async.invokeMiddleware.
  destruct (Z.geb_spec (Async.lastCalledMiddlewareIndex c) toCall); [lia|].
  destruct (Z.geb_spec toCall (Z.of_nat (length middleware))); [lia|].
  by rewrite Hfn.
Qed.

Lemma invokeMiddleware_enters_last toCall c :
  Async.lastCalledMiddlewareIndex c < toCall → n ≤ toCall →
  Async.invokeMiddleware middleware last toCall c =
    (Async.OfActivation (length (Async.activations c)),
     Async.mkConfig toCall (Async.observed c ++ [CalledLast]) (Async.shared c)
       (Async.activations c ++ [Async.mkActivation Async.Last Async.Active])
       (Async.environment c) (Some (length (Async.activations c), last))
       (Async.callers c)).
Proof.
  intros Hlt Hge.
  unfold Async.invokeMiddleware.
  destruct (Z.geb_spec (Async.lastCalledMiddlewareIndex c) toCall); [lia|].
  destruct (Z.geb_spec toCall (Z.of_nat (length middleware))); [done|lia].
Qed.

(** While an activation runs in an execution where every call is awaited,
    every activation called at a higher index has settled. *)
Lemma exec_nested schedule a s b ob :
  Forall Async.DropFree middleware → Async.DropFree last →
  Async.current (exec schedule) = Some (a, s) →
  owners (exec schedule) !! b = Some ob →
  Async.indexOf n (Async.ownerOf a (exec schedule)) < Async.indexOf n ob →
  ∃ r, statuses (exec schedule) !! b = Some (Async.Settled r).
Proof.
  intros Hmw Hlast Hcur Hb Hidx.
  destruct (Orderly_exec middleware initialArgs context client logger last
              Hmw Hlast schedule) as [_ HN].
  destruct (Sound_exec middleware initialArgs context client logger last schedule)
    as (_ & _ & _ & Hord).
  pose proof (Nested_top _ a s HN Hcur) as Htop.
  destruct HN as (Hact & _ & _). specialize (Hact a s Hcur).
  assert (owners (exec schedule) !! a = Some (Async.ownerOf a (exec schedule))) as Ha.
  { unfold owners, Async.ownerOf. unfold statuses in Hact.
    rewrite list_lookup_fmap. rewrite list_lookup_fmap in Hact.
    by destruct (Async.activations (exec schedule) !! a). }
  assert (a < b)%nat as Hab.
  { destruct (decide (a < b)%nat) as [|Hge]; [done|]. exfalso.
    destruct (decide (b = a)) as [->|Hne].
    - rewrite Ha in Hb. inversion Hb; subst. lia.
    - pose proof (Hord b a ob _ ltac:(lia) Hb Ha). lia. }
  destruct (statuses (exec schedule) !! b) as [sb|] eqn:Hsb.
  - destruct sb as [|p k|r]; [| |by eauto]; exfalso; apply (Htop b Hab);
      eexists; (split; [exact Hsb|done]).
  - unfold owners in Hb. unfold statuses in Hsb.
    rewrite list_lookup_fmap in Hb. rewrite list_lookup_fmap in Hsb.
    by destruct (Async.activations (exec schedule) !! b).
Qed.

End AsyncWhole.
(** ** The moves of the machine, whatever the scripts *)

Lemma settled_statuses a c r :
  Async.settled (Async.OfActivation a) c = Some r
  ↔ statuses c !! a = Some (Async.Settled r).
Proof.
  unfold statuses. simpl. rewrite list_lookup_fmap.
  destruct (Async.activations c !! a) as [[o [|p k|r']]|]; simpl; split; congruence.
Qed.

Lemma ownerOf_owners c a o : owners c !! a = Some o → Async.ownerOf a c = o.
Proof.
  unfold owners, Async.ownerOf. rewrite list_lookup_fmap.
  destruct (Async.activations c !! a); simpl; congruence.
Qed.

Section AsyncActs.

Variable middleware : list Async.Script.
Variable initialArgs : Args.
Variables context client logger : Foreign.
Variable last : Async.Script.

Local Abbreviation n := (Z.of_nat (length middleware)).
Local Abbreviation step :=
  (Async.step middleware initialArgs context client logger last).

Lemma Acts_finish a s r c c0 :
  Async.current c = Some (a, s) →
  statuses c0 = statuses c → owners c0 = owners c →
  Async.callers c0 = Async.callers c →
  Async.lastCalledMiddlewareIndex c0 = Async.lastCalledMiddlewareIndex c →
  Acts c (Async.finish a r c0).
Proof.
  intros Hc Hs Ho Hcs Hn. apply (act_leave c _ a s (Async.Settled r)); try done.
  - rewrite <- Hs. apply (statuses_setStatus a (Async.Settled r) c0).
  - rewrite <- Ho. apply (owners_setStatus a (Async.Settled r) c0).
Qed.

Lemma Acts_suspend a s p k c c0 :
  Async.current c = Some (a, s) →
  statuses c0 = statuses c → owners c0 = owners c →
  Async.callers c0 = Async.callers c →
  Async.lastCalledMiddlewareIndex c0 = Async.lastCalledMiddlewareIndex c →
  Acts c (Async.suspend a p k c0).
Proof.
  intros Hc Hs Ho Hcs Hn. apply (act_leave c _ a s (Async.Waiting p k)); try done.
  - rewrite <- Hs. apply (statuses_setStatus a (Async.Waiting p k) c0).
  - rewrite <- Ho. apply (owners_setStatus a (Async.Waiting p k) c0).
Qed.

Lemma Acts_hand a s p pend c c0 :
  Async.current c = Some (a, s) →
  statuses c0 = statuses c → owners c0 = owners c →
  Async.callers c0 = Async.callers c →
  Async.lastCalledMiddlewareIndex c0 = Async.lastCalledMiddlewareIndex c →
  Acts c (Async.hand a p pend c0).
Proof.
  intros Hc Hs Ho Hcs Hn. destruct pend as [k|k]; simpl.
  - by apply (Acts_suspend a s).
  - by apply (act_keep c _ a s k).
Qed.

Lemma Acts_spawn a s pend o body c c0 :
  Async.current c = Some (a, s) →
  Async.activations c0 = Async.activations c →
  Async.callers c0 = Async.callers c →
  Acts c (Async.setCallers
            (Async.mkFrame a (length (Async.activations c0)) pend
               :: Async.callers (Async.spawn o body c0).2)
            (Async.spawn o body c0).2).
Proof.
  intros Hc Hacts Hcs.
  apply (act_enter c _ a s pend o body); try done.
  - unfold statuses. simpl. by rewrite Hacts, fmap_app.
  - unfold owners. simpl. by rewrite Hacts, fmap_app.
  - simpl. by rewrite Hcs, Hacts, length_statuses.
  - simpl. by rewrite Hacts, length_statuses.
Qed.

Lemma Acts_call a s f pend c :
  Async.current c = Some (a, s) →
  (∀ i, f = Async.ToClosure i → 0 ≤ i) →
  Acts c (Async.call middleware last a f pend c).
Proof.
  intros Hc Hf. destruct f as [i|t r|]; simpl.
  - specialize (Hf i eq_refl). unfold Async.invokeMiddleware.
    destruct (Async.lastCalledMiddlewareIndex (Async.record (Next i) c) >=? i + 1).
    { by apply (Acts_hand a s). }
    destruct (Z.geb_spec (i + 1) (Z.of_nat (length middleware))) as [Hge|Hlt].
    { by apply (Acts_spawn a s). }
    destruct (lookup_lt_is_Some_2 middleware (Z.to_nat (i + 1))) as [fn Hfn]; [lia|].
    rewrite Hfn. by apply (Acts_spawn a s).
  - by apply (Acts_hand a s).
  - destruct pend as [k|k].
    + by apply (act_keep c _ a s (k (Rejected notCallable))).
    + by apply (Acts_finish a s).
Qed.

Lemma Acts_step ch c : Sound n c → Acts c (step ch c).
Proof.
  intros Hs. unfold Async.step.
  destruct (Async.current c) as [[a s]|] eqn:Hc.
  - destruct s as [|e|t k|key k|key k|ckey akey k|ckey k|ckey k|x k]; simpl.
    + by apply (Acts_finish a Async.Ret).
    + by apply (Acts_finish a (Async.Raise e)).
    + by apply (act_keep c _ a (Async.Do t k) k).
    + apply (Acts_call a (Async.AwaitArg key k)); [done|]. intros i Hi.
      by destruct (argument_closure middleware initialArgs context client logger
                     c a key i Hs Hi) as [[? _] _].
    + apply (Acts_call a (Async.DropArg key k)); [done|]. intros i Hi.
      by destruct (argument_closure middleware initialArgs context client logger
                     c a key i Hs Hi) as [[? _] _].
    + by apply (act_keep c _ a (Async.Share ckey akey k) k).
    + apply (Acts_call a (Async.AwaitShared ckey k)); [done|]. intros i Hi.
      by destruct (shared_closure middleware c ckey i Hs Hi) as [[? _] _].
    + apply (Acts_call a (Async.DropShared ckey k)); [done|]. intros i Hi.
      by destruct (shared_closure middleware c ckey i Hs Hi) as [[? _] _].
    + by apply (Acts_suspend a (Async.AwaitEnv x k)).
  - destruct (Async.callers c) as [|f rest] eqn:Hcs.
    + destruct ch as [|a|x r].
      * by apply act_same.
      * destruct (Async.activations c !! a) as [[o st]|] eqn:Ha; [|by apply act_same].
        destruct st as [|p k|r]; [by apply act_same| |by apply act_same].
        destruct (Async.settled p c) as [r|] eqn:Hp; [|by apply act_same].
        apply (act_resume c _ a p k r); try done.
        -- unfold statuses. by rewrite list_lookup_fmap, Ha.
        -- apply (statuses_setStatus a Async.Active c).
        -- apply (owners_setStatus a Async.Active c).
      * destruct (Async.environment c !! x); by apply act_same.
    + destruct (Async.pending f) as [k|k] eqn:Hk; simpl.
      * apply (act_pop_await c _ f rest k); try done.
        -- apply (statuses_setStatus (Async.caller f) _ (Async.setCallers rest c)).
        -- apply (owners_setStatus (Async.caller f) _ (Async.setCallers rest c)).
      * by apply (act_pop_drop c _ f rest k).
Qed.

(** ** The call stack *)

Lemma running_lt c a : Live c → a ∈ running c → (a < length (statuses c))%nat.
Proof. intros [_ H] Ha. by eapply lookup_lt_Some, H. Qed.

Lemma Acts_Live c c' : Acts c c' → Live c → Live c'.
Proof.
  intros Hacts [Hnd Hact].
  destruct Hacts as
    [Hc0 Hs Ho Hcs Hc Hn|a s s' Hc Hs Ho Hcs Hc' Hn|a s st Hc Hs Ho Hcs Hc' Hn
    |a s pend o body Hc Hs Ho Hcs Hc'|f rest k Hc Hcs Hk Hs Ho Hcs' Hc' Hn
    |f rest k Hc Hcs Hk Hs Ho Hcs' Hc' Hn|a p k r Hc Hcs Ha Hp Hs Ho Hcs' Hc' Hn];
    unfold Live, running in *.
  - by rewrite Hc, Hcs, Hs.
  - rewrite Hc', Hcs, Hs. by rewrite Hc in Hnd, Hact.
  - rewrite Hc', Hcs, Hs. rewrite Hc in Hnd, Hact.
    apply NoDup_cons in Hnd as [Hnin Hnd]. split; [done|].
    intros b Hb. rewrite list_lookup_alter_ne by (intros ->; done).
    apply Hact. by right.
  - rewrite Hc', Hcs, Hs. rewrite Hc in Hnd, Hact. simpl.
    assert (∀ b, b ∈ a :: (Async.caller <$> Async.callers c) →
                 (b < length (statuses c))%nat) as Hlt.
    { intros b Hb. by eapply lookup_lt_Some, Hact. }
    split.
    + apply NoDup_cons. split; [|done].
      intros Hin. specialize (Hlt _ Hin). lia.
    + intros b Hb. apply elem_of_cons in Hb as [->|Hb].
      * rewrite lookup_app_r by lia. by rewrite Nat.sub_diag.
      * rewrite lookup_app_l by (by apply Hlt). by apply Hact.
  - rewrite Hc', Hcs', Hs. rewrite Hc, Hcs in Hnd, Hact. simpl in Hnd, Hact.
    apply NoDup_cons in Hnd as [Hnin Hnd]. split; [done|].
    intros b Hb.
    rewrite list_lookup_alter_ne by (intros Heq; apply Hnin; by rewrite Heq).
    apply Hact. by right.
  - rewrite Hc', Hcs', Hs. by rewrite Hc, Hcs in Hnd, Hact.
  - rewrite Hc', Hcs', Hs. simpl. split; [apply NoDup_singleton|].
    intros b Hb. apply elem_of_cons in Hb as [->|Hb]; [|by apply not_elem_of_nil in Hb].
    by rewrite list_lookup_alter_eq, Ha.
Qed.

End AsyncActs.
(** ** Handlers that pass on the settlement of [next] *)

Lemma InHand_statuses c c' j P :
  (∀ s, Async.current c ≠ Some (j, s)) →
  statuses c' !! j = statuses c !! j →
  InHand c j P → InHand c' j P.
Proof.
  intros Hcur Hs [(s & Hc & _)|[(r & k & Hk & HP)|(x & k & Hk & HP)]].
  - by destruct (Hcur s).
  - right; left. exists r, k. by rewrite Hs.
  - right; right. exists x, k. by rewrite Hs.
Qed.

Lemma InHand_lt c j P :
  (∀ s, Async.current c ≠ Some (j, s)) → InHand c j P →
  (j < length (statuses c))%nat.
Proof.
  intros Hcur [(s & Hc & _)|[(r & k & Hk & _)|(x & k & Hk & _)]].
  - by destruct (Hcur s).
  - by eapply lookup_lt_Some.
  - by eapply lookup_lt_Some.
Qed.

(** A move of activation [a] leaves the other relaying handlers where they
    stand. *)
Lemma Phase_frame resolve n c c' a j :
  j ≠ a →
  (∀ b, b ≠ a → (b < length (statuses c))%nat → statuses c' !! b = statuses c !! b) →
  (∀ b o, owners c !! b = Some o → owners c' !! b = Some o) →
  (∀ f, f ∈ Async.callers c → Async.caller f ≠ a → f ∈ Async.callers c') →
  (∀ r, statuses c !! a ≠ Some (Async.Settled r)) →
  (∀ s, Async.current c ≠ Some (j, s)) →
  (length (statuses c') = length (statuses c)
   ∧ Async.lastCalledMiddlewareIndex c' = Async.lastCalledMiddlewareIndex c)
  ∨ length (statuses c) ≠ S j →
  Phase resolve n c j → Phase resolve n c' j.
Proof.
  intros Hja Hst Hown Hfr Ha Hcur Hlen [Hoj Hph].
  assert (∀ r, Stage n c j (Some r) → Stage n c' j (Some r)) as Hstage.
  { intros r [Ho Hs]. split; [by apply Hown|].
    rewrite Hst; [done| |by eapply lookup_lt_Some].
    intros Heq. rewrite Heq in Hs. by destruct (Ha r). }
  assert (∀ P, InHand c j P → InHand c' j P) as Hhand.
  { intros P HP. apply (InHand_statuses c); [done| |done].
    apply Hst; [done|]. by apply (InHand_lt c j P). }
  split; [by apply Hown|].
  destruct Hph as [(m & Hm & Hs)|[(HoS & k & Hk & Hcall)|(r & Hs & Hj)]].
  - left. exists m. split; [by apply Hhand|].
    destruct m as [r|]; [by apply Hstage|].
    destruct Hs as [HL Hn]. destruct Hlen as [[HL' Hn']|Hne]; [|done].
    simpl. by rewrite HL', Hn'.
  - right; left. split; [by apply Hown|]. exists k. split; [done|].
    destruct Hcall as [Hf|Hw].
    + left. by apply Hfr.
    + right. rewrite Hst; [done|done|by eapply lookup_lt_Some].
  - right; right. exists r. split; [by apply Hstage|].
    rewrite Hst; [done|done|by eapply lookup_lt_Some].
Qed.

Lemma NoDup_callers (l : list Async.Frame) f g :
  NoDup (Async.caller <$> l) → f ∈ l → g ∈ l →
  Async.caller f = Async.caller g → f = g.
Proof.
  intros Hnd Hf Hg Heq.
  apply list_elem_of_lookup in Hf as [p Hp]. apply list_elem_of_lookup in Hg as [q Hq].
  assert (p = q) as ->.
  { apply (NoDup_lookup _ p q (Async.caller f) Hnd).
    - by rewrite list_lookup_fmap, Hp.
    - by rewrite list_lookup_fmap, Hq, Heq. }
  congruence.
Qed.

(** A relaying handler that is running holds a relaying script. *)
Lemma Phase_current resolve n c a s :
  Live c → Async.current c = Some (a, s) → Phase resolve n c a →
  ∃ m, Async.Relays resolve m s ∧ Stage n c a m.
Proof.
  intros [Hnd Hact] Hc [_ Hph]. unfold running in Hnd, Hact. rewrite Hc in Hnd, Hact.
  pose proof (Hact a ltac:(by left)) as Ha.
  destruct Hph as [(m & Hm & Hs)|[(_ & k & _ & [Hf|Hw])|(r & _ & Hdone)]].
  - exists m. split; [|done].
    destruct Hm as [(s' & Hc' & HP)|[(r & k & Hk & _)|(x & k & Hk & _)]];
      [|congruence..].
    rewrite Hc in Hc'. by inversion Hc'; subst.
  - apply NoDup_cons in Hnd as [Hnin _]. destruct Hnin.
    apply list_elem_of_fmap. by eexists; split; [|exact Hf].
  - congruence.
  - congruence.
Qed.

(** A relaying handler on the call stack that is not running awaits its call
    of [next]. *)
Lemma Phase_caller resolve n c f :
  Live c → Async.current c = None → f ∈ Async.callers c →
  Phase resolve n c (Async.caller f) →
  owners c !! S (Async.caller f) = Some (ownerAt n (Z.of_nat (S (Async.caller f))))
  ∧ Async.callee f = S (Async.caller f)
  ∧ ∃ k, Async.pending f = Async.ThenAwait k
         ∧ ∀ r, Async.Relays resolve (Some r) (k r).
Proof.
  intros [Hnd Hact] Hc Hf [_ Hph]. unfold running in Hnd, Hact. rewrite Hc in Hnd, Hact.
  assert (statuses c !! Async.caller f = Some Async.Active) as Ha.
  { apply Hact, list_elem_of_fmap. by eexists; split; [|exact Hf]. }
  destruct Hph as [(m & Hm & Hs)|[(Ho & k & Hk & [Hg|Hw])|(r & _ & Hdone)]].
  - destruct Hm as [(s' & Hc' & HP)|[(r & k & Hk & _)|(x & k & Hk & _)]]; congruence.
  - pose proof (NoDup_callers _ _ _ Hnd Hg Hf eq_refl) as <-. simpl. eauto.
  - congruence.
  - congruence.
Qed.

Section AsyncRelay.

Variable middleware : list Async.Script.
Variable initialArgs : Args.
Variables context client logger : Foreign.
Variable last : Async.Script.
Variable i : nat.

Local Abbreviation n := (Z.of_nat (length middleware)).
Local Abbreviation resolve :=
  (λ j : nat, Async.argument initialArgs context client logger
                (Async.Handler (Z.of_nat j))).
Local Abbreviation step :=
  (Async.step middleware initialArgs context client logger last).
Local Abbreviation exec :=
  (Async.exec middleware initialArgs context client logger last).

Hypothesis within : (i ≤ length middleware)%nat.
Hypothesis relayed :
  ∀ j fn, (j < i)%nat → middleware !! j = Some fn →
          Async.Relays (resolve j) None fn.

Lemma resolve_closure j key i0 :
  resolve j key = Async.ToClosure i0 → i0 = Z.of_nat j.
Proof.
  simpl. destruct (mkArgs _ _ _ _ _ !! key) as [[[?|? ?]|?]|]; congruence.
Qed.

(** Moves that neither call nor return a function. *)
Lemma Relayed_idle c c' :
  Async.current c = None → Acts c c' → Live c →
  Relayed resolve n i c → Relayed resolve n i c'.
Proof.
  intros Hnone Hacts Hlive [Hzero Hrel].
  pose proof Hlive as [Hnd Hact]. unfold running in Hnd, Hact.
  rewrite Hnone in Hnd, Hact.
  destruct Hacts as
    [Hc0 Hs Ho Hcs Hc Hn|a s s' Hc|a s st Hc|a s pend o body Hc
    |f rest k Hc Hcs Hk Hs Ho Hcs' Hc' Hn
    |f rest k Hc Hcs Hk Hs Ho Hcs' Hc' Hn|a p k r Hc Hcs Ha Hp Hs Ho Hcs' Hc' Hn];
    try congruence.
  - split; [by rewrite Ho|]. intros j Hj Hjlen. rewrite Hs in Hjlen.
    apply (Phase_frame _ _ c c' (length (statuses c))); try done.
    + lia.
    + intros b _ _. by rewrite Hs.
    + intros b o. by rewrite Ho.
    + intros f Hf _. by rewrite Hcs.
    + intros r. by rewrite lookup_ge_None_2.
    + intros s. congruence.
    + left. by rewrite Hs.
    + by apply Hrel.
  - assert (f ∈ Async.callers c) as Hf by (rewrite Hcs; by left).
    assert (statuses c !! Async.caller f = Some Async.Active) as Hfa.
    { apply Hact, list_elem_of_fmap. by eexists; split; [|exact Hf]. }
    split; [by rewrite Ho|]. intros j Hj Hjlen.
    rewrite Hs, length_alter in Hjlen.
    destruct (decide (j = Async.caller f)) as [->|Hja].
    + pose proof (Hrel _ Hj Hjlen) as Hph.
      destruct (Phase_caller _ _ c f Hlive Hnone Hf Hph) as (HoS & Hcallee & k0 & Hk0 & Hrl).
      destruct Hph as [Hoj _]. split; [by rewrite Ho|].
      right; left. split; [by rewrite Ho|]. exists k0. split; [done|]. right.
      rewrite Hs, list_lookup_alter_eq, Hfa. simpl.
      rewrite Hk in Hk0. inversion Hk0; subst. by rewrite Hcallee.
    + apply (Phase_frame _ _ c c' (Async.caller f)); try done.
      * intros b Hb _. by rewrite Hs, list_lookup_alter_ne.
      * intros b o. by rewrite Ho.
      * intros g Hg Hne. rewrite Hcs'. rewrite Hcs in Hg.
        apply elem_of_cons in Hg as [->|Hg]; done.
      * intros r. congruence.
      * intros s. congruence.
      * left. by rewrite Hs, length_alter.
      * by apply Hrel.
  - assert (f ∈ Async.callers c) as Hf by (rewrite Hcs; by left).
    assert (statuses c !! Async.caller f = Some Async.Active) as Hfa.
    { apply Hact, list_elem_of_fmap. by eexists; split; [|exact Hf]. }
    split; [by rewrite Ho|]. intros j Hj Hjlen. rewrite Hs in Hjlen.
    destruct (decide (j = Async.caller f)) as [->|Hja].
    + pose proof (Hrel _ Hj Hjlen) as Hph.
      destruct (Phase_caller _ _ c f Hlive Hnone Hf Hph) as (_ & _ & k0 & Hk0 & _).
      congruence.
    + apply (Phase_frame _ _ c c' (Async.caller f)); try done.
      * intros b _ _. by rewrite Hs.
      * intros b o. by rewrite Ho.
      * intros g Hg Hne. rewrite Hcs'. rewrite Hcs in Hg.
        apply elem_of_cons in Hg as [->|Hg]; done.
      * intros r. congruence.
      * intros s. congruence.
      * left. by rewrite Hs.
      * by apply Hrel.
  - split; [by rewrite Ho|]. intros j Hj Hjlen.
    rewrite Hs, length_alter in Hjlen.
    destruct (decide (j = a)) as [->|Hja].
    + destruct (Hrel _ Hj Hjlen) as [Hoa Hph]. split; [by rewrite Ho|].
      assert (∀ b, b ≠ a → statuses c' !! b = statuses c !! b) as Hother.
      { intros b Hb. by rewrite Hs, list_lookup_alter_ne. }
      assert (∀ m, Stage n c a m → Stage n c' a m) as Hstage.
      { intros [r0|]; simpl.
        - intros [HoS HS]. rewrite Ho, Hother by lia. done.
        - intros [HL Hcnt]. by rewrite Hs, length_alter, Hn. }
      destruct Hph as [(m & Hm & Hst)|[(HoS & k0 & Hk0 & [Hf|Hw])|(r0 & _ & Hdone)]].
      * left. exists m. split; [|by apply Hstage]. left. exists (k r).
        split; [done|].
        destruct Hm as [(s' & Hcur & _)|[(r0 & k0 & Hw & HP)|(x & k0 & Hw & HP)]].
        -- congruence.
        -- rewrite Ha in Hw. inversion Hw; subst. simpl in Hp. by inversion Hp; subst.
        -- rewrite Ha in Hw. inversion Hw; subst. apply HP.
      * rewrite Hcs in Hf. by apply not_elem_of_nil in Hf.
      * rewrite Ha in Hw. inversion Hw; subst.
        apply settled_statuses in Hp.
        left. exists (Some r). split.
        -- left. exists (k0 r). split; [done|apply Hk0].
        -- split; [by rewrite Ho|]. by rewrite Hother by lia.
      * congruence.
    + apply (Phase_frame _ _ c c' a); try done.
      * intros b Hb _. by rewrite Hs, list_lookup_alter_ne.
      * intros b o. by rewrite Ho.
      * intros g Hg _. rewrite Hcs in Hg. by apply not_elem_of_nil in Hg.
      * intros r0. congruence.
      * intros s. congruence.
      * left. by rewrite Hs, length_alter.
      * by apply Hrel.
Qed.

(** Moves of a running function that is not one of the relaying handlers. *)
Lemma Relayed_other c c' a s :
  Async.current c = Some (a, s) → (i ≤ a)%nat → Acts c c' → Live c →
  Relayed resolve n i c → Relayed resolve n i c'.
Proof.
  intros Hcur Hia Hacts Hlive [Hzero Hrel].
  pose proof Hlive as [Hnd Hact]. unfold running in Hnd, Hact.
  rewrite Hcur in Hnd, Hact.
  pose proof (Hact a ltac:(by left)) as Ha.
  pose proof (lookup_lt_Some _ _ _ Ha) as Hlt.
  destruct Hacts as
    [Hc0|a0 s0 s' Hc Hs Ho Hcs Hc' Hn|a0 s0 st Hc Hs Ho Hcs Hc' Hn
    |a0 s0 pend o body Hc Hs Ho Hcs Hc'|f rest k Hc|f rest k Hc|a0 p k r Hc];
    try congruence;
    rewrite Hcur in Hc; inversion Hc; subst a0 s0.
  - split; [by rewrite Ho|]. intros j Hj Hjlen. rewrite Hs in Hjlen.
    apply (Phase_frame _ _ c c' a); try done.
    + lia.
    + intros b _ _. by rewrite Hs.
    + intros b o. by rewrite Ho.
    + intros f Hf _. by rewrite Hcs.
    + intros r. congruence.
    + intros s0 Heq. rewrite Hcur in Heq. inversion Heq. lia.
    + left. by rewrite Hs.
    + by apply Hrel.
  - split; [by rewrite Ho|]. intros j Hj Hjlen. rewrite Hs, length_alter in Hjlen.
    apply (Phase_frame _ _ c c' a); try done.
    + lia.
    + intros b Hb _. by rewrite Hs, list_lookup_alter_ne.
    + intros b o. by rewrite Ho.
    + intros f Hf _. by rewrite Hcs.
    + intros r. congruence.
    + intros s0 Heq. rewrite Hcur in Heq. inversion Heq. lia.
    + left. by rewrite Hs, length_alter.
    + by apply Hrel.
  - split; [rewrite Ho; by apply lookup_app_l_Some|]. intros j Hj Hjlen.
    apply (Phase_frame _ _ c c' a); try done.
    + lia.
    + intros b _ Hb. by rewrite Hs, lookup_app_l.
    + intros b o0 Hb. rewrite Ho. by apply lookup_app_l_Some.
    + intros f Hf _. rewrite Hcs. by right.
    + intros r. congruence.
    + intros s0 Heq. rewrite Hcur in Heq. inversion Heq. lia.
    + right. lia.
    + apply Hrel; [done|lia].
Qed.

(** A relaying handler does something that calls no closure. *)
Lemma Relayed_local c c' a s m :
  (a < i)%nat → Async.current c = Some (a, s) → Live c →
  Relayed resolve n i c → Stage n c a m →
  InHand c' a (Async.Relays (resolve a) m) →
  (∀ b, b ≠ a → statuses c' !! b = statuses c !! b) →
  length (statuses c') = length (statuses c) →
  owners c' = owners c →
  Async.callers c' = Async.callers c →
  Async.lastCalledMiddlewareIndex c' = Async.lastCalledMiddlewareIndex c →
  Relayed resolve n i c'.
Proof.
  intros Hai Hcur Hlive [Hzero Hrel] Hstage Hhand Hother Hlen Ho Hcs Hn.
  pose proof Hlive as [Hnd Hact]. unfold running in Hnd, Hact.
  rewrite Hcur in Hnd, Hact.
  pose proof (Hact a ltac:(by left)) as Ha.
  split; [by rewrite Ho|]. intros j Hj Hjlen. rewrite Hlen in Hjlen.
  destruct (decide (j = a)) as [->|Hja].
  - destruct (Hrel _ Hj Hjlen) as [Hoa _]. split; [by rewrite Ho|].
    left. exists m. split; [done|].
    destruct m as [r|]; simpl in *.
    + destruct Hstage as [HoS HS]. by rewrite Ho, Hother by lia.
    + by rewrite Hlen, Hn.
  - apply (Phase_frame _ _ c c' a); try done.
    + intros b Hb _. by apply Hother.
    + intros b o. by rewrite Ho.
    + intros f Hf _. by rewrite Hcs.
    + intros r. congruence.
    + intros s0 Heq. rewrite Hcur in Heq. by inversion Heq.
    + left. done.
    + by apply Hrel.
Qed.

(** A relaying handler settles. *)
Lemma Relayed_finish c a s r :
  (a < i)%nat → Async.current c = Some (a, s) → Live c →
  Relayed resolve n i c → Stage n c a (Some r) →
  Relayed resolve n i (Async.finish a r c).
Proof.
  intros Hai Hcur Hlive [Hzero Hrel] [HoS HS].
  pose proof Hlive as [Hnd Hact]. unfold running in Hnd, Hact.
  rewrite Hcur in Hnd, Hact.
  pose proof (Hact a ltac:(by left)) as Ha.
  assert (statuses (Async.finish a r c) = alter (λ _, Async.Settled r) a (statuses c))
    as Hs by apply (statuses_setStatus a (Async.Settled r) c).
  assert (owners (Async.finish a r c) = owners c)
    as Ho by apply (owners_setStatus a (Async.Settled r) c).
  split; [by rewrite Ho|]. intros j Hj Hjlen. rewrite Hs, length_alter in Hjlen.
  destruct (decide (j = a)) as [->|Hja].
  - destruct (Hrel _ Hj Hjlen) as [Hoa _]. split; [by rewrite Ho|].
    right; right. exists r. split.
    + split; [by rewrite Ho|]. by rewrite Hs, list_lookup_alter_ne by lia.
    + by rewrite Hs, list_lookup_alter_eq, Ha.
  - apply (Phase_frame _ _ c _ a); try done.
    + intros b Hb _. by rewrite Hs, list_lookup_alter_ne.
    + intros b o. by rewrite Ho.
    + intros r0. congruence.
    + intros s0 Heq. rewrite Hcur in Heq. by inversion Heq.
    + left. by rewrite Hs, length_alter.
    + by apply Hrel.
Qed.

(** A relaying handler calls its [next]: the function of the following step
    starts. *)
Lemma Relayed_next c a s k :
  (a < i)%nat → Async.current c = Some (a, s) → Live c →
  Relayed resolve n i c → Stage n c a None →
  (∀ r, Async.Relays (resolve a) (Some r) (k r)) →
  Relayed resolve n i
    (Async.call middleware last a (Async.ToClosure (Z.of_nat a)) (Async.ThenAwait k) c).
Proof.
  intros Hai Hcur Hlive [Hzero Hrel] [HL Hcnt] Hk.
  pose proof Hlive as [Hnd Hact]. unfold running in Hnd, Hact.
  rewrite Hcur in Hnd, Hact.
  pose proof (Hact a ltac:(by left)) as Ha.
  pose proof (length_statuses c) as HLa.
  assert (∃ o body,
    Async.call middleware last a (Async.ToClosure (Z.of_nat a)) (Async.ThenAwait k) c =
      Async.mkConfig (Z.of_nat (S a))
        (Async.observed c ++ [Next (Z.of_nat a)] ++ [stepEvent n (Z.of_nat (S a))])
        (Async.shared c)
        (Async.activations c ++ [Async.mkActivation o Async.Active])
        (Async.environment c) (Some (S a, body))
        (Async.mkFrame a (S a) (Async.ThenAwait k) :: Async.callers c)
    ∧ o = ownerAt n (Z.of_nat (S a))
    ∧ ((S a < i)%nat → Async.Relays (resolve (S a)) None body))
    as (o & body & -> & Ho & Hbody).
  { simpl. destruct (decide (S a < length middleware)%nat) as [Hin|Hout].
    - destruct (lookup_lt_is_Some_2 middleware (S a) Hin) as [fn Hfn].
      exists (Async.Handler (Z.of_nat (S a))), fn.
      rewrite (invokeMiddleware_enters_handler middleware last (Z.of_nat a + 1) _ fn);
        [|simpl; lia|lia|].
      + simpl. rewrite <- HLa, HL. split; [|split].
        * unfold stepEvent. rewrite (proj2 (Z.ltb_lt _ _)) by lia.
          replace (Z.of_nat a + 1) with (Z.of_nat (S a)) by lia.
          by rewrite <- app_assoc.
        * unfold ownerAt. by rewrite (proj2 (Z.ltb_lt _ _)) by lia.
        * intros HSa. by apply relayed.
      + replace (Z.to_nat (Z.of_nat a + 1)) with (S a) by lia. done.
    - exists Async.Last, last.
      rewrite (invokeMiddleware_enters_last middleware last (Z.of_nat a + 1));
        [|simpl; lia|lia].
      simpl. rewrite <- HLa, HL. split; [|split].
      + unfold stepEvent. rewrite (proj2 (Z.ltb_ge _ _)) by lia.
        replace (Z.of_nat a + 1) with (Z.of_nat (S a)) by lia.
        by rewrite <- app_assoc.
      + unfold ownerAt. by rewrite (proj2 (Z.ltb_ge _ _)) by lia.
      + intros HSa. lia. }
  set (c' := Async.mkConfig _ _ _ _ _ _ _).
  assert (statuses c' = statuses c ++ [Async.Active]) as Hs
    by (unfold statuses, c'; simpl; by rewrite fmap_app).
  assert (owners c' = owners c ++ [o]) as Hoc
    by (unfold owners, c'; simpl; by rewrite fmap_app).
  assert (length (owners c) = S a) as HLo
    by (unfold owners; rewrite length_fmap; lia).
  split; [rewrite Hoc; by apply lookup_app_l_Some|]. intros j Hj Hjlen.
  rewrite Hs, length_app, HL in Hjlen. simpl in Hjlen.
  destruct (decide (j = a)) as [->|Hja]; [|destruct (decide (j = S a)) as [->|HjS]].
  - destruct (Hrel a Hj ltac:(lia)) as [Hoa _].
    split; [rewrite Hoc; by apply lookup_app_l_Some|].
    right; left. split.
    + rewrite Hoc, lookup_app_r by lia. rewrite HLo, Nat.sub_diag. simpl. by rewrite Ho.
    + exists k. split; [done|]. left. unfold c'. simpl. by left.
  - assert (o = Async.Handler (Z.of_nat (S a))) as Hoh.
    { rewrite Ho. unfold ownerAt. by rewrite (proj2 (Z.ltb_lt _ _)) by lia. }
    split.
    + rewrite Hoc, lookup_app_r by lia. rewrite HLo, Nat.sub_diag. simpl. by rewrite Hoh.
    + left. exists None. split.
      * left. exists body. split; [done|]. by apply Hbody.
      * simpl. split; [|done]. rewrite Hs, length_app, HL. simpl. lia.
  - apply (Phase_frame _ _ c c' a); try done.
    + intros b _ Hb. by rewrite Hs, lookup_app_l.
    + intros b o0 Hb. rewrite Hoc. by apply lookup_app_l_Some.
    + intros f Hf _. unfold c'. simpl. by right.
    + intros r. congruence.
    + intros s0 Heq. rewrite Hcur in Heq. by inversion Heq.
    + right. lia.
    + apply Hrel; [done|lia].
Qed.

(** Every instruction of a relaying handler. *)
Lemma Relayed_execute c a s :
  (a < i)%nat → Async.current c = Some (a, s) → Live c →
  Relayed resolve n i c →
  Relayed resolve n i
    (Async.execute middleware initialArgs context client logger last a s c).
Proof.
  intros Hai Hcur Hlive Hrel.
  pose proof Hlive as [Hnd Hact]. unfold running in Hnd, Hact.
  rewrite Hcur in Hnd, Hact.
  pose proof (Hact a ltac:(by left)) as Ha.
  pose proof (lookup_lt_Some _ _ _ Ha) as Hlt.
  pose proof (proj2 Hrel a Hai Hlt) as Hph.
  destruct (Phase_current _ _ c a s Hlive Hcur Hph) as (m & Hm & Hstage).
  destruct Hph as [Hoa _].
  pose proof (ownerOf_owners c a _ Hoa) as Howner.
  assert (∀ p k, (∀ r, Async.settled p c = Some r ∨ (∃ x, p = Async.OfEnvironment x) →
                       Async.Relays (resolve a) m (k r)) →
                 (∃ r, p = Async.Already r) ∨ (∃ x, p = Async.OfEnvironment x) →
                 ∀ c0, statuses c0 = statuses c → owners c0 = owners c →
                       Async.callers c0 = Async.callers c →
                       Async.lastCalledMiddlewareIndex c0 =
                         Async.lastCalledMiddlewareIndex c →
                       Relayed resolve n i (Async.suspend a p k c0)) as Hsuspend.
  { intros p k Hk Hp c0 Hs0 Ho0 Hcs0 Hn0.
    assert (statuses (Async.suspend a p k c0) =
              alter (λ _, Async.Waiting p k) a (statuses c)) as Hs.
    { rewrite <- Hs0. apply (statuses_setStatus a (Async.Waiting p k) c0). }
    apply (Relayed_local c _ a s m); try done.
    - destruct Hp as [[r ->]|[x ->]].
      + right; left. exists r, k. split; [by rewrite Hs, list_lookup_alter_eq, Ha|].
        apply Hk. by left.
      + right; right. exists x, k. split; [by rewrite Hs, list_lookup_alter_eq, Ha|].
        intros r. apply Hk. right. eauto.
    - intros b Hb. by rewrite Hs, list_lookup_alter_ne.
    - by rewrite Hs, length_alter.
    - rewrite <- Ho0. apply (owners_setStatus a (Async.Waiting p k) c0). }
  assert (∀ s' c0, Async.Relays (resolve a) m s' →
                   statuses c0 = statuses c → owners c0 = owners c →
                   Async.callers c0 = Async.callers c →
                   Async.lastCalledMiddlewareIndex c0 =
                     Async.lastCalledMiddlewareIndex c →
                   Relayed resolve n i (Async.setCurrent (Some (a, s')) c0)) as Hkeep.
  { intros s' c0 Hs' Hs0 Ho0 Hcs0 Hn0.
    apply (Relayed_local c _ a s m); try done.
    - left. exists s'. done.
    - intros b _. by rewrite <- Hs0.
    - by rewrite <- Hs0. }
  destruct Hm as [m t k Hk|m ckey akey k Hk|m key k Hkey Hk|m x k Hk|key i0 k Hkey Hk| |e];
    simpl.
  - by apply Hkeep.
  - by apply Hkeep.
  - rewrite Howner. fold (resolve a key).
    destruct (resolve a key) as [i0|t r|] eqn:Hres.
    + by destruct (Hkey i0).
    + simpl. apply Hsuspend; [|left; eauto|done..].
      intros r0 [Hr0|[x Hx]]; [|done]. simpl in Hr0. by inversion Hr0; subst.
    + simpl. by apply Hkeep.
  - apply Hsuspend; [intros r _; apply Hk|right; eauto|done..].
  - rewrite Howner. fold (resolve a key). rewrite Hkey.
    pose proof (resolve_closure a key i0 Hkey) as ->.
    by apply (Relayed_next c a (Async.AwaitArg key k)).
  - by apply (Relayed_finish c a Async.Ret).
  - by apply (Relayed_finish c a (Async.Raise e)).
Qed.

Lemma Relayed_step ch c :
  Sound n c → Live c → Relayed resolve n i c → Relayed resolve n i (step ch c).
Proof.
  intros Hsound Hlive Hrel.
  pose proof (Acts_step middleware initialArgs context client logger last ch c Hsound)
    as Hacts.
  destruct (Async.current c) as [[a s]|] eqn:Hcur.
  - destruct (decide (a < i)%nat) as [Hai|Hia].
    + unfold Async.step. rewrite Hcur. by apply Relayed_execute.
    + apply (Relayed_other c _ a s); try done. lia.
  - by apply (Relayed_idle c).
Qed.

Lemma Live_start : Live (Async.start middleware last).
Proof.
  unfold Async.start. destruct (Z.leb_spec n 0) as [Hle|Hgt].
  - split; [apply NoDup_singleton|]. intros a Ha.
    apply elem_of_cons in Ha as [->|Ha]; [done|by apply not_elem_of_nil in Ha].
  - destruct (lookup_lt_is_Some_2 middleware (Z.to_nat 0)) as [fn Hfn]; [lia|].
    rewrite (invokeMiddleware_enters_handler middleware last 0 _ fn) by (simpl; done || lia).
    split; [apply NoDup_singleton|]. intros a Ha.
    apply elem_of_cons in Ha as [->|Ha]; [done|by apply not_elem_of_nil in Ha].
Qed.

Lemma Relayed_start : Relayed resolve n i (Async.start middleware last).
Proof.
  unfold Async.start. destruct (Z.leb_spec n 0) as [Hle|Hgt].
  - split.
    + unfold ownerAt. by rewrite (proj2 (Z.ltb_ge _ _)) by lia.
    + intros j Hj _. lia.
  - destruct (lookup_lt_is_Some_2 middleware (Z.to_nat 0)) as [fn Hfn]; [lia|].
    rewrite (invokeMiddleware_enters_handler middleware last 0 _ fn) by (simpl; done || lia).
    split.
    + unfold ownerAt. by rewrite (proj2 (Z.ltb_lt _ _)) by lia.
    + intros j Hj Hjlen. simpl in Hjlen.
      assert (j = 0%nat) as -> by lia.
      split; [done|]. left. exists None. split; [|done].
      left. exists fn. split; [done|]. by apply relayed.
Qed.

Lemma exec_relayed schedule : Live (exec schedule) ∧ Relayed resolve n i (exec schedule).
Proof.
  unfold Async.exec.
  induction schedule as [|ch schedule [IHl IHr]] using rev_ind;
    [split; [apply Live_start|apply Relayed_start]|].
  rewrite foldl_snoc.
  pose proof (Sound_exec middleware initialArgs context client logger last schedule)
    as Hsound.
  unfold Async.exec in Hsound. split.
  - eapply Acts_Live; [|exact IHl].
    by apply (Acts_step middleware initialArgs context client logger last).
  - by apply Relayed_step.
Qed.

(** A settled relaying handler has settled the way its call of [next] did. *)
Lemma Relayed_settled c r j :
  Live c → Relayed resolve n i c → (j ≤ i)%nat →
  statuses c !! 0%nat = Some (Async.Settled r) →
  statuses c !! j = Some (Async.Settled r)
  ∧ owners c !! j = Some (ownerAt n (Z.of_nat j)).
Proof.
  intros Hlive [Hzero Hrel] Hj H0.
  induction j as [|j IH]; [done|].
  destruct IH as [Hsj Hoj]; [lia|].
  pose proof Hlive as [Hnd Hact]. unfold running in Hnd, Hact.
  destruct (Hrel j ltac:(lia) (lookup_lt_Some _ _ _ Hsj)) as [_ Hph].
  destruct Hph as [(m & Hm & _)|[(_ & k & _ & [Hf|Hw])|(r' & [Ho Hs] & Hdone)]].
  - destruct Hm as [(s' & Hc' & _)|[(r' & k & Hk & _)|(x & k & Hk & _)]];
      [|congruence..].
    rewrite Hc' in Hact. pose proof (Hact j ltac:(by left)). congruence.
  - assert (statuses c !! j = Some Async.Active); [|congruence].
    apply Hact. destruct (Async.current c) as [[a s]|]; [right|];
      apply list_elem_of_fmap; by eexists; split; [|exact Hf].
  - congruence.
  - rewrite Hsj in Hdone. inversion Hdone; subst. done.
Qed.

(** When the handlers before index [i] pass on the settlement of [next],
    the promise of the execution is settled only once the function called
    by the step of index [i] has settled, and the same way. *)
Lemma exec_relays schedule r :
  Async.completion (exec schedule) = Some r →
  statuses (exec schedule) !! i = Some (Async.Settled r)
  ∧ owners (exec schedule) !! i = Some (ownerAt n (Z.of_nat i)).
Proof.
  intros Hr. apply settled_statuses in Hr.
  destruct (exec_relayed schedule) as [Hlive Hrel].
  by apply (Relayed_settled _ r i).
Qed.

End AsyncRelay.

(** ** The nested unwind, under every schedule *)

(** The environment settling a promise changes nothing else. *)
Lemma step_settle middleware initialArgs context client logger last x r c :
  Async.step middleware initialArgs context client logger last (Async.Settle x r) c =
    Async.step middleware initialArgs context client logger last Async.Go c
  ∨ Async.step middleware initialArgs context client logger last (Async.Settle x r) c =
      Async.setEnvironment (<[x := r]> (Async.environment c)) c.
Proof.
  unfold Async.step. destruct (Async.current c) as [[a s]|]; [by left|].
  destruct (Async.callers c); [|by left].
  destruct (Async.environment c !! x); [by left|by right].
Qed.

Ltac reach fuel k :=
  lazymatch fuel with
  | O => fail
  | S ?f =>
      first [ by (exists k; split; [lia|vm_compute; reflexivity])
            | reach f (S k) ]
  end.

Lemma nested_step k env ch :
  (k ≤ 13)%nat → (∀ x r, ch ≠ Async.Settle x r) →
  ∃ k', (k' ≤ 13)%nat ∧
    Async.step AsyncScenario.nested ∅ Scenario.ctx Scenario.web Scenario.log
               (AsyncScenario.spy "last") ch
               (Async.setEnvironment env (AsyncScenario.nestedAt k)) =
    Async.setEnvironment env (AsyncScenario.nestedAt k').
Proof.
  intros Hk Hch.
  destruct ch as [|a|x r]; [| |by destruct (Hch x r)].
  - do 14 (destruct k as [|k]; [reach 14%nat 0%nat|]). lia.
  - do 14 (destruct k as [|k];
           [do 3 (destruct a as [|a]; [reach 14%nat 0%nat|]); reach 14%nat 0%nat|]).
    lia.
Qed.

(** Whatever the schedule, the chain is in one of the configurations of the
    schedule that runs it to its end, up to the promises the environment
    has settled. *)
Lemma nested_exec schedule :
  ∃ k env, (k ≤ 13)%nat ∧
    Async.exec AsyncScenario.nested ∅ Scenario.ctx Scenario.web Scenario.log
               (AsyncScenario.spy "last") schedule =
    Async.setEnvironment env (AsyncScenario.nestedAt k).
Proof.
  unfold Async.exec.
  induction schedule as [|ch schedule (k & env & Hk & IH)] using rev_ind.
  - exists 0%nat, ∅. split; [lia|]. vm_compute. reflexivity.
  - rewrite foldl_snoc, IH.
    assert (∀ ch', (∀ x r, ch' ≠ Async.Settle x r) →
      ∃ k' env', (k' ≤ 13)%nat ∧
        Async.step AsyncScenario.nested ∅ Scenario.ctx Scenario.web Scenario.log
                   (AsyncScenario.spy "last") ch'
                   (Async.setEnvironment env (AsyncScenario.nestedAt k)) =
        Async.setEnvironment env' (AsyncScenario.nestedAt k')) as Hstep.
    { intros ch' Hch'. destruct (nested_step k env ch' Hk Hch') as (k' & Hk' & ->).
      eauto. }
    destruct ch as [|a|x r].
    + by apply Hstep.
    + by apply Hstep.
    + destruct (step_settle AsyncScenario.nested ∅ Scenario.ctx Scenario.web
                  Scenario.log (AsyncScenario.spy "last") x r
                  (Async.setEnvironment env (AsyncScenario.nestedAt k))) as [->| ->].
      * by apply Hstep.
      * exists k, (<[x := r]> env). done.
Qed.

Lemma nested_order schedule :
  let c := Async.exec AsyncScenario.nested ∅ Scenario.ctx Scenario.web Scenario.log
                      (AsyncScenario.spy "last") schedule in
  Async.observed c = take (length (Async.observed c)) AsyncScenario.nestedOrder
  ∧ ∀ r, Async.completion c = Some r →
         r = Fulfilled ∧ Async.observed c = AsyncScenario.nestedOrder.
Proof.
  intros c. unfold c. destruct (nested_exec schedule) as (k & env & Hk & ->).
  change (Async.observed (Async.setEnvironment env (AsyncScenario.nestedAt k)))
    with (Async.observed (AsyncScenario.nestedAt k)).
  change (Async.completion (Async.setEnvironment env (AsyncScenario.nestedAt k)))
    with (Async.completion (AsyncScenario.nestedAt k)).
  do 14 (destruct k as [|k];
         [split; [vm_compute; reflexivity|];
          intros r Hr; vm_compute in Hr;
          first [discriminate|inversion Hr; split; [reflexivity|vm_compute; reflexivity]]
         |]).
  lia.
Qed.

(** * The claims *)

Import Scenario.


(** C9. In an execution of a non-empty chain, whatever the handlers do, a
    step that passes the check leaves the counter strictly higher than it
    found it; the calls made are an initial part of "handler 0, handler 1,
    ..., [last]"; no call occurs twice; and there are at most
    [length middleware + 1] of them. *)
Theorem C9_no_call_repeated (middleware : list Middleware) (initialArgs : Args)
    (context client logger : Foreign) (last : option Body) :
  middleware ≠ [] →
  let ex := processMiddleware middleware initialArgs context client logger last in
  let n := Z.of_nat (length middleware) in
  (∀ toCall st, 0 ≤ toCall → lastCalledMiddlewareIndex st < toCall →
     lastCalledMiddlewareIndex st <
       lastCalledMiddlewareIndex
         (invokeMiddleware initialArgs context client logger
            (default defaultLast last) middleware toCall st).2)
  ∧ (∃ k, steps (events ex) = take k (expectedCalls n))
  ∧ NoDup (steps (events ex))
  ∧ (length (steps (events ex)) ≤ length middleware + 1)%nat.
Proof.
  intros Hne ex n.
  assert (∃ k, steps (events ex) = take k (expectedCalls n)) as (k & Hk).
  { unfold ex. rewrite processMiddleware_nonempty by done. simpl.
    pose proof (invoke_good initialArgs context client logger last middleware)
      as [[_ Hs] _].
    eauto. }
  split; [|split; [|split]].
  - intros toCall st Hpos Hlt.
    pose proof (invoke_advances initialArgs context client logger
                  (default defaultLast last) middleware toCall st Hpos Hlt). lia.
  - eauto.
  - rewrite Hk. eapply sublist_NoDup; [apply NoDup_expectedCalls|apply sublist_take].
  - rewrite Hk, length_take, length_expectedCalls by lia. lia.
Qed.

Lemma C9_no_call_repeated_witness :
  let ex := processMiddleware [twice "cb1" "cb2"] ∅ ctx web log (Some (spy "last")) in
  NoDup (steps (events ex)) ∧ (length (steps (events ex)) ≤ 2)%nat.
Proof.
  pose proof (C9_no_call_repeated [twice "cb1" "cb2"] ∅ ctx web log
                (Some (spy "last")) ltac:(discriminate)) as H.
  simpl in H. destruct H as (_ & _ & Hnd & Hlen). split; [exact Hnd|exact Hlen].
Defined.

(** C2, as stated, fails: handler 0 of the chain [[A]] holds the closure
    bound to index 0, and calls it while the counter is 0 (it was set to 0
    when [A] was called).  The bound index is not above the counter, yet the
    call goes through: [last] runs and the promise is fulfilled.  What the
    check compares with the counter is the index the closure leads to. *)
Lemma C2_counterexample :
  processMiddleware [advancing "A"] ∅ ctx web log (Some (spy "last")) =
    {| completion := Fulfilled;
       events := [Called 0; Effect "A"; Next 0; CalledLast; Effect "last"];
       counter := Some 1 |}
  ∧ 0 ≤ lastCalledMiddlewareIndex
          {| lastCalledMiddlewareIndex := 0; observed := [Called 0; Effect "A"] |}
  ∧ nextFor ∅ ctx web log (spy "last") [advancing "A"] 0
      {| lastCalledMiddlewareIndex := 0; observed := [Called 0; Effect "A"] |} =
    (Fulfilled,
     {| lastCalledMiddlewareIndex := 1;
        observed := [Called 0; Effect "A"; Next 0; CalledLast; Effect "last"] |}).
Proof. split; [|split]; [vm_compute; reflexivity|simpl; lia|vm_compute; reflexivity]. Qed.

(** C2, amended.  Calling the closure bound to index [i] once the counter is
    above [i] (that is, once index [i + 1], to which the closure leads, is
    not above the counter) fails with [MiddlewareNextError]: the step
    returns the error and the state it was given, so nothing else happened;
    the error carries the fixed code, whatever the message, so that any
    failure with another code differs from it.  For the chain [[A]], where
    [A] awaits [next] twice, the second call fails this way and [last] has
    been called exactly once, by the first call. *)
Theorem C2_duplicate_advance (middleware : list Middleware) (initialArgs : Args)
    (context client logger : Foreign) (last : Body) (i : Z) (st : State) :
  i < lastCalledMiddlewareIndex st →
  invokeMiddleware initialArgs context client logger last middleware (i + 1) st =
    (Rejected (MiddlewareNextError "next() called multiple times"), st)
  ∧ nextFor initialArgs context client logger last middleware i st =
      (Rejected (MiddlewareNextError "next() called multiple times"),
       record (Next i) st)
  ∧ (∀ msg, code (MiddlewareNextError msg) = Some "slack_bolt_middleware_next_error")
  ∧ (∀ e msg, code e ≠ Some "slack_bolt_middleware_next_error" →
              Rejected e ≠ Rejected (MiddlewareNextError msg))
  ∧ processMiddleware [twice "cb1" "cb2"] ∅ ctx web log (Some (spy "last")) =
      {| completion := Rejected (MiddlewareNextError "next() called multiple times");
         events := [Called 0; Next 0; CalledLast; Effect "last"; Effect "cb1"; Next 0];
         counter := Some 1 |}.
Proof.
  intros Hlt. split; [|split; [|split; [|split]]].
  - apply invokeMiddleware_duplicate. lia.
  - unfold nextFor. apply invokeMiddleware_duplicate. rewrite lastCalled_record. lia.
  - reflexivity.
  - intros e msg Hcode Heq. inversion Heq; subst. by apply Hcode.
  - vm_compute. reflexivity.
Qed.

Lemma C2_duplicate_advance_witness :
  nextFor ∅ ctx web log (spy "last") [twice "cb1" "cb2"] 0
    {| lastCalledMiddlewareIndex := 1;
       observed := [Called 0; Next 0; CalledLast; Effect "last"; Effect "cb1"] |} =
  (Rejected (MiddlewareNextError "next() called multiple times"),
   {| lastCalledMiddlewareIndex := 1;
      observed := [Called 0; Next 0; CalledLast; Effect "last"; Effect "cb1"; Next 0] |}).
Proof.
  refine (proj1 (proj2 (C2_duplicate_advance [twice "cb1" "cb2"] ∅ ctx web log
                          (spy "last") 0
                          {| lastCalledMiddlewareIndex := 1;
                             observed := [Called 0; Next 0; CalledLast;
                                          Effect "last"; Effect "cb1"] |} _))).
  simpl. lia.
Defined.

(** C8. A step that passes the check has stored its index in the counter
    when the function it calls starts: in the configuration in which the
    handler at that index, or [last], is the running activation with its
    whole body ahead of it, the counter is that index.  Hence in every
    configuration of every execution, whatever the handlers do and in
    whatever order suspended functions resume, the counter is at or above
    the index at which any function called so far was called, and a call of
    [invokeMiddleware] at such an index or a lower one, from whatever
    closure it comes, is refused as a duplicate and changes nothing.  In
    [[A, B]], where [A] leaves its [next] in [context] and [B] calls it
    while [A] is still awaiting [B], that call is rejected. *)
Theorem C8_counter_set_before_call (middleware : list Async.Script) (initialArgs : Args)
    (context client logger : Foreign) (last : Async.Script) :
  let n := Z.of_nat (length middleware) in
  let invoke := Async.invokeMiddleware middleware last in
  let exec := Async.exec middleware initialArgs context client logger last in
  (∀ toCall c fn,
     Async.lastCalledMiddlewareIndex c < toCall → 0 ≤ toCall →
     middleware !! Z.to_nat toCall = Some fn →
     (invoke toCall c).1 = Async.OfActivation (length (Async.activations c))
     ∧ Async.lastCalledMiddlewareIndex (invoke toCall c).2 = toCall
     ∧ Async.observed (invoke toCall c).2 = Async.observed c ++ [Called toCall]
     ∧ Async.activations (invoke toCall c).2 =
         Async.activations c ++ [Async.mkActivation (Async.Handler toCall) Async.Active]
     ∧ Async.current (invoke toCall c).2 = Some (length (Async.activations c), fn))
  ∧ (∀ toCall c,
       Async.lastCalledMiddlewareIndex c < toCall → n ≤ toCall →
       (invoke toCall c).1 = Async.OfActivation (length (Async.activations c))
       ∧ Async.lastCalledMiddlewareIndex (invoke toCall c).2 = toCall
       ∧ Async.observed (invoke toCall c).2 = Async.observed c ++ [CalledLast]
       ∧ Async.activations (invoke toCall c).2 =
           Async.activations c ++ [Async.mkActivation Async.Last Async.Active]
       ∧ Async.current (invoke toCall c).2 = Some (length (Async.activations c), last))
  ∧ (∀ schedule a o,
       owners (exec schedule) !! a = Some o →
       Async.indexOf n o ≤ Async.lastCalledMiddlewareIndex (exec schedule))
  ∧ (∀ schedule a o target,
       owners (exec schedule) !! a = Some o →
       target ≤ Async.indexOf n o →
       invoke target (exec schedule) =
         (Async.Already (Rejected (MiddlewareNextError "next() called multiple times")),
          exec schedule))
  ∧ (let c := Async.exec [AsyncScenario.sharing;
                           AsyncScenario.reentering "B:passed" "B:rejected"]
                          ∅ ctx web log (AsyncScenario.spy "last")
                          (replicate 4 Async.Go
                             ++ [Async.Resume 1; Async.Go; Async.Go;
                                 Async.Resume 0; Async.Go]) in
     Async.observed c = [Called 0; Next 0; Called 1; Next 0; Effect "B:rejected"]
     ∧ Async.lastCalledMiddlewareIndex c = 1
     ∧ Async.completion c =
         Some (Rejected (MiddlewareNextError "next() called multiple times"))).
Proof.
  intros n invoke exec.
  split; [|split; [|split; [|split; [|vm_compute; done]]]].
  - intros toCall c fn Hlt Hpos Hfn. unfold invoke.
    by rewrite (invokeMiddleware_enters_handler middleware last toCall c fn).
  - intros toCall c Hlt Hge. unfold invoke.
    by rewrite (invokeMiddleware_enters_last middleware last toCall c).
  - intros schedule a o Ho.
    by apply (exec_started middleware initialArgs context client logger last schedule a).
  - intros schedule a o target Ho Htarget.
    apply invokeMiddleware_refused.
    pose proof (exec_started middleware initialArgs context client logger last
                  schedule a o Ho) as Hidx.
    etrans; [exact Htarget|exact Hidx].
Qed.

Lemma C8_counter_set_before_call_witness :
  Async.invokeMiddleware
    [AsyncScenario.sharing; AsyncScenario.reentering "B:passed" "B:rejected"]
    (AsyncScenario.spy "last") 1
    (Async.exec [AsyncScenario.sharing; AsyncScenario.reentering "B:passed" "B:rejected"]
                ∅ ctx web log (AsyncScenario.spy "last") (replicate 2 Async.Go)) =
  (Async.Already (Rejected (MiddlewareNextError "next() called multiple times")),
   Async.exec [AsyncScenario.sharing; AsyncScenario.reentering "B:passed" "B:rejected"]
              ∅ ctx web log (AsyncScenario.spy "last") (replicate 2 Async.Go)).
Proof.
  refine (proj1 (proj2 (proj2 (proj2
    (C8_counter_set_before_call
       [AsyncScenario.sharing; AsyncScenario.reentering "B:passed" "B:rejected"]
       ∅ ctx web log (AsyncScenario.spy "last")))))
    (replicate 2 Async.Go) 1%nat (Async.Handler 1) 1 _ _).
  - vm_compute. reflexivity.
  - simpl. lia.
Defined.

(** C1. When every handler of a chain, run on the argument object the
    executor hands it, calls a closure of the executor exactly once, the
    calls of the execution are handler 0, handler 1, ..., in index order,
    then [last], each once.  For [[A, B, C]] the order is A, B, C, [last];
    for [[A, B, B]] the effect of B shows twice, after that of A and before
    that of [last]. *)
Theorem C1_sequential_order (middleware : list Middleware) (initialArgs : Args)
    (context client logger : Foreign) (last : option Body) :
  let bundle :=
    argsFor initialArgs context client logger (default defaultLast last) middleware in
  (∀ (i : nat) fn, middleware !! i = Some fn →
     AdvancesOnce (bundle (Z.of_nat i)) (fn (bundle (Z.of_nat i)))) →
  steps (events (processMiddleware middleware initialArgs context client logger last)) =
    (Called <$> seqZ 0 (Z.of_nat (length middleware))) ++ [CalledLast]
  ∧ events (processMiddleware [advancing "A"; advancing "B"; advancing "C"]
                              ∅ ctx web log (Some (spy "last"))) =
      [Called 0; Effect "A"; Next 0; Called 1; Effect "B"; Next 1;
       Called 2; Effect "C"; Next 2; CalledLast; Effect "last"]
  ∧ events (processMiddleware [advancing "A"; advancing "B"; advancing "B"]
                              ∅ ctx web log (Some (spy "last"))) =
      [Called 0; Effect "A"; Next 0; Called 1; Effect "B"; Next 1;
       Called 2; Effect "B"; Next 2; CalledLast; Effect "last"].
Proof.
  intros bundle Hall. split; [|split; vm_compute; reflexivity].
  fold (expectedCalls (Z.of_nat (length middleware))).
  destruct (decide (middleware = [])) as [->|Hne].
  - unfold processMiddleware, callLast. simpl.
    destruct (run_no_closure ∅ (default defaultLast last)
                (record CalledLast {| lastCalledMiddlewareIndex := 0; observed := [] |}))
      as (l & Hl & Heff).
    { intros key c. by rewrite lookup_empty. }
    destruct (run ∅ _ _) as [r st]. simpl in Hl. subst st. simpl.
    unfold steps. simpl. fold (steps l). by rewrite steps_effects.
  - rewrite processMiddleware_nonempty by done. simpl.
    pose proof (invoke_good initialArgs context client logger last middleware)
      as [[Hb Hs] _].
    pose proof (invoke_completes_aux initialArgs context client logger
                  (default defaultLast last) middleware (length middleware)
                  0 initialState ltac:(lia) ltac:(lia) Hall ltac:(simpl; lia)) as Hn.
    rewrite Hs. apply take_ge. rewrite length_expectedCalls by lia. lia.
Qed.

Lemma C1_sequential_order_witness :
  steps (events (processMiddleware [advancing "A"; advancing "B"; advancing "B"]
                                   ∅ ctx web log (Some (spy "last")))) =
    [Called 0; Called 1; Called 2; CalledLast].
Proof.
  refine (proj1 (C1_sequential_order [advancing "A"; advancing "B"; advancing "B"]
                   ∅ ctx web log (Some (spy "last")) _)).
  intros [|[|[|i]]] fn Hfn; simpl in Hfn; inversion Hfn; subst;
    apply advancing_AdvancesOnce; reflexivity.
Defined.










(** C6, as stated, fails: when [initialArgs] itself has a property [next],
    the object handed to handler 0 carries that value under [next], not a
    closure of the executor, and calling it does not lead to handler 1. *)
Lemma C6_counterexample :
  argsFor {[ "next" := Fn "fake" Fulfilled ]} ctx web log (spy "last")
          [advancing "A"; advancing "B"] 0 !! "next" =
    Some (VForeign (Fn "fake" Fulfilled))
  ∧ processMiddleware [advancing "A"; advancing "B"]
                      {[ "next" := Fn "fake" Fulfilled ]} ctx web log
                      (Some (spy "last")) =
      {| completion := Fulfilled;
         events := [Called 0; Effect "A"; Effect "fake"];
         counter := Some 0 |}.
Proof. split; vm_compute; reflexivity. Qed.

(** C6, amended.  A step that passes the check at an index inside the chain
    calls the handler at that index with the object [argsFor]: its
    [context], [client] and [logger] are the values given to the executor,
    whatever [initialArgs] holds; every other property of [initialArgs] is
    passed as it is; and, provided [initialArgs] has no property [next], its
    [next] is the closure bound to that index, a call of which is a call of
    [invokeMiddleware] at the next index. *)
Theorem C6_argument_bundle (middleware : list Middleware) (initialArgs : Args)
    (context client logger : Foreign) (last : Body) (toCall : Z)
    (fn : Middleware) (st : State) :
  let invoke := invokeMiddleware initialArgs context client logger last middleware in
  let advance := nextFor initialArgs context client logger last middleware in
  let bundle := argsFor initialArgs context client logger last middleware toCall in
  0 ≤ toCall →
  lastCalledMiddlewareIndex st < toCall →
  middleware !! Z.to_nat toCall = Some fn →
  invoke toCall st =
    run bundle (fn bundle) (record (Called toCall) (setLastCalled toCall st))
  ∧ bundle !! "context" = Some (VForeign context)
  ∧ bundle !! "client" = Some (VForeign client)
  ∧ bundle !! "logger" = Some (VForeign logger)
  ∧ (∀ key v, key ≠ "context" → key ≠ "client" → key ≠ "logger" →
       initialArgs !! key = Some v → bundle !! key = Some (VForeign v))
  ∧ (initialArgs !! "next" = None →
     bundle !! "next" = Some (VNext (advance toCall))
     ∧ ∀ s, advance toCall s = invoke (toCall + 1) (record (Next toCall) s)).
Proof.
  intros invoke advance bundle Hpos Hst Hfn.
  split; [by apply invokeMiddleware_handler|].
  split; [apply mkArgs_context|]. split; [apply mkArgs_client|].
  split; [apply mkArgs_logger|]. split.
  - intros key v Hx Hc Hl Hkey. unfold bundle, argsFor.
    rewrite mkArgs_other by done. by rewrite Hkey.
  - intros Hnone. split; [by apply mkArgs_next|]. reflexivity.
Qed.

Lemma C6_argument_bundle_witness :
  argsFor {[ "context" := Opaque "mine" ]} ctx web log (spy "last")
          [advancing "A"] 0 !! "context" = Some (VForeign ctx).
Proof.
  refine (proj1 (proj2 (C6_argument_bundle [advancing "A"]
                          {[ "context" := Opaque "mine" ]} ctx web log (spy "last")
                          0 (advancing "A") initialState _ _ _))).
  - lia.
  - simpl. lia.
  - reflexivity.
Defined.

(** C10. The object literal lists [next] first, then spreads [initialArgs],
    then sets [context], [client] and [logger].  So when [initialArgs] has a
    property [next], that value is what every handler finds under [next];
    no closure of the executor is in any handler's object, and the execution
    of a non-empty chain calls handler 0 and nothing after it, the counter
    staying at 0.  The properties [context], [client] and [logger] are those
    given to the executor, whatever [initialArgs] holds under these names. *)
Theorem C10_initialArgs_next (middleware : list Middleware) (initialArgs : Args)
    (context client logger : Foreign) (last : option Body) (v : Foreign) :
  let ex := processMiddleware middleware initialArgs context client logger last in
  let bundle :=
    argsFor initialArgs context client logger (default defaultLast last) middleware in
  initialArgs !! "next" = Some v →
  (∀ i, bundle i !! "next" = Some (VForeign v))
  ∧ (∀ i key c, bundle i !! key ≠ Some (VNext c))
  ∧ (middleware ≠ [] → steps (events ex) = [Called 0] ∧ counter ex = Some 0)
  ∧ (∀ i, bundle i !! "context" = Some (VForeign context)
          ∧ bundle i !! "client" = Some (VForeign client)
          ∧ bundle i !! "logger" = Some (VForeign logger)).
Proof.
  intros ex bundle Hnext.
  assert (∀ i key c, bundle i !! key ≠ Some (VNext c)) as Hno.
  { intros i key c Hkey. apply bundle_closure in Hkey as (_ & _ & Hnone). congruence. }
  split; [intros i; by apply mkArgs_next_replaced|]. split; [done|]. split.
  - intros Hne. unfold ex. rewrite processMiddleware_nonempty by done. simpl.
    destruct (lookup_lt_is_Some_2 middleware (Z.to_nat 0)) as [fn Hfn].
    { destruct middleware; [done|]. simpl. lia. }
    rewrite (invokeMiddleware_handler _ _ _ _ _ _ _ fn) by (done || simpl; lia).
    fold (bundle 0).
    destruct (run_no_closure (bundle 0) (fn (bundle 0))
                (record (Called 0) (setLastCalled 0 initialState)) (Hno 0))
      as (l & Hrun & Hl).
    rewrite Hrun. simpl. split; [|done]. unfold steps. simpl. fold (steps l).
    by rewrite steps_effects.
  - intros i. split; [apply mkArgs_context|].
    split; [apply mkArgs_client|apply mkArgs_logger].
Qed.

Lemma C10_initialArgs_next_witness :
  steps (events (processMiddleware [advancing "A"; advancing "B"]
                   {[ "next" := Fn "fake" Fulfilled ]} ctx web log
                   (Some (spy "last")))) = [Called 0]
  ∧ counter (processMiddleware [advancing "A"; advancing "B"]
               {[ "next" := Fn "fake" Fulfilled ]} ctx web log
               (Some (spy "last"))) = Some 0.
Proof.
  refine (proj1 (proj2 (proj2
    (C10_initialArgs_next [advancing "A"; advancing "B"]
       {[ "next" := Fn "fake" Fulfilled ]} ctx web log (Some (spy "last"))
       (Fn "fake" Fulfilled) _))) _).
  - reflexivity.
  - discriminate.
Defined.

(** * Further properties of the executor *)

(** X1. An execution of a non-empty chain begins by calling handler 0; the
    counter ends between 0 and the length of the chain; and the number of
    calls of handlers and of [last] is the final counter plus one. *)
Theorem X1_counter_range (middleware : list Middleware) (initialArgs : Args)
    (context client logger : Foreign) (last : option Body) :
  middleware ≠ [] →
  let ex := processMiddleware middleware initialArgs context client logger last in
  ∃ c l,
    counter ex = Some c
    ∧ 0 ≤ c ≤ Z.of_nat (length middleware)
    ∧ events ex = Called 0 :: l
    ∧ length (steps (events ex)) = Z.to_nat (c + 1).
Proof.
  intros Hne ex. unfold ex. rewrite processMiddleware_nonempty by done. simpl.
  pose proof (invoke_good initialArgs context client logger last middleware)
    as [[Hb Hs] _].
  pose proof (invoke_advances initialArgs context client logger
                (default defaultLast last) middleware 0 initialState
                ltac:(lia) ltac:(simpl; lia)) as Hpos.
  destruct (lookup_lt_is_Some_2 middleware (Z.to_nat 0)) as [fn Hfn].
  { destruct middleware; [done|]. simpl. lia. }
  assert (∃ l, observed
                 (invokeMiddleware initialArgs context client logger
                    (default defaultLast last) middleware 0 initialState).2 =
               Called 0 :: l) as [l Hl].
  { rewrite (invokeMiddleware_handler _ _ _ _ _ _ _ fn) by (done || simpl; lia).
    destruct (run_extends initialArgs context client logger
                (default defaultLast last) middleware 0
                (fn (argsFor initialArgs context client logger
                       (default defaultLast last) middleware 0))
                (record (Called 0) (setLastCalled 0 initialState)) ltac:(lia))
      as [_ [l Hl]].
    exists l. by rewrite Hl. }
  eexists _, l. split; [reflexivity|]. split; [lia|]. split; [done|].
  rewrite Hs, length_take, length_expectedCalls by lia. lia.
Qed.

Lemma X1_counter_range_witness :
  ∃ c l,
    counter (processMiddleware [halting "A"; advancing "B"] ∅ ctx web log None) = Some c
    ∧ 0 ≤ c ≤ 2
    ∧ events (processMiddleware [halting "A"; advancing "B"] ∅ ctx web log None)
      = Called 0 :: l
    ∧ length (steps (events (processMiddleware [halting "A"; advancing "B"]
                                               ∅ ctx web log None)))
      = Z.to_nat (c + 1).
Proof.
  refine (X1_counter_range [halting "A"; advancing "B"] ∅ ctx web log None _).
  discriminate.
Defined.

(** X2. The final counter tells which calls were made: handler [j] was
    called exactly when [j] is at most the counter (and inside the chain),
    and [last] was called exactly when the counter equals the length of the
    chain. *)
Theorem X2_calls_from_counter (middleware : list Middleware) (initialArgs : Args)
    (context client logger : Foreign) (last : option Body) (c : Z) :
  middleware ≠ [] →
  let ex := processMiddleware middleware initialArgs context client logger last in
  counter ex = Some c →
  (∀ j, Called j ∈ events ex ↔ 0 ≤ j ≤ c ∧ j < Z.of_nat (length middleware))
  ∧ (CalledLast ∈ events ex ↔ c = Z.of_nat (length middleware)).
Proof.
  intros Hne ex. unfold ex. rewrite processMiddleware_nonempty by done. simpl.
  intros Hc. inversion Hc as [Hc']. clear Hc.
  pose proof (invoke_good initialArgs context client logger last middleware)
    as [Hr _].
  split.
  - intros j. apply Reached_called_iff; [lia|done].
  - apply Reached_calledLast_iff; [lia|done].
Qed.

Lemma X2_calls_from_counter_witness :
  (∀ j, Called j ∈ events (processMiddleware [advancing "A"; halting "B"; advancing "C"]
                                              ∅ ctx web log None)
        ↔ 0 ≤ j ≤ 1 ∧ j < 3)
  ∧ (CalledLast ∈ events (processMiddleware [advancing "A"; halting "B"; advancing "C"]
                                            ∅ ctx web log None)
     ↔ 1 = 3).
Proof.
  refine (X2_calls_from_counter [advancing "A"; halting "B"; advancing "C"]
            ∅ ctx web log None 1 _ _).
  - discriminate.
  - vm_compute. reflexivity.
Defined.

(** X4. When every handler passes on the settlement of its awaited [next],
    the execution settles the way [last] settles; with [last] omitted it is
    fulfilled. *)
Theorem X4_forwarding_chain (middleware : list Middleware) (initialArgs : Args)
    (context client logger : Foreign) (last : option Body) :
  let ex := processMiddleware middleware initialArgs context client logger last in
  let bundle :=
    argsFor initialArgs context client logger (default defaultLast last) middleware in
  (∀ (i : nat) fn, middleware !! i = Some fn →
     Forwards (bundle (Z.of_nat i)) (fn (bundle (Z.of_nat i)))) →
  (∀ st, completion ex = (run ∅ (default defaultLast last) st).1)
  ∧ (last = None → completion ex = Fulfilled).
Proof.
  intros ex bundle Hfw.
  assert (∀ st, completion ex = (run ∅ (default defaultLast last) st).1) as Hlast.
  { intros st. destruct (decide (middleware = [])) as [Hnil|Hne].
    - unfold ex. rewrite Hnil. unfold processMiddleware, callLast. simpl.
      rewrite (run_last_outcome (default defaultLast last) st
                 (record CalledLast {| lastCalledMiddlewareIndex := 0; observed := [] |})).
      destruct (run ∅ (default defaultLast last) (record CalledLast _)) as [r st'].
      reflexivity.
    - apply (forwarded_completion initialArgs context client logger last middleware
               (length middleware)); [done|lia| |].
      + intros i fn _. apply Hfw.
      + intros s Hs. rewrite invokeMiddleware_last by lia.
        unfold callLast. apply run_last_outcome. }
  split; [done|]. intros ->. by rewrite (Hlast initialState).
Qed.

Lemma X4_forwarding_chain_witness :
  completion (processMiddleware [advancing "A"; advancing "B"] ∅ ctx web log None)
  = Fulfilled.
Proof.
  refine (proj2 (X4_forwarding_chain [advancing "A"; advancing "B"] ∅ ctx web log
                   None _) _).
  - intros [|[|i]] fn Hfn; simpl in Hfn; inversion Hfn; subst;
      apply advancing_Forwards; reflexivity.
  - reflexivity.
Defined.

(** X5. A closure can be used once: after handler [i] has called its
    [next], however that call settled, a further call of the same [next]
    is rejected with [MiddlewareNextError] and calls nothing.  A handler
    cannot retry the rest of the chain. *)
Theorem X5_no_retry (middleware : list Middleware) (initialArgs : Args)
    (context client logger : Foreign) (last : Body) (i : Z) (st : State) :
  let advance := nextFor initialArgs context client logger last middleware in
  0 ≤ i →
  i ≤ lastCalledMiddlewareIndex st →
  advance i (advance i st).2 =
    (Rejected (MiddlewareNextError "next() called multiple times"),
     record (Next i) (advance i st).2).
Proof.
  intros advance Hi Hst.
  pose proof (advance_advances initialArgs context client logger last middleware
                i st Hi Hst) as Hadv.
  unfold advance at 1. unfold nextFor at 1.
  apply invokeMiddleware_duplicate. rewrite lastCalled_record. exact Hadv.
Qed.

Lemma X5_no_retry_witness :
  (nextFor ∅ ctx web log (spy "last") [swallowing; failing boom] 0
     (record (Called 0) (setLastCalled 0 initialState))).1 = Rejected boom
  ∧ nextFor ∅ ctx web log (spy "last") [swallowing; failing boom] 0
      (nextFor ∅ ctx web log (spy "last") [swallowing; failing boom] 0
         (record (Called 0) (setLastCalled 0 initialState))).2 =
    (Rejected (MiddlewareNextError "next() called multiple times"),
     record (Next 0)
       (nextFor ∅ ctx web log (spy "last") [swallowing; failing boom] 0
          (record (Called 0) (setLastCalled 0 initialState))).2).
Proof.
  split; [vm_compute; reflexivity|].
  refine (X5_no_retry [swallowing; failing boom] ∅ ctx web log (spy "last") 0
            (record (Called 0) (setLastCalled 0 initialState)) _ _).
  - lia.
  - simpl. lia.
Defined.

(** X6. Handlers that wrap their awaited [next] unwind last in, first out:
    for a chain of handlers [before_i(); await next(); after_i()], the
    effects are the [before]s in chain order, then those of [last], then,
    if [last] was fulfilled, the [after]s in reverse chain order; if [last]
    was rejected no [after] runs.  The execution settles the way [last]
    does. *)
Theorem X6_wrapping_unwinds (tags : list (Tag * Tag)) (initialArgs : Args)
    (context client logger : Foreign) (last : option Body) :
  initialArgs !! "next" = None →
  let ex := processMiddleware ((λ p, wrapping p.1 p.2) <$> tags)
                              initialArgs context client logger last in
  let lastRun := run ∅ (default defaultLast last) initialState in
  completion ex = lastRun.1
  ∧ effects (events ex) =
      tags.*1 ++ effects (observed lastRun.2)
        ++ match lastRun.1 with Fulfilled => rev (tags.*2) | Rejected _ => [] end.
Proof.
  intros Hnone ex lastRun.
  destruct (run_NoAdvance_uniform ∅ (default defaultLast last)) as (r & l & _ & Hlast).
  { apply NoAdvance_no_closure. intros key c. by rewrite lookup_empty. }
  assert (lastRun = (r, {| lastCalledMiddlewareIndex := -1; observed := l |}))
    as Hrun by (unfold lastRun; by rewrite Hlast).
  rewrite Hrun. simpl.
  destruct tags as [|p tags].
  - unfold ex, processMiddleware, callLast. simpl. rewrite Hlast. simpl.
    split; [done|]. destruct r; by rewrite app_nil_r.
  - set (chain := (λ p, wrapping p.1 p.2) <$> (p :: tags)).
    assert (chain ≠ []) as Hne by done.
    unfold ex. fold chain. rewrite processMiddleware_nonempty by done. simpl.
    unfold invokeMiddleware. change (Z.to_nat 0) with 0%nat. rewrite drop_0.
    destruct (invokeFrom_wrapping initialArgs context client logger
                (default defaultLast last) r l Hnone Hlast (p :: tags) 0 initialState)
      as [Hr He]; [simpl; lia|].
    fold chain in Hr, He. split; [done|]. by rewrite He.
Qed.

Lemma X6_wrapping_unwinds_witness :
  effects (events (processMiddleware
                     [wrapping "a1" "a2"; wrapping "b1" "b2"; wrapping "c1" "c2"]
                     ∅ ctx web log (Some (spy "last")))) =
    ["a1"; "b1"; "c1"; "last"; "c2"; "b2"; "a2"].
Proof.
  refine (proj2 (X6_wrapping_unwinds [("a1", "a2"); ("b1", "b2"); ("c1", "c2")]
                   ∅ ctx web log (Some (spy "last")) _)).
  reflexivity.
Defined.

(** X7. The object a handler receives has the properties [next],
    [context], [client], [logger] and those of [initialArgs], and no other;
    the objects of two handlers differ at most in [next]. *)
Theorem X7_bundle_properties (middleware : list Middleware) (initialArgs : Args)
    (context client logger : Foreign) (last : Body) (i j : Z) :
  let bundle := argsFor initialArgs context client logger last middleware in
  dom (bundle i) =
    ({[ "next"; "context"; "client"; "logger" ]} ∪ dom initialArgs : gset string)
  ∧ delete "next" (bundle i) = delete "next" (bundle j).
Proof.
  intros bundle. split.
  - unfold bundle, argsFor, mkArgs.
    rewrite !dom_insert_L, dom_union_L, dom_fmap_L, dom_singleton_L.
    apply set_eq. intros key.
    rewrite !elem_of_union, !elem_of_singleton. tauto.
  - apply map_eq. intros key.
    destruct (decide (key = "next")) as [->|Hne].
    + by rewrite !lookup_delete_eq.
    + rewrite !lookup_delete_ne by done. unfold bundle, argsFor.
      destruct (decide (key = "logger")) as [->|Hl];
        [by rewrite !mkArgs_logger|].
      destruct (decide (key = "client")) as [->|Hc];
        [by rewrite !mkArgs_client|].
      destruct (decide (key = "context")) as [->|Hx];
        [by rewrite !mkArgs_context|].
      rewrite !mkArgs_other by done.
      destruct (initialArgs !! key); [done|]. by rewrite !decide_False.
Qed.

(** X8. A handler that awaits [next] a second time, after a first call that
    was fulfilled, is rejected with [MiddlewareNextError] at the second
    await: the code after it never runs, and only the effects between the
    two awaits are added.  When the handlers before it pass settlements on,
    the execution is rejected with that error. *)
Theorem X8_second_await_rejects (middleware : list Middleware) (initialArgs : Args)
    (context client logger : Foreign) (last : option Body) (j : nat)
    (fn : Middleware) (pre mid : list Tag) (rest : Body) :
  let ex := processMiddleware middleware initialArgs context client logger last in
  let invoke :=
    invokeMiddleware initialArgs context client logger (default defaultLast last)
                     middleware in
  let advance :=
    nextFor initialArgs context client logger (default defaultLast last) middleware in
  let bundle :=
    argsFor initialArgs context client logger (default defaultLast last) middleware in
  initialArgs !! "next" = None →
  middleware !! j = Some fn →
  fn (bundle (Z.of_nat j)) = emits pre (awaitNext (emits mid (awaitNext rest))) →
  (∀ (i : nat) fn', (i < j)%nat → middleware !! i = Some fn' →
     Forwards (bundle (Z.of_nat i)) (fn' (bundle (Z.of_nat i)))) →
  (∀ s, lastCalledMiddlewareIndex s < Z.of_nat j + 1 →
        (invoke (Z.of_nat j + 1) s).1 = Fulfilled) →
  completion ex = Rejected (MiddlewareNextError "next() called multiple times")
  ∧ ∀ st, lastCalledMiddlewareIndex st = Z.of_nat j →
      run (bundle (Z.of_nat j)) (fn (bundle (Z.of_nat j))) st =
        (Rejected (MiddlewareNextError "next() called multiple times"),
         record (Next (Z.of_nat j))
                (logAll mid (advance (Z.of_nat j) (logAll pre st)).2)).
Proof.
  intros ex invoke advance bundle Hnone Hfn Hshape Hfw Hdown.
  assert (∀ st, lastCalledMiddlewareIndex st = Z.of_nat j →
            run (bundle (Z.of_nat j)) (fn (bundle (Z.of_nat j))) st =
              (Rejected (MiddlewareNextError "next() called multiple times"),
               record (Next (Z.of_nat j))
                      (logAll mid (advance (Z.of_nat j) (logAll pre st)).2)))
    as Hstep.
  { intros st Hst. rewrite Hshape.
    unfold bundle. rewrite run_double_await by (done || lia).
    fold advance.
    assert ((advance (Z.of_nat j) (logAll pre st)).1 = Fulfilled) as ->; [|done].
    unfold advance, nextFor. apply Hdown.
    rewrite lastCalled_record, lastCalled_logAll. lia. }
  split; [|done].
  pose proof (lookup_lt_Some _ _ _ Hfn) as Hlen.
  apply (forwarded_completion initialArgs context client logger last middleware j);
    [intros ->; simpl in Hlen; lia|lia|done|].
  intros s Hs.
  rewrite (invokeMiddleware_handler _ _ _ _ _ _ _ fn)
    by (rewrite ?Nat2Z.id; done || lia).
  fold (bundle (Z.of_nat j)). by rewrite Hstep.
Qed.

Lemma X8_second_await_rejects_witness :
  completion (processMiddleware [twice "cb1" "cb2"] ∅ ctx web log None) =
    Rejected (MiddlewareNextError "next() called multiple times").
Proof.
  refine (proj1 (X8_second_await_rejects [twice "cb1" "cb2"] ∅ ctx web log None
                   0 (twice "cb1" "cb2") [] ["cb1"] (Emit "cb2" Return) _ _ _ _ _)).
  - reflexivity.
  - reflexivity.
  - reflexivity.
  - intros i fn' Hi. lia.
  - intros s Hs. rewrite invokeMiddleware_last by (simpl; lia). reflexivity.
Defined.

(** X9. A chain runs exactly up to its first handler that does not advance:
    if the handlers before index [j] each call a closure of the executor
    once and handler [j] calls none, the counter ends at [j] and the calls
    made are those of handlers 0 to [j], in order, without [last]. *)
Theorem X9_runs_to_first_halt (middleware : list Middleware) (initialArgs : Args)
    (context client logger : Foreign) (last : option Body) (j : nat)
    (fn : Middleware) :
  let ex := processMiddleware middleware initialArgs context client logger last in
  let bundle :=
    argsFor initialArgs context client logger (default defaultLast last) middleware in
  middleware !! j = Some fn →
  NoAdvance (bundle (Z.of_nat j)) (fn (bundle (Z.of_nat j))) →
  (∀ (i : nat) fn', (i < j)%nat → middleware !! i = Some fn' →
     AdvancesOnce (bundle (Z.of_nat i)) (fn' (bundle (Z.of_nat i)))) →
  counter ex = Some (Z.of_nat j)
  ∧ steps (events ex) = Called <$> seqZ 0 (Z.of_nat j + 1).
Proof.
  intros ex bundle Hfn Hna Hall.
  pose proof (lookup_lt_Some _ _ _ Hfn) as Hlen.
  assert (middleware ≠ []) as Hne by (intros ->; simpl in Hlen; lia).
  unfold ex. rewrite processMiddleware_nonempty by done. simpl.
  pose proof (invoke_good initialArgs context client logger last middleware)
    as [[Hb Hs] _].
  pose proof (no_advance_stops initialArgs context client logger
                (default defaultLast last) middleware j fn Hfn Hna
                (length middleware) 0 initialState
                ltac:(lia) ltac:(lia) ltac:(simpl; lia)) as Hle.
  pose proof (invoke_reaches initialArgs context client logger
                (default defaultLast last) middleware (Z.of_nat j) ltac:(lia)) as Hge.
  specialize (Hge (λ i fn' Hi, Hall i fn' ltac:(lia)) j 0 initialState
                  ltac:(lia) ltac:(lia) ltac:(simpl; lia)).
  assert (lastCalledMiddlewareIndex
            (invokeMiddleware initialArgs context client logger
               (default defaultLast last) middleware 0 initialState).2 = Z.of_nat j)
    as Hc by lia.
  split; [by rewrite Hc|].
  rewrite Hs, Hc. apply take_expectedCalls. lia.
Qed.

Lemma X9_runs_to_first_halt_witness :
  counter (processMiddleware [advancing "A"; halting "B"; advancing "C"]
                             ∅ ctx web log None) = Some 1
  ∧ steps (events (processMiddleware [advancing "A"; halting "B"; advancing "C"]
                                     ∅ ctx web log None)) = [Called 0; Called 1].
Proof.
  refine (X9_runs_to_first_halt [advancing "A"; halting "B"; advancing "C"]
            ∅ ctx web log None 1 (halting "B") _ _ _).
  - reflexivity.
  - apply halting_NoAdvance.
  - intros [|i] fn' Hi Hfn'; [|lia]. simpl in Hfn'. inversion Hfn'; subst.
    apply advancing_AdvancesOnce. reflexivity.
Defined.

(** X10. The order of calls does not depend on the handlers awaiting what
    they call: in every configuration of every execution, whatever the
    handlers and [last] do (promises dropped, closures passed on through
    [context]) and in whatever order suspended functions resume, the calls
    made so far are the first [lastCalledMiddlewareIndex + 1] of "handler
    0, ..., handler n - 1, [last]", none occurs twice, every function
    called so far was called at an index the counter has reached, and a
    closure found in [context] is bound to the index of a handler that has
    been called. *)
Theorem X10_order_with_dropped_promises (middleware : list Async.Script)
    (initialArgs : Args) (context client logger : Foreign) (last : Async.Script)
    (schedule : list Async.Choice) :
  let n := Z.of_nat (length middleware) in
  let c := Async.exec middleware initialArgs context client logger last schedule in
  steps (Async.observed c) =
    take (Z.to_nat (Async.lastCalledMiddlewareIndex c + 1)) (expectedCalls n)
  ∧ NoDup (steps (Async.observed c))
  ∧ (∀ a o, owners c !! a = Some o →
       0 ≤ Async.indexOf n o ≤ Async.lastCalledMiddlewareIndex c)
  ∧ (∀ ckey i, Async.shared c !! ckey = Some (Async.ToClosure i) →
       0 ≤ i ≤ Async.lastCalledMiddlewareIndex c ∧ i < n).
Proof.
  intros n c.
  destruct (Sound_exec middleware initialArgs context client logger last schedule)
    as (((_ & Hsteps) & _) & Hact & Hsh & _).
  split; [exact Hsteps|]. split; [|split].
  - simpl in Hsteps. unfold c. rewrite Hsteps.
    eapply sublist_NoDup; [apply NoDup_expectedCalls|apply sublist_take].
  - intros a o Ho. specialize (Hact a o Ho). unfold n, c.
    destruct o; simpl; lia.
  - exact Hsh.
Qed.
